(** * AI hiring recommendation scripts: matching, bucketing, identity and
    unification logic

    A shallow embedding of the pure cores of the repository's batch scripts
    ([match_candidates.py], [inspect_jd.py], [unify_resumes.py],
    [upload_to_pinecone.py], [list_candidate_vectors.py],
    [match_candidates_llm_v2.py]) and the properties of their behaviour.

    Conventions of the embedding:
    - a Python [str] is a [list ascii]; each [ascii] stands for the code
      point of the same number, so the texts covered are those whose code
      points are below 256 (Latin-1).  [str] turns a literal into that
      representation;
    - a Python [int] is a [Z]; a Python [float] is a primitive binary64
      [float], the arithmetic CPython runs;
    - the vector store, the JSON decoder and the operator's terminal are
      external: they appear as explicit stores, oracles and inputs. *)

From Stdlib Require Import ZArith List String Ascii Bool Lia Sorted.
From Stdlib Require Import Reals Lra.
From Stdlib Require Import Floats.
From stdpp Require Import gmap strings list.

Set Warnings "-inexact-float,-register-all".
Local Open Scope Z_scope.

(** ** Python string built-ins *)

Module PyStr.

Definition str (s : string) : list ascii := list_ascii_of_string s.

Definition code (c : ascii) : N := N_of_ascii c.

Definition nl : ascii := ascii_of_N 10.

(** [str.isspace] on one code point below 256. *)
Definition isspace (c : ascii) : bool :=
  let n := code c in
  ((9 <=? n) && (n <=? 13) || (28 <=? n) && (n <=? 32)
   || (n =? 133) || (n =? 160))%N.

Fixpoint lstrip (s : list ascii) : list ascii :=
  match s with
  | c :: t => if isspace c then lstrip t else s
  | [] => []
  end.

Definition rstrip (s : list ascii) : list ascii := rev (lstrip (rev s)).

Definition strip (s : list ascii) : list ascii := rstrip (lstrip s).

Fixpoint startswith (p s : list ascii) : bool :=
  match p, s with
  | [], _ => true
  | a :: p', b :: s' => if ascii_dec a b then startswith p' s' else false
  | _ :: _, [] => false
  end.

Definition endswith (p s : list ascii) : bool := startswith (rev p) (rev s).

(** [s.find(sub)], scanning from offset [i] of the original string. *)
Fixpoint find_from (sub s : list ascii) (i : Z) : Z :=
  if startswith sub s then i
  else match s with
       | [] => -1
       | _ :: t => find_from sub t (i + 1)
       end.

Definition find (sub s : list ascii) : Z := find_from sub s 0.

(** [s.rfind(sub)]: the last offset at which [sub] starts, [acc] being the
    best offset seen so far. *)
Fixpoint rfind_from (sub s : list ascii) (i acc : Z) : Z :=
  let acc' := if startswith sub s then i else acc in
  match s with
  | [] => acc'
  | _ :: t => rfind_from sub t (i + 1) acc'
  end.

Definition rfind (sub s : list ascii) : Z := rfind_from sub s 0 (-1).

(** [sub in s] *)
Definition contains (sub s : list ascii) : bool := negb (find sub s =? -1).

(** One bound of a slice, clamped as Python clamps it. *)
Definition clamp (len i : Z) : nat :=
  Z.to_nat (Z.min len (if i <? 0 then Z.max 0 (len + i) else i)).

(** [s[lo:hi]] *)
Definition slice (s : list ascii) (lo hi : Z) : list ascii :=
  let len := Z.of_nat (length s) in
  let a := clamp len lo in
  let b := clamp len hi in
  take (b - a)%nat (drop a s).

(** [s.split(sep, 1)] for a non-empty separator: one or two parts. *)
Definition split1 (sep s : list ascii) : list (list ascii) :=
  let i := find sep s in
  if i =? -1 then [s]
  else [take (Z.to_nat i) s; drop (Z.to_nat i + length sep)%nat s].

(** [s.split(sep)[0]] for a non-empty separator. *)
Definition split_head (sep s : list ascii) : list ascii :=
  let i := find sep s in
  if i =? -1 then s else take (Z.to_nat i) s.

(** [s.replace(old, new, 1)]; an empty [old] matches at offset 0. *)
Definition replace1 (old new s : list ascii) : list ascii :=
  let i := find old s in
  if i =? -1 then s
  else take (Z.to_nat i) s ++ new ++ drop (Z.to_nat i + length old)%nat s.

(** [str.lower] on one code point below 256: the ASCII capitals and the
    Latin-1 capitals other than the multiplication sign. *)
Definition lower_char (c : ascii) : ascii :=
  let n := code c in
  if ((65 <=? n) && (n <=? 90)
      || (192 <=? n) && (n <=? 222) && negb (n =? 215))%N
  then ascii_of_N (n + 32) else c.

Definition lower (s : list ascii) : list ascii := map lower_char s.

(** [s.split()]: the maximal runs of non-space characters; [cur] is the run
    being read, reversed. *)
Fixpoint split_ws_aux (s cur : list ascii) : list (list ascii) :=
  match s with
  | [] => match cur with [] => [] | _ => [rev cur] end
  | c :: t =>
      if isspace c
      then match cur with
           | [] => split_ws_aux t []
           | _ => rev cur :: split_ws_aux t []
           end
      else split_ws_aux t (c :: cur)
  end.

Definition split_ws (s : list ascii) : list (list ascii) := split_ws_aux s [].

(** [sep.join(parts)] *)
Fixpoint join (sep : list ascii) (parts : list (list ascii)) : list ascii :=
  match parts with
  | [] => []
  | [p] => p
  | p :: rest => p ++ sep ++ join sep rest
  end.

Definition digit_char (n : N) : ascii := ascii_of_N (48 + n).

(** Decimal digits of a non-negative number, most significant first; the
    fuel bounds the number of digits. *)
Fixpoint digits_aux (fuel : nat) (n : N) (acc : list ascii) : list ascii :=
  match fuel with
  | O => acc
  | S f =>
      let acc' := digit_char (n mod 10) :: acc in
      if (n <? 10)%N then acc' else digits_aux f (n / 10) acc'
  end.

(** [str(i)] for a Python [int]. *)
Definition str_of_int (i : Z) : list ascii :=
  let n := Z.to_N (Z.abs i) in
  let ds := digits_aux (S (N.to_nat (N.log2 n))) n [] in
  if i <? 0 then "-"%char :: ds else ds.

End PyStr.

(** ** Python sequence idioms shared by the scripts *)

Module PySeq.

(** [list(dict.fromkeys(ids))]: the first occurrence of each id, in order. *)
Definition unique (ids : list (list ascii)) : list (list ascii) :=
  fold_left (fun seen i => if bool_decide (i ∈ seen) then seen else seen ++ [i])
            ids [].

(** The slices [lst[i:i+n]] for [i] in [range(0, len(lst), n)], [n] being
    positive; at most [fuel] slices are produced, and [length lst] of them
    are always enough. *)
Fixpoint batches_aux {A : Type} (fuel : nat) (lst : list A) (n : nat)
  : list (list A) :=
  match fuel, lst with
  | S f, _ :: _ => take n lst :: batches_aux f (drop n lst) n
  | _, _ => []
  end.

Definition batches {A : Type} (lst : list A) (n : nat) : list (list A) :=
  batches_aux (length lst) lst n.

End PySeq.


Import PyStr.

(** ** match_candidates.py: bucketing by similarity score *)

Module MatchCandidates.

Definition HIRED_THRESHOLD : float := 0.75%float.
Definition SHORTLIST_THRESHOLD : float := 0.55%float.
Definition REJECTED_THRESHOLD : float := 0.30%float.

(** [x >= y] and [x <= y] on Python floats. *)
Definition ge (x y : float) : bool := PrimFloat.leb y x.
Definition le (x y : float) : bool := PrimFloat.leb x y.

(** The [if]/[elif] chain of [main], for any three thresholds. *)
Definition bucket_with (hired shortlist rejected score : float) : string :=
  if ge score hired then "H"
  else if ge score shortlist then "S"
  else if le score rejected then "R"
  else "N".

(** The chain with the module's constants, as [main] runs it. *)
Definition bucket (score : float) : string :=
  bucket_with HIRED_THRESHOLD SHORTLIST_THRESHOLD REJECTED_THRESHOLD score.

End MatchCandidates.

(** ** inspect_jd.py: recovery of JSON text from a model reply *)

Module InspectJd.

Definition fence : list ascii := str "```".

(** [[a-zA-Z]] *)
Definition is_ascii_letter (c : ascii) : bool :=
  let n := code c in
  ((65 <=? n) && (n <=? 90) || (97 <=? n) && (n <=? 122))%N.

Fixpoint drop_letters (s : list ascii) : list ascii :=
  match s with
  | c :: t => if is_ascii_letter c then drop_letters t else s
  | [] => []
  end.

Definition drop_one_nl (s : list ascii) : list ascii :=
  match s with
  | c :: t => if ascii_dec c nl then t else s
  | [] => []
  end.

(** [re.sub] of the pattern [^```[a-zA-Z]*\n?] by the empty text: the
    pattern is anchored at offset 0 and its quantifiers are greedy, so the
    one possible match is the fence, the longest run of letters after it
    and one newline. *)
Definition sub_leading_fence (txt : list ascii) : list ascii :=
  if startswith fence txt
  then drop_one_nl (drop_letters (drop 3 txt))
  else txt.

Definition drop_end (n : nat) (s : list ascii) : list ascii :=
  take (length s - n)%nat s.

(** Removes the fence ending [s] with the newline just before it, if any:
    the leftmost match of [\n?```] that ends where [s] ends. *)
Definition cut_final_fence (s : list ascii) : list ascii :=
  let p := drop_end 3 s in
  if endswith [nl] p then drop_end 1 p else p.

(** [re.sub] of the pattern [\n?```$] by the empty text: without
    MULTILINE, [$] holds at the end of the text and just before a newline
    that ends the text. *)
Definition sub_trailing_fence (txt : list ascii) : list ascii :=
  if endswith fence txt then cut_final_fence txt
  else if endswith (fence ++ [nl]) txt
       then cut_final_fence (drop_end 1 txt) ++ [nl]
       else txt.

(** [min([pos for pos in (x, y) if pos != -1], default=-1)] *)
Definition min_found (x y : Z) : Z :=
  if x =? -1 then y else if y =? -1 then x else Z.min x y.

Definition clean_gpt_response (raw_output : list ascii) : list ascii :=
  let txt := strip raw_output in
  if startswith fence txt
  then strip (sub_trailing_fence (sub_leading_fence txt))
  else
    let first_brace := min_found (find (str "[") txt) (find (str "{") txt) in
    if first_brace =? -1 then txt
    else
      let last_brace := Z.max (rfind (str "}") txt) (rfind (str "]") txt) in
      if last_brace =? -1 then txt
      else slice txt first_brace (last_brace + 1).

End InspectJd.

(** ** unify_resumes.py: re-keying of chunk identifiers *)

Module UnifyResumes.

Definition chunk_marker : list ascii := str "_chunk".

(** The derivation of [new_id] from [old_id] in the batch loop;
    [split1 ... !! 1] is [old_id.split('_chunk', 1)[1]]. *)
Definition new_id (from_pref to_id old_id : list ascii) : list ascii :=
  if contains chunk_marker old_id
  then
    let suffix := default [] (split1 chunk_marker old_id !! 1%nat) in
    to_id ++ chunk_marker ++ suffix
  else replace1 from_pref to_id old_id.

End UnifyResumes.

(** ** inspect_jd.py: decoding of the reply and shaping of the result *)

Module InspectJdJson.
Import InspectJd.

(** A value decoded by [json.loads]; a dict keeps its items in order, each
    key once. *)
Inductive json : Type :=
  | JNull
  | JBool (b : bool)
  | JInt (z : Z)
  | JFloat (x : float)
  | JStr (s : list ascii)
  | JList (items : list json)
  | JDict (items : list (list ascii * json)).

(** Truth value of a decoded value. *)
Definition truthy (v : json) : bool :=
  match v with
  | JNull => false
  | JBool b => b
  | JInt z => negb (z =? 0)
  | JFloat x => negb (PrimFloat.eqb x 0%float)
  | JStr s => match s with [] => false | _ :: _ => true end
  | JList l => match l with [] => false | _ :: _ => true end
  | JDict d => match d with [] => false | _ :: _ => true end
  end.

(** [d.get(key)]: [None], here [JNull], when the key is missing. *)
Fixpoint get (d : list (list ascii * json)) (key : list ascii) : json :=
  match d with
  | [] => JNull
  | (k, v) :: rest => if decide (k = key) then v else get rest key
  end.

(** [x or y] *)
Definition por (x y : json) : json := if truthy x then x else y.

(** The chain of tests of [main] that turns [parsed] into [parsed_list]. *)
Definition parsed_list (parsed : json) : json :=
  match parsed with
  | JDict d =>
      if truthy (get d (str "evaluations")) then get d (str "evaluations")
      else por (get d (str "results"))
               (por (get d (str "evaluations")) (JList []))
  | JList _ => parsed
  | _ => JList []
  end.



(** The error [json.loads] raises, with the text it was given. *)
Inductive exn : Type := JSONDecodeError (doc : list ascii).

Section Decode.
(** The decoder of the standard library: [None] when it raises. *)
Variable json_loads : list ascii -> option json.


End Decode.

End InspectJdJson.

(** ** list_candidate_vectors.py: grouping of chunk identifiers *)

Module ListCandidateVectors.

(** What one step of [ix.list] may yield, as far as the script tells the
    shapes apart: a string, a list (of which only strings are kept), a dict
    with a [matches] entry (the [id] of each match, if any), anything else. *)
Inductive page_item : Type :=
  | ItemStr (s : list ascii)
  | ItemOther.

Inductive page : Type :=
  | PageStr (s : list ascii)
  | PageList (items : list page_item)
  | PageMatches (ids : list (option (list ascii)))
  | PageOther.

(** A fetched vector, of which the script reads the metadata only; the
    metadata values it reads are strings. *)
Record vector : Type := { metadata : option (gmap (list ascii) (list ascii)) }.

(** Truth value of a string. *)
Definition nonempty (s : list ascii) : bool :=
  match s with [] => false | _ :: _ => true end.

Definition page_ids (p : page) : list (list ascii) :=
  match p with
  | PageStr s => [s]
  | PageList items =>
      flat_map (fun it => match it with ItemStr s => [s] | ItemOther => [] end)
               items
  | PageMatches ids =>
      flat_map (fun o => match o with
                         | Some s => if nonempty s then [s] else []
                         | None => []
                         end) ids
  | PageOther => []
  end.

(** The generator [chunked(l, n)], called with [n = 100]. *)
Definition chunked {A : Type} (l : list A) (n : nat) : list (list A) :=
  PySeq.batches l n.

(** [(meta or {}).get('candidate_id') or vid.split('_chunk')[0]] *)
Definition candidate_id_of (vid : list ascii) (v : vector) : list ascii :=
  match default ∅ (metadata v) !! str "candidate_id" with
  | Some c => if nonempty c then c else split_head (str "_chunk") vid
  | None => split_head (str "_chunk") vid
  end.

(** [mapping.setdefault(cid, []).append(vid)] on a dict kept in insertion
    order. *)
Fixpoint setdefault_append (cid vid : list ascii)
    (mapping : list (list ascii * list (list ascii)))
  : list (list ascii * list (list ascii)) :=
  match mapping with
  | [] => [(cid, [vid])]
  | (k, vids) :: rest =>
      if decide (k = cid) then (k, vids ++ [vid]) :: rest
      else (k, vids) :: setdefault_append cid vid rest
  end.

(** The grouping loop over the fetched items, in the order met. *)
Definition group_chunks (fetched : list (list ascii * vector))
  : list (list ascii * list (list ascii)) :=
  fold_left (fun mapping '(vid, v) =>
               setdefault_append (candidate_id_of vid v) vid mapping)
            fetched [].

(** One insertion of the stable descending sort: [x] goes before the first
    item whose count is not above its own. *)
Fixpoint insert_by_count (x : list ascii * list (list ascii))
    (l : list (list ascii * list (list ascii)))
  : list (list ascii * list (list ascii)) :=
  match l with
  | [] => [x]
  | y :: t =>
      if (length (snd x) <? length (snd y))%nat
      then y :: insert_by_count x t
      else x :: y :: t
  end.

(** [sorted(mapping.items(), key=lambda x: len(x[1]), reverse=True)]; the
    sort is stable, also with [reverse]. *)
Definition sorted_by_count (mapping : list (list ascii * list (list ascii)))
  : list (list ascii * list (list ascii)) :=
  fold_right insert_by_count [] mapping.

(** The items the grouping loop meets: the ids listed, emptied of falsy
    ones, made unique and fetched in batches of 100.  [fetch] is the
    store's answer to one batch: the items of the [vectors] dict. *)
Definition fetched_items
    (fetch : list (list ascii) -> list (list ascii * vector))
    (pages : list page) : list (list ascii * vector) :=
  let ids := flat_map page_ids pages in
  let ids := List.filter nonempty ids in
  let ids := PySeq.unique ids in
  flat_map fetch (chunked ids 100).

(** The script, up to the report: the items grouped, the groups sorted. *)
Definition summary (fetch : list (list ascii) -> list (list ascii * vector))
    (pages : list page) : list (list ascii * list (list ascii)) :=
  sorted_by_count (group_chunks (fetched_items fetch pages)).

(** One line of the report: the id, the count, [vids[:3]]. *)
Definition report_line (item : list ascii * list (list ascii))
  : list ascii * nat * list (list ascii) :=
  (fst item, length (snd item), take 3 (snd item)).

End ListCandidateVectors.

(** ** unify_resumes.py: the run of the tool against the vector store *)

Module UnifyRun.
Import UnifyResumes.

(** A metadata value of the store: a string, a number, a boolean or a list
    of strings. *)
Inductive meta_value : Type :=
  | MetaStr (s : list ascii)
  | MetaNum (x : float)
  | MetaBool (b : bool)
  | MetaStrs (l : list (list ascii)).

(** A stored vector as the client object shows it: the attributes [values]
    and [metadata], either of which may be [None]. *)
Record vector : Type := {
  values : option (list float);
  metadata : option (gmap (list ascii) meta_value)
}.

(** The shapes [ix.list] may yield: a string, a list (of strings, or of
    dicts with an [id], which is a string or not), a dict (of which the
    keys are taken, strings or not), anything else. *)
Inductive page_item : Type :=
  | ItemStr (s : list ascii)
  | ItemId (id : option (list ascii))
  | ItemOther.

Inductive page : Type :=
  | PageStr (s : list ascii)
  | PageList (items : list page_item)
  | PageDict (keys : list (option (list ascii)))
  | PageOther.

(** The ids collected from one page; [None] stands for a collected value
    that is not a string. *)
Definition page_ids (p : page) : list (option (list ascii)) :=
  match p with
  | PageStr s => [Some s]
  | PageList items =>
      flat_map (fun it => match it with
                          | ItemStr s => [Some s]
                          | ItemId id => [id]
                          | ItemOther => []
                          end) items
  | PageDict keys => keys
  | PageOther => []
  end.

(** The generator [chunks(lst, n)]: [range] refuses a zero step ([None]) and
    is empty for a negative one. *)
Definition chunks {A : Type} (lst : list A) (n : Z) : option (list (list A)) :=
  if n =? 0 then None
  else if n <? 0 then Some []
  else Some (PySeq.batches lst (Z.to_nat n)).

Record args : Type := {
  from_prefix : list ascii;
  to_id : list ascii;
  delete_old : bool;
  batch_size : Z;
  configured : bool  (* PINECONE_API_KEY and an index name are given *)
}.

(** What the run meets outside itself: the listing of the namespace ([None]
    when listing raises), which calls of the store fail, numbered from 0,
    and the line the operator types at the prompt. *)
Record world : Type := {
  listing : option (list page);
  fetch_fails : nat -> bool;
  upsert_fails : nat -> bool;
  delete_fails : nat -> bool;
  confirm : list ascii
}.

Definition record : Type :=
  (list ascii * list float * gmap (list ascii) meta_value)%type.

Inductive event : Type :=
  | Upserted (records : list record)
  | UpsertFailed (records : list record)
  | Deleted (ids : list (list ascii))
  | DeleteFailed (ids : list (list ascii)).

Inductive status : Type :=
  | Completed
  | Exit (code : Z)
  | Uncaught.

Record state : Type := {
  store : gmap (list ascii) vector;
  log : list event;
  fetches : nat;
  upserts : nat;
  deletes : nat
}.

(** [ix.upsert(vectors=to_upsert)] and [ix.delete(ids=b)] when they
    succeed. *)
Definition store_upsert (records : list record)
    (s : gmap (list ascii) vector) : gmap (list ascii) vector :=
  fold_left (fun s '(id, vals, meta) =>
               <[ id := {| values := Some vals; metadata := Some meta |} ]> s)
            records s.

Definition store_delete (ids : list (list ascii))
    (s : gmap (list ascii) vector) : gmap (list ascii) vector :=
  fold_left (fun s id => delete id s) ids s.

Section Run.
Variable a : args.
Variable w : world.

(** The body of the loop over one batch for one [old_id]: [None] when the
    vector or its values are missing. *)
Definition rekey (vecs : gmap (list ascii) vector) (old_id : list ascii)
  : option record :=
  match vecs !! old_id with
  | None => None
  | Some vobj =>
      match values vobj with
      | None | Some [] => None
      | Some vals =>
          let meta := default ∅ (metadata vobj) in
          Some (new_id (from_prefix a) (to_id a) old_id, vals,
                <[ str "candidate_id" := MetaStr (to_id a) ]> meta)
      end
  end.

(** The loop over the batches; [Some] status when the run ends in it. *)
Fixpoint upsert_batches (batches : list (list (list ascii))) (st : state)
  : state * option status :=
  match batches with
  | [] => (st, None)
  | batch :: rest =>
      let st1 := {| store := store st; log := log st;
                    fetches := S (fetches st); upserts := upserts st;
                    deletes := deletes st |} in
      if fetch_fails w (fetches st) then (st1, Some Uncaught)
      else
        let to_upsert := omap (rekey (store st)) batch in
        match to_upsert with
        | [] => upsert_batches rest st1
        | _ :: _ =>
            if upsert_fails w (upserts st)
            then ({| store := store st;
                     log := log st ++ [UpsertFailed to_upsert];
                     fetches := S (fetches st); upserts := S (upserts st);
                     deletes := deletes st |}, Some (Exit 1))
            else upsert_batches rest
                   {| store := store_upsert to_upsert (store st);
                      log := log st ++ [Upserted to_upsert];
                      fetches := S (fetches st); upserts := S (upserts st);
                      deletes := deletes st |}
        end
  end.

(** The loop of deletions; a failed deletion is reported and the loop goes
    on. *)
Fixpoint delete_batches (batches : list (list (list ascii))) (st : state)
  : state :=
  match batches with
  | [] => st
  | b :: rest =>
      if delete_fails w (deletes st)
      then delete_batches rest
             {| store := store st; log := log st ++ [DeleteFailed b];
                fetches := fetches st; upserts := upserts st;
                deletes := S (deletes st) |}
      else delete_batches rest
             {| store := store_delete b (store st);
                log := log st ++ [Deleted b];
                fetches := fetches st; upserts := upserts st;
                deletes := S (deletes st) |}
  end.

(** The ids to process: strings that start with the prefix, each once. *)
Definition found_ids (pages : list page) : list (list ascii) :=
  PySeq.unique (omap (fun i => match i with
                         | Some s => if startswith (from_prefix a) s
                                     then Some s else None
                         | None => None
                         end)
               (flat_map page_ids pages)).

(** The script from its first line to its last. *)
Definition run (store0 : gmap (list ascii) vector) : status * state :=
  let st0 := {| store := store0; log := []; fetches := 0; upserts := 0;
                deletes := 0 |} in
  if negb (configured a) then (Exit 2, st0)
  else
    match listing w with
    | None => (Exit 1, st0)
    | Some pages =>
        let ids := found_ids pages in
        match ids with
        | [] => (Exit 0, st0)
        | _ :: _ =>
            match chunks ids (batch_size a) with
            | None => (Uncaught, st0)
            | Some batches =>
                match upsert_batches batches st0 with
                | (st1, Some s) => (s, st1)
                | (st1, None) =>
                    if delete_old a
                    then
                      if bool_decide (strip (confirm w) = str "DELETE")
                      then (Completed, delete_batches batches st1)
                      else (Completed, st1)
                    else (Completed, st1)
                end
            end
        end
    end.

End Run.

End UnifyRun.

(** ** SHA-1, as [hashlib.sha1] computes it *)

Module Sha1.

Definition mask32 (x : Z) : Z := x mod 2 ^ 32.

Definition rotl (n x : Z) : Z :=
  mask32 (Z.lor (Z.shiftl x n) (Z.shiftr x (32 - n))).

Definition not32 (x : Z) : Z := Z.lxor x (2 ^ 32 - 1).

(** The [n] low bytes of [x], most significant first. *)
Fixpoint be_bytes (n : nat) (x : Z) : list Z :=
  match n with
  | O => []
  | S k => be_bytes k (x / 256) ++ [x mod 256]
  end.

(** The message followed by the bit 1, zeros and its length in bits, a
    multiple of 64 bytes in all. *)
Definition pad (msg : list Z) : list Z :=
  let len := Z.of_nat (length msg) in
  msg ++ [128] ++ repeat 0 (Z.to_nat ((55 - len) mod 64)) ++ be_bytes 8 (8 * len).

(** Big-endian 32-bit words of a byte sequence. *)
Fixpoint words (fuel : nat) (bytes : list Z) : list Z :=
  match fuel, bytes with
  | S f, b0 :: b1 :: b2 :: b3 :: rest =>
      (((b0 * 256 + b1) * 256 + b2) * 256 + b3) :: words f rest
  | _, _ => []
  end.

(** The message schedule, latest word first: [n] more words. *)
Fixpoint extend (n : nat) (w : list Z) : list Z :=
  match n with
  | O => w
  | S k =>
      let x := Z.lxor (Z.lxor (nth 2 w 0) (nth 7 w 0))
                      (Z.lxor (nth 13 w 0) (nth 15 w 0)) in
      extend k (rotl 1 x :: w)
  end.

Definition schedule (block : list Z) : list Z := rev (extend 64 (rev block)).

Definition round (i : nat) (st : Z * Z * Z * Z * Z) (wi : Z)
  : Z * Z * Z * Z * Z :=
  let '(a, b, c, d, e) := st in
  let '(f, k) :=
    if (i <? 20)%nat
    then (Z.lor (Z.land b c) (Z.land (not32 b) d), 1518500249)
    else if (i <? 40)%nat
    then (Z.lxor (Z.lxor b c) d, 1859775393)
    else if (i <? 60)%nat
    then (Z.lor (Z.lor (Z.land b c) (Z.land b d)) (Z.land c d), 2400959708)
    else (Z.lxor (Z.lxor b c) d, 3395469782) in
  (mask32 (rotl 5 a + f + e + k + wi), a, rotl 30 b, c, d).

Fixpoint rounds (i : nat) (ws : list Z) (st : Z * Z * Z * Z * Z)
  : Z * Z * Z * Z * Z :=
  match ws with
  | [] => st
  | wi :: rest => rounds (S i) rest (round i st wi)
  end.

Definition compress (h : Z * Z * Z * Z * Z) (block : list Z)
  : Z * Z * Z * Z * Z :=
  let '(h0, h1, h2, h3, h4) := h in
  let '(a, b, c, d, e) := rounds 0 (schedule block) h in
  (mask32 (h0 + a), mask32 (h1 + b), mask32 (h2 + c), mask32 (h3 + d),
   mask32 (h4 + e)).

Fixpoint blocks (fuel : nat) (ws : list Z) (h : Z * Z * Z * Z * Z)
  : Z * Z * Z * Z * Z :=
  match fuel, ws with
  | S f, _ :: _ => blocks f (drop 16 ws) (compress h (take 16 ws))
  | _, _ => h
  end.

Definition digest_words (msg : list Z) : list Z :=
  let ws := words (length (pad msg)) (pad msg) in
  let '(h0, h1, h2, h3, h4) :=
    blocks (length ws) ws
           (1732584193, 4023233417, 2562383102, 271733878, 3285377520) in
  [h0; h1; h2; h3; h4].

Definition hex_char (d : Z) : ascii :=
  nth (Z.to_nat (d mod 16)) (str "0123456789abcdef") "0"%char.

(** The [n] low hexadecimal digits of [x], most significant first. *)
Fixpoint hex_digits (n : nat) (x : Z) : list ascii :=
  match n with
  | O => []
  | S k => hex_digits k (x / 16) ++ [hex_char x]
  end.

(** [s.encode('utf-8')] for code points below 256. *)
Definition utf8 (s : list ascii) : list Z :=
  flat_map (fun c => let n := Z.of_N (code c) in
                     if n <? 128 then [n] else [192 + n / 64; 128 + n mod 64])
           s.

(** [hashlib.sha1(s.encode('utf-8')).hexdigest()] *)
Definition hexdigest (s : list ascii) : list ascii :=
  flat_map (hex_digits 8) (digest_words (utf8 s)).

End Sha1.

(** ** upload_to_pinecone.py: identifiers of candidates and chunks *)

Module UploadToPinecone.

Definition short_hex (s : list ascii) : list ascii := take 6 (Sha1.hexdigest s).

(** The characters the pattern of [slugify] leaves in place: lower-case
    letters, digits, the space, the underscore and the hyphen. *)
Definition kept (c : ascii) : bool :=
  let n := code c in
  ((97 <=? n) && (n <=? 122) || (48 <=? n) && (n <=? 57)
   || (n =? 32) || (n =? 95) || (n =? 45))%N.

Definition slugify (text : list ascii) : list ascii :=
  let s := lower (strip text) in
  let s := map (fun c => if kept c then c else " "%char) s in
  match take 64 (join (str "_") (split_ws s)) with
  | [] => str "section"
  | slug => slug
  end.

(** The object handed to [deterministic_candidate_id], as far as it is
    read: the names and addresses are strings when present, [emails] is
    [Some] for a list or tuple, and [dumps] is what [json.dumps] makes of
    the object. *)
Record seed : Type := {
  meta_candidate_name : option (list ascii);
  candidate_name : option (list ascii);
  meta_email : option (list ascii);
  meta_emails : option (list (list ascii));
  full_text : option (list ascii);
  dumps : list ascii
}.

(** [x or y] on optional strings, [None] and the empty string being false. *)
Definition or_else (x : option (list ascii)) (y : list ascii) : list ascii :=
  match x with
  | Some (c :: s) => c :: s
  | _ => y
  end.

(** [uuid.uuid4().hex[:12]] for the drawn 128-bit number. *)
Definition uuid_hex12 (uuid4 : Z) : list ascii :=
  take 12 (Sha1.hex_digits 32 uuid4).

(** The return of the [email] strategy, when an address is found; the
    address is [meta.get('email')] or else the first of [meta.get('emails')]. *)
Definition email_id (obj : seed) (name : list ascii) : option (list ascii) :=
  let email :=
    or_else (meta_email obj)
            (match meta_emails obj with
             | Some (e :: _) => e
             | _ => []
             end) in
  match email with
  | [] => None
  | _ :: _ =>
      Some (str "resumes_"
            ++ slugify (match name with
                        | [] => split_head (str "@") email
                        | _ :: _ => name
                        end)
            ++ str "_" ++ short_hex email)
  end.

(** The tests of the function in their order; [uuid4] is the number drawn
    by [uuid.uuid4()] where the function calls it. *)
Definition deterministic_candidate_id (obj : seed) (method : string)
    (uuid4 : Z) : list ascii :=
  let name := or_else (meta_candidate_name obj) (or_else (candidate_name obj) []) in
  if String.eqb method "uuid" then str "resumes_" ++ uuid_hex12 uuid4
  else
    match (if String.eqb method "email" then email_id obj name else None) with
    | Some id => id
    | None =>
        if String.eqb method "name" && negb (bool_decide (name = []))
        then str "resumes_" ++ slugify name ++ str "_" ++ short_hex name
        else if String.eqb method "content_hash"
        then str "resumes_" ++ short_hex (or_else (full_text obj) (dumps obj))
        else str "resumes_" ++ uuid_hex12 uuid4
    end.

Definition build_vector_id (candidate_id : list ascii) (chunk_index : Z)
    (section : list ascii) : list ascii :=
  candidate_id ++ str "_chunk" ++ str_of_int chunk_index ++ str "_"
  ++ slugify section.

End UploadToPinecone.

(** ** match_candidates_llm_v2.py: the similarity scorer *)

Module MatchCandidatesLlmV2.

(** The arithmetic [cosine_sim] uses.  The scorer is written once over it
    and read twice: with binary64 floats, which is what the interpreter
    computes, and with exact real numbers, which is what its result
    approximates. *)
Record arith (F : Type) : Type := {
  zero : F;
  minus_one : F;
  add : F -> F -> F;
  mul : F -> F -> F;
  div : F -> F -> F;
  sqrt : F -> F;
  is_zero : F -> bool;      (* x == 0 *)
  is_negative : F -> bool   (* x < 0 *)
}.

Arguments zero {F}. Arguments minus_one {F}. Arguments add {F}.
Arguments mul {F}. Arguments div {F}. Arguments sqrt {F}.
Arguments is_zero {F}. Arguments is_negative {F}.

(** The exceptions the operations can raise: [math.sqrt] refuses a negative
    number, the division a zero divisor, and [np.dot] two arrays of unequal
    lengths. *)
Inductive exn : Type :=
  | ValueError
  | ZeroDivisionError.

Inductive outcome (F : Type) : Type :=
  | Returns (v : F)
  | Raises (e : exn).

Arguments Returns {F}. Arguments Raises {F}.

Section Scorer.
Context {F : Type} (A : arith F).

(** [sum(...)]: the items added one after the other, from 0.  (From
    version 3.12 on the interpreter adds floats with a compensated sum; the
    two agree on every sum that is exact, as are those evaluated below.) *)
Definition py_sum (l : list F) : F := fold_left (add A) l (zero A).

Definition math_sqrt (x : F) : outcome F :=
  if is_negative A x then Raises ValueError else Returns (sqrt A x).

Definition py_div (x y : F) : outcome F :=
  if is_zero A y then Raises ZeroDivisionError else Returns (div A x y).

(** [sum(x * y for x, y in zip(a, b))] *)
Definition dot (a b : list F) : F := py_sum (zip_with (mul A) a b).

(** [sum(x * x for x in a)] *)
Definition sum_squares (a : list F) : F := py_sum (map (fun x => mul A x x) a).

(** The branch taken when numpy is there: [np.linalg.norm] is the square
    root of the array's product with itself, and [np.dot] wants equal
    lengths; numpy's own operations do not raise on a float. *)
Definition cosine_sim_numpy (a b : list F) : outcome F :=
  let denom := mul A (sqrt A (sum_squares a)) (sqrt A (sum_squares b)) in
  if is_zero A denom then Returns (minus_one A)
  else if (length a =? length b)%nat then Returns (div A (dot a b) denom)
  else Raises ValueError.

(** The pure-Python branch. *)
Definition cosine_sim_python (a b : list F) : outcome F :=
  let dot := dot a b in
  match math_sqrt (sum_squares a) with
  | Raises e => Raises e
  | Returns norm_a =>
      match math_sqrt (sum_squares b) with
      | Raises e => Raises e
      | Returns norm_b =>
          if is_zero A norm_a || is_zero A norm_b then Returns (minus_one A)
          else py_div dot (mul A norm_a norm_b)
      end
  end.

(** [cosine_sim]; [np] tells whether numpy could be imported. *)
Definition cosine_sim (np : bool) (a b : option (list F)) : outcome F :=
  match a, b with
  | Some a, Some b =>
      if np then cosine_sim_numpy a b else cosine_sim_python a b
  | _, _ => Returns (minus_one A)
  end.

End Scorer.

(** Binary64 arithmetic, as the interpreter runs it. *)
Definition float_arith : arith float :=
  {| zero := 0%float; minus_one := (-1)%float;
     add := PrimFloat.add; mul := PrimFloat.mul; div := PrimFloat.div;
     sqrt := PrimFloat.sqrt;
     is_zero := fun x => PrimFloat.eqb x 0%float;
     is_negative := fun x => PrimFloat.ltb x 0%float |}.

(** Exact real arithmetic. *)
Definition real_arith : arith R :=
  {| zero := 0%R; minus_one := (-1)%R;
     add := Rplus; mul := Rmult; div := Rdiv;
     sqrt := R_sqrt.sqrt;
     is_zero := fun x => if Req_dec_T x 0%R then true else false;
     is_negative := fun x => if Rlt_dec x 0%R then true else false |}.

End MatchCandidatesLlmV2.

(** ** inspect_jd.py: the report of the evaluations *)

Module InspectJdReport.
Import InspectJdJson.

(** The errors the report loop can die of: the result is not iterable, or
    an item has no [get]. *)
Inductive error : Type :=
  | TypeError
  | AttributeError.

(** [d.get(key, default)]: the default only for a missing key. *)
Fixpoint get_or (d : list (list ascii * json)) (key : list ascii)
    (default : json) : json :=
  match d with
  | [] => default
  | (k, v) :: rest => if decide (k = key) then v else get_or rest key default
  end.

(** What one line of the report shows. *)
Record row : Type := {
  rid : json;
  name : json;
  gpt_score : json;
  bucket : json;
  reason : json
}.

(** The items [for item in parsed_list] goes through: those of a list, the
    characters of a string, the keys of a dict; [None] for a value that is
    not iterable. *)
Definition iterate (parsed_list : json) : option (list json) :=
  match parsed_list with
  | JList items => Some items
  | JStr s => Some (map (fun c => JStr [c]) s)
  | JDict d => Some (map (fun kv => JStr (fst kv)) d)
  | JNull | JBool _ | JInt _ | JFloat _ => None
  end.

(** The body of the loop for one item: only a dict has [get]. *)
Definition row_of (item : json) : option row :=
  match item with
  | JDict d =>
      Some {| rid := get_or d (str "resume_id") (JStr (str "unknown"));
              name := get_or d (str "name") (JStr (str "Unknown"));
              gpt_score := get_or d (str "gpt_score") (JStr (str "N/A"));
              bucket := get_or d (str "bucket") (JStr (str "?"));
              reason := get_or d (str "reason") (JStr []) |}
  | _ => None
  end.

(** The loop: the rows printed, and the error that stopped it, if any. *)
Fixpoint report_items (items : list json) : list row * option error :=
  match items with
  | [] => ([], None)
  | item :: rest =>
      match row_of item with
      | Some r => let '(rows, e) := report_items rest in (r :: rows, e)
      | None => ([], Some AttributeError)
      end
  end.

(** Steps 7 and 8 of [main]: the rows printed, the error raised if any,
    and whether the output file was written, which comes after the loop. *)
Definition report (parsed_list : json) : list row * option error * bool :=
  match iterate parsed_list with
  | None => ([], Some TypeError, false)
  | Some items =>
      let '(rows, e) := report_items items in
      (rows, e, match e with None => true | Some _ => false end)
  end.

End InspectJdReport.

(** ** upload_to_pinecone.py: cleaning of the metadata *)

Module UploadMeta.
Import InspectJdJson.

(** The characters of the class [[\x00-\x1f\x7f-\x9f]]. *)
Definition is_control (c : ascii) : bool :=
  let n := code c in ((n <=? 31) || (127 <=? n) && (n <=? 159))%N.

(** [re.sub(r"[\x00-\x1f\x7f-\x9f]", " ", v).strip()] *)
Definition clean_text (v : list ascii) : list ascii :=
  strip (map (fun c => if is_control c then " "%char else c) v).

(** What [sanitize_meta] makes of one value: a string is cleaned, a list
    has its strings cleaned, anything else is kept. *)
Definition sanitize_value (v : json) : json :=
  match v with
  | JStr s => JStr (clean_text s)
  | JList items =>
      JList (map (fun x => match x with
                           | JStr s => JStr (clean_text s)
                           | _ => x
                           end) items)
  | _ => v
  end.

(** [sanitize_meta(meta)], [None] standing for a metadata that is [None];
    the result has the keys of [meta] in their order. *)
Definition sanitize_meta (meta : option (list (list ascii * json)))
  : list (list ascii * json) :=
  map (fun kv => (fst kv, sanitize_value (snd kv))) (default [] meta).

End UploadMeta.

(** ** upload_to_pinecone.py: the normalisation of the chunk objects *)

Module UploadNormalize.
Import InspectJdJson InspectJdReport UploadToPinecone.

(** A chunk object of the input file, as far as the loop reads it: the
    values under [section], [chunk_text], [text] and [full_text] ([JNull]
    when the key is missing), the chunk index, an integer when there is
    one, and the metadata, a dict when there is one. *)
Record chunk : Type := {
  section : json;
  chunk_index : option Z;
  chunk_text : json;
  text : json;
  full_text : json;
  metadata : option (list (list ascii * json))
}.

(** What the run is given besides the chunks: the identifier of the
    candidate, the name of the input file, the time the clock shows when
    the object at a position is reached, and what the first object gives
    for the name and the address. *)
Record setting : Type := {
  candidate_id : list ascii;
  file_name : list ascii;
  now : Z -> list ascii;
  first_name : json;      (* first.get("candidate_name", "") *)
  first_email : json      (* (first.get("metadata") or {}).get("email", "") *)
}.

Record item : Type := {
  id : list ascii;
  item_text : list ascii;
  item_metadata : list (list ascii * json)
}.

(** [d[key] = value]: in place for a key that is there, at the end for a
    new one. *)
Fixpoint dict_set (key : list ascii) (value : json)
    (d : list (list ascii * json)) : list (list ascii * json) :=
  match d with
  | [] => [(key, value)]
  | (k, v) :: rest =>
      if decide (k = key) then (k, value) :: rest
      else (k, v) :: dict_set key value rest
  end.

Definition has_key (key : list ascii) (d : list (list ascii * json)) : bool :=
  bool_decide (key ∈ map fst d).

(** [d.setdefault(key, value)] *)
Definition setdefault (key : list ascii) (value : json)
    (d : list (list ascii * json)) : list (list ascii * json) :=
  if has_key key d then d else dict_set key value d.

(** [obj.get("chunk_index") or i] *)
Definition index_of (obj : chunk) (i : Z) : Z :=
  match chunk_index obj with
  | Some z => if z =? 0 then i else z
  | None => i
  end.

(** What the body of the loop does with one object: it dies of an
    AttributeError when the section or the text is not a string, it skips
    an object without text, or it keeps an item. *)
Inductive step : Type :=
  | Dies
  | Skipped
  | Kept (it : item).

Definition normalize_one (env : setting) (i : Z) (obj : chunk) : step :=
  let meta := default [] (metadata obj) in
  let meta := setdefault (str "candidate_name")
                (por (get meta (str "candidate_name")) (first_name env)) meta in
  let meta := setdefault (str "email")
                (por (get meta (str "email")) (first_email env)) meta in
  let section := por (section obj)
                   (por (get meta (str "section"))
                        (JStr (str "section" ++ str_of_int i))) in
  let chunk_index := index_of obj i in
  match section with
  | JStr sec =>
      let vid := build_vector_id (candidate_id env) chunk_index sec in
      match por (chunk_text obj) (por (text obj) (por (full_text obj) (JStr [])))
      with
      | JStr t =>
          match strip t with
          | [] => Skipped
          | c :: t' =>
              let meta := dict_set (str "candidate_id")
                            (JStr (candidate_id env)) meta in
              let meta := dict_set (str "section") section meta in
              let meta := dict_set (str "source_file")
                            (por (get meta (str "source_file"))
                                 (JStr (file_name env))) meta in
              let meta := dict_set (str "version")
                            (get_or meta (str "version") (JInt 1)) meta in
              let meta := dict_set (str "updated_at") (JStr (now env i)) meta in
              Kept {| id := vid; item_text := c :: t'; item_metadata := meta |}
          end
      | _ => Dies
      end
  | _ => Dies
  end.

(** The loop over [enumerate(raw, start=1)], from position [i] on: [None]
    when it dies. *)
Fixpoint normalize_from (env : setting) (i : Z) (raw : list chunk)
  : option (list item) :=
  match raw with
  | [] => Some []
  | obj :: rest =>
      match normalize_one env i obj with
      | Dies => None
      | Skipped => normalize_from env (i + 1) rest
      | Kept it =>
          match normalize_from env (i + 1) rest with
          | Some items => Some (it :: items)
          | None => None
          end
      end
  end.

Definition normalize (env : setting) (raw : list chunk) : option (list item) :=
  normalize_from env 1 raw.

End UploadNormalize.

(** ** match_candidates_llm_v2.py: the table of scores *)

Module ScoreTable.
Import MatchCandidatesLlmV2.

Section Table.
Context {F : Type} (A : arith F).
Variable np : bool.

(** An entry of [resume_map] or [jd_map]: the identifier and the vector,
    [None] when none was found. *)
Definition entry : Type := (list ascii * option (list F))%type.

(** Truth value of a vector: [None] and the empty list are false. *)
Definition has_vector (v : option (list F)) : bool :=
  match v with
  | Some (_ :: _) => true
  | _ => false
  end.

(** The inner loop of the scoring for one resume: a row per job
    description that has a vector; an exception of the scorer ends it. *)
Fixpoint score_against (rid : list ascii) (rvec : option (list F))
    (jds : list entry) : outcome (list (list ascii * list ascii * F)) :=
  match jds with
  | [] => Returns []
  | (jid, jvec) :: rest =>
      if has_vector jvec
      then match cosine_sim A np rvec jvec with
           | Raises e => Raises e
           | Returns score =>
               match score_against rid rvec rest with
               | Raises e => Raises e
               | Returns rows => Returns ((rid, jid, score) :: rows)
               end
           end
      else score_against rid rvec rest
  end.

(** The loops that fill [out_rows]. *)
Fixpoint out_rows (resumes jds : list entry)
  : outcome (list (list ascii * list ascii * F)) :=
  match resumes with
  | [] => Returns []
  | (rid, rvec) :: rest =>
      if has_vector rvec
      then match score_against rid rvec jds with
           | Raises e => Raises e
           | Returns rows =>
               match out_rows rest jds with
               | Raises e => Raises e
               | Returns more => Returns (rows ++ more)
               end
           end
      else out_rows rest jds
  end.

End Table.

End ScoreTable.

(** ** match_candidates_llm_v2.py: extraction of a vector from an entry *)

Module ExtractVector.
Import InspectJdJson.

(** The exceptions [float] and the iteration can raise. *)
Inductive failure : Type :=
  | TypeError
  | ValueError
  | OverflowError.

Inductive result (T : Type) : Type :=
  | Returns (v : T)
  | Raises (e : failure).

Arguments Returns {T}. Arguments Raises {T}.

(** An entry: a value made of dicts, lists, strings and numbers, or an
    object, of which the attributes [values] and [vector] are read
    ([None] for an attribute the object does not have). *)
Inductive entry : Type :=
  | Value (v : json)
  | Object (values vector : option json).

Section Extract.
(** [float(s)] for a string: [None] when it raises ValueError. *)
Variable float_of_str : list ascii -> option float.

(** [float(i)] for an [int]: the nearest binary64 number, ties to even,
    and OverflowError beyond the range. *)
Definition float_of_int (z : Z) : result float :=
  match SpecFloat.binary_normalize prec emax z 0 false with
  | SpecFloat.S754_infinity _ => Raises OverflowError
  | s => Returns (SF2Prim s)
  end.

(** [float(x)] *)
Definition to_float (x : json) : result float :=
  match x with
  | JFloat f => Returns f
  | JInt z => float_of_int z
  | JBool b => Returns (if b then 1%float else 0%float)
  | JStr s =>
      match float_of_str s with
      | Some f => Returns f
      | None => Raises ValueError
      end
  | JNull | JList _ | JDict _ => Raises TypeError
  end.

(** The comprehension over the items, left to right. *)
Fixpoint floats_of (items : list json) : result (list float) :=
  match items with
  | [] => Returns []
  | x :: rest =>
      match to_float x with
      | Raises e => Raises e
      | Returns f =>
          match floats_of rest with
          | Raises e => Raises e
          | Returns fs => Returns (f :: fs)
          end
      end
  end.

(** [[float(x) for x in v]]: a list gives its items, a string its
    characters, a dict its keys; anything else is not iterable. *)
Definition to_floats (v : json) : result (list float) :=
  match InspectJdReport.iterate v with
  | None => Raises TypeError
  | Some items => floats_of items
  end.

Definition key_in (key : list ascii) (d : list (list ascii * json)) : bool :=
  bool_decide (key ∈ map fst d).

(** [if isinstance(v, dict) and "values" in v: v = v["values"]] *)
Definition unwrap (v : json) : json :=
  match v with
  | JDict d => if key_in (str "values") d then get d (str "values") else v
  | _ => v
  end.

(** The loop over the keys of a dict entry. *)
Fixpoint of_dict (keys : list (list ascii)) (d : list (list ascii * json))
  : result (option (list float)) :=
  match keys with
  | [] => Returns None
  | k :: rest =>
      match get d k with
      | JNull => of_dict rest d
      | v =>
          match unwrap v with
          | JNull => Returns None
          | v' =>
              match to_floats v' with
              | Raises e => Raises e
              | Returns fs => Returns (Some fs)
              end
          end
      end
  end.

(** The loop over the attributes of an object entry. *)
Fixpoint of_object (attrs : list (option json))
  : result (option (list float)) :=
  match attrs with
  | [] => Returns None
  | None :: rest | Some JNull :: rest => of_object rest
  | Some v :: _ =>
      match to_floats (unwrap v) with
      | Raises e => Raises e
      | Returns fs => Returns (Some fs)
      end
  end.

Definition safe_extract_vector (e : entry) : result (option (list float)) :=
  match e with
  | Value JNull => Returns None
  | Value (JDict d) =>
      of_dict [str "values"; str "vector"; str "values_list";
               str "values_vector"] d
  | Value _ => Returns None
  | Object values vector => of_object [values; vector]
  end.

End Extract.

End ExtractVector.

(** ** Facts about the sequence idioms and the decimal rendering *)

Module PySeqFacts.

(** The batches are the list cut in pieces: the fuel is enough. *)
Lemma batches_aux_concat {A : Type} fuel (lst : list A) n :
  (0 < n)%nat -> (length lst <= fuel)%nat ->
  concat (PySeq.batches_aux fuel lst n) = lst.
Proof.
  intros Hn. revert lst. induction fuel as [|f IH]; intros lst Hlen.
  - destruct lst; [reflexivity | simpl in Hlen; lia].
  - destruct lst as [|x lst]; [reflexivity|].
    cbn [PySeq.batches_aux concat]. rewrite IH.
    + apply take_drop.
    + rewrite length_drop. simpl in *. lia.
Qed.

Lemma batches_concat {A : Type} (lst : list A) n :
  (0 < n)%nat -> concat (PySeq.batches lst n) = lst.
Proof. intros Hn. apply batches_aux_concat; [exact Hn | lia]. Qed.

Lemma batches_aux_sizes {A : Type} fuel (lst : list A) n :
  (0 < n)%nat ->
  Forall (fun b => (0 < length b <= n)%nat) (PySeq.batches_aux fuel lst n).
Proof.
  intros Hn. revert lst. induction fuel as [|f IH]; intros lst; [constructor|].
  destruct lst as [|x lst]; [constructor|].
  cbn [PySeq.batches_aux]. constructor; [|apply IH].
  rewrite length_take. simpl. lia.
Qed.

Lemma unique_from_spec (ids seen : list (list ascii)) :
  NoDup seen ->
  NoDup (fold_left (fun seen i => if bool_decide (i ∈ seen) then seen
                                  else seen ++ [i]) ids seen) /\
  forall i, i ∈ fold_left (fun seen i => if bool_decide (i ∈ seen) then seen
                                         else seen ++ [i]) ids seen
            <-> i ∈ seen \/ i ∈ ids.
Proof.
  revert seen. induction ids as [|x ids IH]; intros seen Hnd; simpl.
  - split; [exact Hnd|]. intros i. split; [auto|]. intros [H|H]; [exact H|].
    inversion H.
  - destruct (bool_decide (x ∈ seen)) eqn:E.
    + apply bool_decide_eq_true_1 in E. destruct (IH seen Hnd) as [H1 H2].
      split; [exact H1|]. intros i. rewrite H2, elem_of_cons.
      split; [tauto|]. intros [H|[->|H]]; auto.
    + apply bool_decide_eq_false_1 in E.
      assert (Hnd' : NoDup (seen ++ [x])).
      { apply NoDup_app. split; [exact Hnd|]. split; [|apply NoDup_singleton].
        intros y Hy Hy'. apply list_elem_of_singleton in Hy'. subst y. auto. }
      destruct (IH _ Hnd') as [H1 H2]. split; [exact H1|].
      intros i. rewrite H2, elem_of_app, list_elem_of_singleton, elem_of_cons.
      tauto.
Qed.

(** [unique] keeps every id once. *)
Lemma unique_spec (ids : list (list ascii)) :
  NoDup (PySeq.unique ids) /\ forall i, i ∈ PySeq.unique ids <-> i ∈ ids.
Proof.
  destruct (unique_from_spec ids [] (NoDup_nil_2)) as [H1 H2].
  split; [exact H1|]. intros i. unfold PySeq.unique. rewrite H2.
  split; [intros [H|H]; [inversion H | exact H] | auto].
Qed.

(** The number a sequence of decimal digits stands for. *)
Definition parse_digits (ds : list ascii) : N :=
  fold_left (fun v c => (10 * v + (code c - 48))%N) ds 0%N.

Lemma digit_char_value k : (k < 10)%N -> (code (digit_char k) - 48 = k)%N.
Proof.
  intros Hk. unfold digit_char, code. rewrite N_ascii_embedding by lia. lia.
Qed.

Lemma digits_aux_app fuel n acc :
  digits_aux fuel n acc = digits_aux fuel n [] ++ acc.
Proof.
  revert n acc. induction fuel as [|f IH]; intros n acc; simpl; [reflexivity|].
  destruct (n <? 10)%N; [reflexivity|].
  rewrite (IH _ (_ :: acc)), (IH _ [_]), <- app_assoc. reflexivity.
Qed.

Lemma parse_digits_snoc ds c :
  parse_digits (ds ++ [c]) = (10 * parse_digits ds + (code c - 48))%N.
Proof. unfold parse_digits. rewrite fold_left_app. reflexivity. Qed.

(** The digits produced stand for the number: the fuel is enough. *)
Lemma parse_digits_aux fuel n :
  (n < 10 ^ N.of_nat fuel)%N -> parse_digits (digits_aux fuel n []) = n.
Proof.
  revert n. induction fuel as [|f IH]; intros n Hn.
  - simpl in Hn. assert (n = 0%N) as -> by lia. reflexivity.
  - cbn [digits_aux].
    assert (Hd : (n mod 10 < 10)%N) by (apply N.mod_lt; lia).
    destruct (N.ltb_spec n 10).
    + unfold parse_digits. simpl fold_left.
      rewrite digit_char_value by exact Hd. rewrite N.mod_small by assumption. lia.
    + rewrite digits_aux_app, parse_digits_snoc, IH.
      * rewrite digit_char_value by exact Hd.
        pose proof (N.div_mod n 10). lia.
      * rewrite Nat2N.inj_succ, N.pow_succ_r' in Hn.
        apply N.Div0.div_lt_upper_bound. lia.
Qed.

Lemma decimal_fuel n : (n < 10 ^ N.of_nat (S (N.to_nat (N.log2 n))))%N.
Proof.
  rewrite Nat2N.inj_succ, N2Nat.id.
  destruct (N.eq_dec n 0%N) as [->|Hn]; [reflexivity|].
  destruct (N.log2_spec n) as [_ H]; [lia|].
  eapply N.lt_le_trans; [exact H|].
  apply N.pow_le_mono_l. lia.
Qed.

(** [str_of_int] writes the number, with a sign when it is negative. *)
Lemma str_of_int_nonneg i :
  0 <= i -> parse_digits (str_of_int i) = Z.to_N i.
Proof.
  intros Hi. unfold str_of_int. destruct (Z.ltb_spec i 0); [lia|].
  rewrite Z.abs_eq by exact Hi. apply parse_digits_aux, decimal_fuel.
Qed.

Lemma str_of_int_negative i :
  i < 0 -> str_of_int i = "-"%char :: str_of_int (- i).
Proof.
  intros Hi. unfold str_of_int.
  destruct (Z.ltb_spec i 0); [|lia]. destruct (Z.ltb_spec (- i) 0); [lia|].
  rewrite Z.abs_opp. reflexivity.
Qed.

(** The digests of the standard test messages. *)
Example sha1_of_the_empty_message :
  Sha1.hexdigest [] = str "da39a3ee5e6b4b0d3255bfef95601890afd80709".
Proof. vm_compute. reflexivity. Qed.

Example sha1_of_abc :
  Sha1.hexdigest (str "abc") = str "a9993e364706816aba3e25717850c26c9cd0d89d".
Proof. vm_compute. reflexivity. Qed.

Example sha1_of_two_blocks :
  Sha1.hexdigest
    (str "abcdbcdecdefdefgefghfghighijhijkijkljklmklmnlmnomnopnopq")
  = str "84983e441c3bd26ebaae4aa1f95129e5e54670f1".
Proof. vm_compute. reflexivity. Qed.

End PySeqFacts.

(** ** Facts about the string built-ins *)

Module PyStrFacts.

(** [sub] occurs in [s] at offset [k]. *)
Definition occurs_at (sub s : list ascii) (k : nat) : Prop :=
  exists pre post, s = pre ++ sub ++ post /\ length pre = k.

(** [k] is the offset of the first occurrence of [sub] in [s]. *)
Definition first_at (sub s : list ascii) (k : nat) : Prop :=
  occurs_at sub s k /\ forall j, (j < k)%nat -> ~ occurs_at sub s j.

Lemma startswith_app p t : startswith p (p ++ t) = true.
Proof.
  induction p as [|a p IH]; simpl; [reflexivity|].
  destruct (ascii_dec a a); [exact IH | congruence].
Qed.

Lemma startswith_true p s :
  startswith p s = true -> exists t, s = p ++ t.
Proof.
  revert s. induction p as [|a p IH]; intros s H.
  - exists s. reflexivity.
  - destruct s as [|b s]; simpl in H; [discriminate|].
    destruct (ascii_dec a b) as [->|]; [|discriminate].
    destruct (IH _ H) as [t ->]. exists t. reflexivity.
Qed.

Lemma startswith_iff p s :
  startswith p s = true <-> exists t, s = p ++ t.
Proof.
  split; [apply startswith_true|].
  intros [t ->]. apply startswith_app.
Qed.

Lemma startswith_drop p s :
  startswith p s = true -> s = p ++ drop (length p) s.
Proof.
  intros H. destruct (startswith_true _ _ H) as [t ->].
  rewrite drop_app_length. reflexivity.
Qed.

Lemma occurs_at_drop sub s k :
  occurs_at sub s k <->
  (k <= length s)%nat /\ startswith sub (drop k s) = true.
Proof.
  split.
  - intros (pre & post & -> & <-). split.
    + rewrite length_app. lia.
    + rewrite drop_app_length. apply startswith_app.
  - intros [Hk H]. destruct (startswith_true _ _ H) as [t Ht].
    exists (take k s), t. split.
    + rewrite <- Ht. symmetry. apply take_drop.
    + rewrite length_take. lia.
Qed.

Lemma occurs_at_cons sub c s k :
  occurs_at sub (c :: s) (S k) <-> occurs_at sub s k.
Proof.
  rewrite !occurs_at_drop. simpl. split; intros [? ?]; split; auto; lia.
Qed.

Lemma occurs_at_zero sub s :
  occurs_at sub s 0 <-> startswith sub s = true.
Proof.
  rewrite occurs_at_drop. simpl. split; [tauto|]. intros; split; [lia|auto].
Qed.

Lemma find_from_range sub s i :
  find_from sub s i = -1 \/
  (i <= find_from sub s i <= i + Z.of_nat (length s)).
Proof.
  revert i. induction s as [|c s IH]; intros i; simpl.
  - destruct (startswith sub []); [right; lia | left; reflexivity].
  - destruct (startswith sub (c :: s)); [right; lia|].
    destruct (IH (i + 1)) as [->|H]; [left; reflexivity | right; lia].
Qed.

Lemma find_range sub s :
  find sub s = -1 \/ (0 <= find sub s <= Z.of_nat (length s)).
Proof. apply (find_from_range sub s 0). Qed.

Lemma find_from_shift sub s i :
  find_from sub s i =
  if find_from sub s 0 =? -1 then -1 else i + find_from sub s 0.
Proof.
  revert i. induction s as [|c s IH]; intros i; simpl.
  - destruct (startswith sub []); simpl; [lia | reflexivity].
  - destruct (startswith sub (c :: s)); simpl; [lia|].
    rewrite (IH (i + 1)), (IH (0 + 1)).
    destruct (find_from_range sub s 0) as [->|H]; simpl; [reflexivity|].
    destruct (find_from sub s 0 =? -1) eqn:E; [lia|].
    destruct (0 + 1 + find_from sub s 0 =? -1) eqn:E'; lia.
Qed.

Lemma find_cons sub c s :
  find sub (c :: s) =
  if startswith sub (c :: s) then 0
  else if find sub s =? -1 then -1 else 1 + find sub s.
Proof.
  unfold find. simpl. destruct (startswith sub (c :: s)); [reflexivity|].
  apply find_from_shift.
Qed.

Lemma find_nil sub : find sub [] = if startswith sub [] then 0 else -1.
Proof. unfold find. simpl. destruct (startswith sub []); reflexivity. Qed.

(** [find] returns the offset of the first occurrence. *)
Lemma find_first_at sub s k :
  first_at sub s k -> find sub s = Z.of_nat k.
Proof.
  revert s. induction k as [|k IH]; intros s [Hocc Hmin].
  - apply occurs_at_zero in Hocc. destruct s; [rewrite find_nil | rewrite find_cons];
      rewrite Hocc; reflexivity.
  - destruct s as [|c s].
    + apply occurs_at_drop in Hocc. simpl in Hocc. lia.
    + rewrite find_cons.
      destruct (startswith sub (c :: s)) eqn:E.
      * exfalso. apply (Hmin 0%nat); [lia|]. apply occurs_at_zero. exact E.
      * rewrite (IH s).
        -- destruct (Z.of_nat k =? -1) eqn:E'; lia.
        -- split; [apply occurs_at_cons in Hocc; exact Hocc|].
           intros j Hj Hoc. apply (Hmin (S j)); [lia|].
           apply occurs_at_cons. exact Hoc.
Qed.

(** [find] fails exactly when there is no occurrence. *)
Lemma find_none sub s :
  find sub s = -1 <-> forall k, ~ occurs_at sub s k.
Proof.
  induction s as [|c s IH].
  - rewrite find_nil. split.
    + intros H k Hocc. apply occurs_at_drop in Hocc. destruct Hocc as [Hk Hs].
      assert (k = 0%nat) as -> by (simpl in Hk; lia).
      simpl in Hs. rewrite Hs in H. discriminate.
    + intros H. destruct (startswith sub []) eqn:E; [|reflexivity].
      exfalso. apply (H 0%nat). apply occurs_at_zero. exact E.
  - rewrite find_cons. split.
    + intros H k Hocc. destruct (startswith sub (c :: s)) eqn:E; [discriminate|].
      destruct (find_range sub s) as [Hn|Hr].
      * destruct k as [|k]; [apply occurs_at_zero in Hocc; congruence|].
        apply occurs_at_cons in Hocc. apply IH in Hocc; auto.
      * destruct (find sub s =? -1) eqn:E'; lia.
    + intros H. destruct (startswith sub (c :: s)) eqn:E.
      * exfalso. apply (H 0%nat). apply occurs_at_zero. exact E.
      * assert (find sub s = -1) as ->; [|reflexivity].
        apply IH. intros k Hocc. apply (H (S k)). apply occurs_at_cons. exact Hocc.
Qed.

(** When [find] succeeds, its result is a first occurrence. *)
Lemma find_found sub s :
  find sub s <> -1 -> first_at sub s (Z.to_nat (find sub s)).
Proof.
  induction s as [|c s IH].
  - rewrite find_nil. destruct (startswith sub []) eqn:E; [|congruence].
    intros _. split; [apply occurs_at_zero; exact E | simpl; intros; lia].
  - rewrite find_cons. destruct (startswith sub (c :: s)) eqn:E.
    + intros _. split; [apply occurs_at_zero; exact E | simpl; intros; lia].
    + destruct (find_range sub s) as [Hn|Hr].
      * rewrite Hn. simpl. congruence.
      * destruct (find sub s =? -1) eqn:E'; [lia|]. intros _.
        assert (Hne : find sub s <> -1) by lia.
        destruct (IH Hne) as [Hocc Hmin].
        replace (Z.to_nat (1 + find sub s)) with (S (Z.to_nat (find sub s))) by lia.
        split; [apply occurs_at_cons; exact Hocc|].
        intros [|j] Hj Hoc.
        -- apply occurs_at_zero in Hoc. congruence.
        -- apply occurs_at_cons in Hoc. apply (Hmin j); [lia | exact Hoc].
Qed.

Lemma contains_iff sub s :
  contains sub s = true <-> exists k, occurs_at sub s k.
Proof.
  unfold contains. split.
  - intros H. exists (Z.to_nat (find sub s)). apply find_found.
    destruct (find sub s =? -1) eqn:E; [discriminate | lia].
  - intros [k Hk]. destruct (find sub s =? -1) eqn:E; [|reflexivity].
    exfalso. apply Z.eqb_eq in E. apply find_none with (k := k) in E. auto.
Qed.

End PyStrFacts.

(** ** Facts about single-character search, slices and trimming *)

Module PyStrCharFacts.
Import PyStrFacts.
















Lemma lstrip_suffix s : exists ws, s = ws ++ lstrip s /\ Forall (fun c => isspace c = true) ws.
Proof.
  induction s as [|a s [ws [IH1 IH2]]]; simpl.
  - exists []. split; [reflexivity | constructor].
  - destruct (isspace a) eqn:E.
    + exists (a :: ws). split; [simpl; congruence | constructor; assumption].
    + exists []. split; [reflexivity | constructor].
Qed.

Lemma rstrip_prefix s : exists ws, s = rstrip s ++ ws /\ Forall (fun c => isspace c = true) ws.
Proof.
  unfold rstrip. destruct (lstrip_suffix (rev s)) as [ws [H1 H2]].
  exists (rev ws). split.
  - rewrite <- rev_app_distr, <- H1, rev_involutive. reflexivity.
  - apply Forall_rev. exact H2.
Qed.








End PyStrCharFacts.

(** ** Properties of the bucket classifier *)

Module MatchCandidatesFacts.
Import MatchCandidates.

(** C1, as the specification words it, fails on the label: the classifier
    answers with the one-letter code [H], never with the word [Hired]. *)
Lemma bucket_label_is_a_letter :
  bucket 0.80%float = "H"%string /\ bucket 0.80%float <> "Hired"%string.
Proof. split; [reflexivity | discriminate]. Qed.

(** C1 (amended): for every score and every threshold triple with
    hired >= shortlist >= rejected, the classifier returns exactly one of the
    four one-letter labels, first match wins: [H] exactly when
    score >= hired; [S] exactly when that fails and score >= shortlist;
    [R] exactly when both fail and score <= rejected; [N] exactly when
    all three tests fail.  With the thresholds 0.75, 0.55 and 0.30 the
    scores 0.80, 0.60, 0.40 and 0.10 get H, S, N and R, and the boundary
    score 0.75 gets H. *)
Theorem bucket_first_match_wins (hired shortlist rejected s : float) :
  le shortlist hired = true ->
  le rejected shortlist = true ->
  let b := bucket_with hired shortlist rejected s in
  (b = "H"%string <-> ge s hired = true) /\
  (b = "S"%string <-> ge s hired = false /\ ge s shortlist = true) /\
  (b = "R"%string <->
     ge s hired = false /\ ge s shortlist = false /\ le s rejected = true) /\
  (b = "N"%string <->
     ge s hired = false /\ ge s shortlist = false /\ le s rejected = false) /\
  (b = "H" \/ b = "S" \/ b = "R" \/ b = "N")%string /\
  bucket 0.80%float = "H"%string /\
  bucket 0.60%float = "S"%string /\
  bucket 0.40%float = "N"%string /\
  bucket 0.10%float = "R"%string /\
  bucket 0.75%float = "H"%string.
Proof.
  intros _ _ b. subst b. unfold bucket_with.
  destruct (ge s hired), (ge s shortlist), (le s rejected);
    repeat split; intros; try discriminate; try reflexivity;
    try (destruct_and?; discriminate); auto 6.
Qed.

Lemma bucket_first_match_wins_at_defaults :
  let b := bucket_with HIRED_THRESHOLD SHORTLIST_THRESHOLD REJECTED_THRESHOLD
             0.60%float in
  (b = "H"%string <-> ge 0.60%float HIRED_THRESHOLD = true) /\
  (b = "S"%string <->
     ge 0.60%float HIRED_THRESHOLD = false /\
     ge 0.60%float SHORTLIST_THRESHOLD = true) /\
  (b = "R"%string <->
     ge 0.60%float HIRED_THRESHOLD = false /\
     ge 0.60%float SHORTLIST_THRESHOLD = false /\
     le 0.60%float REJECTED_THRESHOLD = true) /\
  (b = "N"%string <->
     ge 0.60%float HIRED_THRESHOLD = false /\
     ge 0.60%float SHORTLIST_THRESHOLD = false /\
     le 0.60%float REJECTED_THRESHOLD = false) /\
  (b = "H" \/ b = "S" \/ b = "R" \/ b = "N")%string /\
  bucket 0.80%float = "H"%string /\
  bucket 0.60%float = "S"%string /\
  bucket 0.40%float = "N"%string /\
  bucket 0.10%float = "R"%string /\
  bucket 0.75%float = "H"%string.
Proof.
  apply (bucket_first_match_wins HIRED_THRESHOLD SHORTLIST_THRESHOLD
           REJECTED_THRESHOLD 0.60%float); reflexivity.
Defined.

End MatchCandidatesFacts.

(** ** Properties of the recovery of JSON text *)

Module InspectJdFacts.
Import PyStrFacts PyStrCharFacts InspectJd.




























End InspectJdFacts.

(** ** Properties of the decoding and of the shaping of the result *)

Module InspectJdJsonFacts.
Import PyStrFacts PyStrCharFacts InspectJd InspectJdJson.


(** A text of the form [open ... close]. *)
Definition block (o c : ascii) (m : list ascii) : Prop :=
  exists body, m = o :: body ++ [c].










End InspectJdJsonFacts.

(** ** Properties of the re-keying of identifiers *)

Module UnifyResumesFacts.
Import PyStrFacts UnifyResumes.

Lemma new_id_marker from_pref to_id old_id pre suf :
  old_id = pre ++ chunk_marker ++ suf ->
  (forall j, (j < length pre)%nat -> ~ occurs_at chunk_marker old_id j) ->
  new_id from_pref to_id old_id = to_id ++ chunk_marker ++ suf.
Proof.
  intros Hold Hmin.
  assert (Hfirst : first_at chunk_marker old_id (length pre)).
  { split; [|exact Hmin]. exists pre, suf. split; [exact Hold | reflexivity]. }
  apply find_first_at in Hfirst.
  unfold new_id, contains, split1. rewrite Hfirst.
  destruct (Z.of_nat (length pre) =? -1) eqn:E; [lia|].
  cbn [negb lookup list_lookup default].
  rewrite Nat2Z.id, Hold.
  rewrite drop_app_add. cbn [default].
  rewrite (drop_app_length chunk_marker). reflexivity.
Qed.

Lemma new_id_no_marker from_pref to_id old_id :
  startswith from_pref old_id = true ->
  (forall k, ~ occurs_at chunk_marker old_id k) ->
  new_id from_pref to_id old_id = to_id ++ drop (length from_pref) old_id.
Proof.
  intros Hpre Hno.
  apply find_none in Hno.
  unfold new_id, contains. rewrite Hno. simpl.
  assert (Hfirst : first_at from_pref old_id 0).
  { split; [apply occurs_at_zero; exact Hpre | intros; lia]. }
  apply find_first_at in Hfirst.
  unfold replace1. rewrite Hfirst. reflexivity.
Qed.

(** C3: for an identifier that starts with the old prefix, when the marker
    [_chunk] occurs in it the new identifier is the target identifier, the
    marker and everything after the marker's first occurrence; when the
    marker does not occur, the new identifier is the old one with the first
    occurrence of the old prefix (the one at its start) replaced by the
    target.  So [cand1_chunk2_skills] becomes [cand_final_chunk2_skills] and
    [cand1] becomes [cand_final]. *)
Theorem new_id_rewrite_rule (from_pref to_id old_id : list ascii) :
  startswith from_pref old_id = true ->
  (forall pre suf,
     old_id = pre ++ chunk_marker ++ suf ->
     (forall j, (j < length pre)%nat -> ~ occurs_at chunk_marker old_id j) ->
     new_id from_pref to_id old_id = to_id ++ chunk_marker ++ suf) /\
  ((exists k, occurs_at chunk_marker old_id k) ->
   exists pre suf,
     old_id = pre ++ chunk_marker ++ suf /\
     first_at chunk_marker old_id (length pre) /\
     new_id from_pref to_id old_id = to_id ++ chunk_marker ++ suf) /\
  ((forall k, ~ occurs_at chunk_marker old_id k) ->
   new_id from_pref to_id old_id = replace1 from_pref to_id old_id /\
   new_id from_pref to_id old_id = to_id ++ drop (length from_pref) old_id) /\
  new_id (str "cand1") (str "cand_final") (str "cand1_chunk2_skills")
  = str "cand_final_chunk2_skills" /\
  new_id (str "cand1") (str "cand_final") (str "cand1") = str "cand_final".
Proof.
  intros Hpre. split; [|split; [|split; [|split; reflexivity]]].
  - intros pre suf E Hmin. exact (new_id_marker _ _ _ pre suf E Hmin).
  - intros Hex. apply contains_iff in Hex.
    assert (Hne : find chunk_marker old_id <> -1).
    { unfold contains in Hex. destruct (Z.eqb_spec (find chunk_marker old_id) (-1));
        [discriminate | assumption]. }
    destruct (find_found _ _ Hne) as [(pre & suf & E & Hlen) Hmin].
    exists pre, suf. rewrite Hlen. repeat split.
    + exact E.
    + exists pre, suf. split; assumption.
    + exact Hmin.
    + apply (new_id_marker _ _ _ pre suf E). rewrite Hlen. exact Hmin.
  - intros Hno. split; [|apply new_id_no_marker; assumption].
    apply find_none in Hno. unfold new_id, contains. rewrite Hno. reflexivity.
Qed.

Lemma new_id_rewrite_rule_example :
  (forall pre suf,
     str "cand1_chunk2_skills" = pre ++ chunk_marker ++ suf ->
     (forall j, (j < length pre)%nat ->
                ~ occurs_at chunk_marker (str "cand1_chunk2_skills") j) ->
     new_id (str "cand1") (str "cand_final") (str "cand1_chunk2_skills")
     = str "cand_final" ++ chunk_marker ++ suf) /\
  ((exists k, occurs_at chunk_marker (str "cand1_chunk2_skills") k) ->
   exists pre suf,
     str "cand1_chunk2_skills" = pre ++ chunk_marker ++ suf /\
     first_at chunk_marker (str "cand1_chunk2_skills") (length pre) /\
     new_id (str "cand1") (str "cand_final") (str "cand1_chunk2_skills")
     = str "cand_final" ++ chunk_marker ++ suf) /\
  ((forall k, ~ occurs_at chunk_marker (str "cand1_chunk2_skills") k) ->
   new_id (str "cand1") (str "cand_final") (str "cand1_chunk2_skills")
   = replace1 (str "cand1") (str "cand_final") (str "cand1_chunk2_skills") /\
   new_id (str "cand1") (str "cand_final") (str "cand1_chunk2_skills")
   = str "cand_final" ++ drop (length (str "cand1")) (str "cand1_chunk2_skills")) /\
  new_id (str "cand1") (str "cand_final") (str "cand1_chunk2_skills")
  = str "cand_final_chunk2_skills" /\
  new_id (str "cand1") (str "cand_final") (str "cand1") = str "cand_final".
Proof.
  apply (new_id_rewrite_rule (str "cand1") (str "cand_final")
           (str "cand1_chunk2_skills")).
  reflexivity.
Defined.

End UnifyResumesFacts.

(** ** Properties of the run of the unification tool *)

Module UnifyRunFacts.
Import UnifyResumes UnifyRun.

(** A call of [ix.delete], whether it went through or not. *)
Definition is_delete (e : event) : Prop :=
  match e with
  | Deleted _ | DeleteFailed _ => True
  | Upserted _ | UpsertFailed _ => False
  end.

(** A call of [ix.upsert], whether it went through or not. *)
Definition is_upsert (e : event) : Prop :=
  match e with
  | Upserted _ | UpsertFailed _ => True
  | Deleted _ | DeleteFailed _ => False
  end.

Definition is_good_upsert (e : event) : Prop :=
  match e with
  | Upserted _ => True
  | _ => False
  end.

Lemma good_upsert_is_upsert e : is_good_upsert e -> is_upsert e.
Proof. destruct e; simpl; tauto. Qed.

Lemma store_upsert_keeps records s id :
  is_Some (s !! id) -> is_Some (store_upsert records s !! id).
Proof.
  revert s. induction records as [|[[i vals] meta] records IH]; intros s H;
    [exact H|].
  simpl. apply IH. destruct (decide (i = id)) as [->|Hne].
  - rewrite lookup_insert_eq. eauto.
  - rewrite lookup_insert_ne by exact Hne. exact H.
Qed.

(** What the loop of upserts adds to the log: successful upserts, and at
    most one failed upsert, which is then the last event and ends the run
    with status 1. *)
Lemma upsert_batches_log a w batches st st' r :
  upsert_batches a w batches st = (st', r) ->
  exists evs,
    log st' = log st ++ evs /\
    r <> Some Completed /\
    (Forall is_good_upsert evs \/
     r = Some (Exit 1) /\
     exists evs0 recs, evs = evs0 ++ [UpsertFailed recs] /\
                       Forall is_good_upsert evs0) /\
    (r = None -> Forall is_good_upsert evs) /\
    (forall id, is_Some (store st !! id) -> is_Some (store st' !! id)).
Proof.
  revert st. induction batches as [|batch rest IH]; intros st H; cbn [upsert_batches] in H.
  - injection H as <- <-. exists []. rewrite app_nil_r.
    repeat split; auto; try discriminate.
  - destruct (fetch_fails w (fetches st)).
    { injection H as <- <-. exists []. cbn [log store]. rewrite app_nil_r.
      repeat split; auto; discriminate. }
    destruct (omap (rekey a (store st)) batch) as [|rec recs] eqn:E.
    { destruct (IH _ H) as (evs & Hlog & Hr & Hev & Hnone & Hst).
      exists evs. cbn [log store] in *. repeat split; auto. }
    destruct (upsert_fails w (upserts st)).
    { injection H as <- <-. exists [UpsertFailed (rec :: recs)]. cbn [log store].
      repeat split; auto; try discriminate.
      right. split; [reflexivity|]. exists [], (rec :: recs). split; auto. }
    destruct (IH _ H) as (evs & Hlog & Hr & Hev & Hnone & Hst).
    exists (Upserted (rec :: recs) :: evs). cbn [log store] in *.
    rewrite Hlog, <- app_assoc. repeat split; auto.
    + destruct Hev as [Hev|(Hr1 & evs0 & recs0 & -> & Hev0)].
      * left. constructor; [exact I | exact Hev].
      * right. split; [exact Hr1|].
        exists (Upserted (rec :: recs) :: evs0), recs0. split; [reflexivity|].
        constructor; [exact I | exact Hev0].
    + intros Hn. constructor; [exact I | auto].
    + intros id Hid. apply Hst. apply store_upsert_keeps. exact Hid.
Qed.

Lemma delete_batches_log w batches st :
  exists evs,
    log (delete_batches w batches st) = log st ++ evs /\
    Forall is_delete evs /\
    (evs = [] -> delete_batches w batches st = st).
Proof.
  revert st. induction batches as [|b rest IH]; intros st; cbn [delete_batches].
  - exists []. rewrite app_nil_r. split; [reflexivity|]. split; [constructor | auto].
  - destruct (delete_fails w (deletes st)).
    + destruct (IH {| store := store st; log := log st ++ [DeleteFailed b];
                      fetches := fetches st; upserts := upserts st;
                      deletes := S (deletes st) |}) as (evs & Hlog & Hev & _).
      exists (DeleteFailed b :: evs). rewrite Hlog. cbn [log].
      rewrite <- app_assoc. split; [reflexivity|].
      split; [constructor; [exact I | exact Hev] | discriminate].
    + destruct (IH {| store := store_delete b (store st);
                      log := log st ++ [Deleted b];
                      fetches := fetches st; upserts := upserts st;
                      deletes := S (deletes st) |}) as (evs & Hlog & Hev & _).
      exists (Deleted b :: evs). rewrite Hlog. cbn [log].
      rewrite <- app_assoc. split; [reflexivity|].
      split; [constructor; [exact I | exact Hev] | discriminate].
Qed.

Lemma good_upsert_not_delete e : is_good_upsert e -> ~ is_delete e.
Proof. destruct e; simpl; tauto. Qed.

Lemma good_upsert_not_failed evs recs :
  Forall is_good_upsert evs -> UpsertFailed recs ∉ evs.
Proof.
  intros H Hin. rewrite Forall_forall in H. apply (H _ Hin).
Qed.

Lemma delete_not_failed evs recs :
  Forall is_delete evs -> UpsertFailed recs ∉ evs.
Proof.
  intros H Hin. rewrite Forall_forall in H. apply (H _ Hin).
Qed.

(** The shape of a run that ended with status [s] in state [st]: the
    upserts, then the deletions; deletions only after a loop of upserts
    without failure, with [--delete-old] and the trimmed answer [DELETE]. *)
Definition shape (a : args) (w : world) (store0 : gmap (list ascii) vector)
    (s : status) (st : state) : Prop :=
  exists ups dels,
    log st = ups ++ dels /\
    Forall is_upsert ups /\ Forall is_delete dels /\
    (dels <> [] ->
     Forall is_good_upsert ups /\ delete_old a = true /\
     strip (confirm w) = str "DELETE" /\ s = Completed) /\
    (~ Forall is_good_upsert ups -> s = Exit 1 /\ dels = []) /\
    (dels = [] ->
     forall id, is_Some (store0 !! id) -> is_Some (store st !! id)).

Lemma shape_start a w store0 s :
  shape a w store0 s
    {| store := store0; log := []; fetches := 0; upserts := 0; deletes := 0 |}.
Proof.
  exists [], []. split; [reflexivity|]. split; [constructor|].
  split; [constructor|]. split; [congruence|]. split.
  - intros H. exfalso. apply H. constructor.
  - intros _ id H. exact H.
Qed.

Lemma shape_no_deletion a w store0 s st evs :
  log st = evs ->
  Forall is_upsert evs ->
  (~ Forall is_good_upsert evs -> s = Exit 1) ->
  (forall id, is_Some (store0 !! id) -> is_Some (store st !! id)) ->
  shape a w store0 s st.
Proof.
  intros Hlog Hups Hbad Hst. exists evs, [].
  split; [rewrite app_nil_r; exact Hlog|]. split; [exact Hups|].
  split; [constructor|]. split; [congruence|]. split.
  - intros H. split; [exact (Hbad H) | reflexivity].
  - intros _. exact Hst.
Qed.

Lemma run_shape a w store0 :
  shape a w store0 (fst (run a w store0)) (snd (run a w store0)).
Proof.
  unfold run.
  destruct (configured a); cbn [negb fst snd]; [|apply shape_start].
  destruct (listing w) as [pages|]; [|apply shape_start].
  destruct (found_ids a pages) as [|i ids]; [apply shape_start|].
  destruct (chunks (i :: ids) (batch_size a)) as [batches|];
    [|apply shape_start].
  destruct (upsert_batches a w batches _) as [st1 r] eqn:E.
  destruct (upsert_batches_log _ _ _ _ _ _ E)
    as (evs & Hlog & Hr & Hev & Hnone & Hst).
  cbn [log store app] in Hlog, Hst.
  assert (Hups : Forall is_upsert evs).
  { destruct Hev as [Hev|(_ & evs0 & recs & -> & Hev0)].
    - eapply Forall_impl; [exact Hev | apply good_upsert_is_upsert].
    - apply Forall_app. split.
      + eapply Forall_impl; [exact Hev0 | apply good_upsert_is_upsert].
      + repeat constructor. }
  assert (Hbad : ~ Forall is_good_upsert evs -> r = Some (Exit 1)).
  { intros H. destruct Hev as [Hev|[Hr1 _]]; [tauto | exact Hr1]. }
  destruct r as [s|].
  - cbn [fst snd]. apply (shape_no_deletion _ _ _ _ _ evs); auto.
    intros H. specialize (Hbad H). congruence.
  - specialize (Hnone eq_refl).
    assert (Hkeep : forall s, shape a w store0 s st1).
    { intros s. apply (shape_no_deletion _ _ _ _ _ evs); auto. tauto. }
    destruct (delete_old a) eqn:Ed; [|apply Hkeep].
    destruct (bool_decide (strip (confirm w) = str "DELETE")) eqn:Ec;
      [|apply Hkeep].
    apply bool_decide_eq_true_1 in Ec. cbn [fst snd].
    destruct (delete_batches_log w batches st1) as (dels & Hd & Hdel & Hsame).
    exists evs, dels. rewrite Hd, Hlog.
    split; [reflexivity|]. split; [exact Hups|]. split; [exact Hdel|].
    split; [auto|]. split; [tauto|].
    intros Hnil id Hid. rewrite (Hsame Hnil). apply Hst. exact Hid.
Qed.

(** The scenario of a confirmation typed with spaces around it: one stored
    chunk of the old candidate, [--delete-old], every call succeeding. *)
Definition old_chunk : list ascii := str "cand1_chunk1_skills".

Definition spaced_args : args :=
  {| from_prefix := str "cand1"; to_id := str "cand_final";
     delete_old := true; batch_size := 100; configured := true |}.

Definition spaced_world : world :=
  {| listing := Some [PageList [ItemStr old_chunk]];
     fetch_fails := fun _ => false; upsert_fails := fun _ => false;
     delete_fails := fun _ => false; confirm := str " DELETE " |}.

Definition one_chunk_store : gmap (list ascii) vector :=
  {[ old_chunk := {| values := Some [1%float; 0%float]; metadata := None |} ]}.

Definition rekeyed_chunk : record :=
  (str "cand_final_chunk1_skills", [1%float; 0%float],
   {[ str "candidate_id" := MetaStr (str "cand_final") ]}).

(** C5, as the specification words it, fails on the token: an answer that
    is not the exact literal [DELETE] but trims to it deletes the old
    records. *)
Lemma spaced_confirmation_deletes :
  confirm spaced_world <> str "DELETE" /\
  fst (run spaced_args spaced_world one_chunk_store) = Completed /\
  log (snd (run spaced_args spaced_world one_chunk_store))
  = [Upserted [rekeyed_chunk]; Deleted [old_chunk]] /\
  (one_chunk_store !! old_chunk) <> None /\
  (store (snd (run spaced_args spaced_world one_chunk_store)) !! old_chunk)
  = None.
Proof.
  split; [discriminate|]. split; [vm_compute; reflexivity|].
  split; [vm_compute; reflexivity|]. split; [vm_compute; discriminate|].
  vm_compute. reflexivity.
Qed.

(** C5 (amended): a call of the store's delete happens only in a run that
    was started with [--delete-old], in which every upsert attempted before
    succeeded (a failed upsert is the last event of its run, which ends
    with status 1), and in which the operator's answer, once trimmed of
    surrounding white space, is [DELETE]; all deletions come after all
    upserts.  In every other run no delete is called and every record the
    store held at the start is still held at the end. *)
Theorem deletion_is_guarded (a : args) (w : world)
    (store0 : gmap (list ascii) vector) :
  let s := fst (run a w store0) in
  let st := snd (run a w store0) in
  (forall e, e ∈ log st -> is_delete e ->
     delete_old a = true /\ strip (confirm w) = str "DELETE" /\
     s = Completed /\ forall recs, UpsertFailed recs ∉ log st) /\
  (forall recs, UpsertFailed recs ∈ log st ->
     s = Exit 1 /\ forall e, e ∈ log st -> ~ is_delete e) /\
  (exists ups dels,
     log st = ups ++ dels /\ Forall is_upsert ups /\ Forall is_delete dels) /\
  (delete_old a = false \/ strip (confirm w) <> str "DELETE" ->
   (forall e, e ∈ log st -> ~ is_delete e) /\
   forall id, is_Some (store0 !! id) -> is_Some (store st !! id)).
Proof.
  intros s st. subst s st.
  destruct (run_shape a w store0)
    as (ups & dels & Hlog & Hups & Hdels & Hguard & Hbad & Hkeep).
  assert (Hup_nodel : forall e, e ∈ ups -> ~ is_delete e).
  { intros e He Hd. rewrite Forall_forall in Hups. specialize (Hups _ He).
    destruct e; simpl in *; tauto. }
  split; [|split; [|split]].
  - intros e He Hd. rewrite Hlog in He. apply elem_of_app in He as [He|He].
    + exfalso. exact (Hup_nodel _ He Hd).
    + assert (Hne : dels <> []) by (intros ->; inversion He).
      destruct (Hguard Hne) as (Hgood & Hdo & Hc & Hs).
      repeat split; auto. intros recs Hin. rewrite Hlog in Hin.
      apply elem_of_app in Hin as [Hin|Hin].
      * exact (good_upsert_not_failed _ _ Hgood Hin).
      * exact (delete_not_failed _ _ Hdels Hin).
  - intros recs Hin.
    assert (Hng : ~ Forall is_good_upsert ups).
    { intros Hgood. rewrite Hlog in Hin. apply elem_of_app in Hin as [Hin|Hin].
      - exact (good_upsert_not_failed _ _ Hgood Hin).
      - exact (delete_not_failed _ _ Hdels Hin). }
    destruct (Hbad Hng) as [Hs ->]. split; [exact Hs|].
    intros e He. rewrite Hlog, app_nil_r in He. exact (Hup_nodel _ He).
  - exists ups, dels. auto.
  - intros Hor.
    assert (Hnil : dels = []).
    { destruct dels as [|d dels]; [reflexivity|]. exfalso.
      destruct (Hguard ltac:(discriminate)) as (_ & Hdo & Hc & _).
      destruct Hor as [Hor|Hor]; congruence. }
    split; [|exact (Hkeep Hnil)].
    intros e He. rewrite Hlog, Hnil, app_nil_r in He. exact (Hup_nodel _ He).
Qed.

Definition exact_world : world :=
  {| listing := Some [PageList [ItemStr old_chunk]];
     fetch_fails := fun _ => false; upsert_fails := fun _ => false;
     delete_fails := fun _ => false; confirm := str "DELETE" |}.

Lemma deletion_is_guarded_after_confirmation :
  delete_old spaced_args = true /\
  strip (confirm exact_world) = str "DELETE" /\
  fst (run spaced_args exact_world one_chunk_store) = Completed /\
  forall recs,
    UpsertFailed recs ∉ log (snd (run spaced_args exact_world one_chunk_store)).
Proof.
  pose proof (deletion_is_guarded spaced_args exact_world one_chunk_store) as T.
  cbv zeta in T. destruct T as (H & _).
  apply (H (Deleted [old_chunk])); [|exact I].
  assert (E : log (snd (run spaced_args exact_world one_chunk_store))
              = [Upserted [rekeyed_chunk]; Deleted [old_chunk]])
    by (vm_compute; reflexivity).
  rewrite E. apply list_elem_of_further, list_elem_of_here.
Defined.

End UnifyRunFacts.

(** ** Properties of the grouping of chunk identifiers *)

Module ListCandidateVectorsFacts.
Import ListCandidateVectors.

Abbreviation group := (list ascii * list (list ascii))%type.

(** The identifiers of the fetched items whose candidate is [cid], in the
    order met. *)
Definition vids_of (cid : list ascii) (fetched : list (list ascii * vector))
  : list (list ascii) :=
  map fst (List.filter
             (fun it => bool_decide (candidate_id_of (fst it) (snd it) = cid))
             fetched).

(** [mapping.get(cid)] *)
Fixpoint get_group (cid : list ascii) (mapping : list group)
  : option (list (list ascii)) :=
  match mapping with
  | [] => None
  | (k, vids) :: rest => if decide (k = cid) then Some vids else get_group cid rest
  end.

Definition count_is (n : nat) (g : group) : bool := (length (snd g) =? n)%nat.

(** [a] may stand before [b] in a descending report. *)
Definition count_ge (a b : group) : Prop := (length (snd b) <= length (snd a))%nat.

Lemma get_setdefault_same cid vid m :
  get_group cid (setdefault_append cid vid m)
  = Some (default [] (get_group cid m) ++ [vid]).
Proof.
  induction m as [|[k vs] m IH]; simpl.
  - destruct (decide (cid = cid)); [reflexivity | congruence].
  - destruct (decide (k = cid)); simpl.
    + destruct (decide (k = cid)); [reflexivity | congruence].
    + destruct (decide (k = cid)); [congruence | exact IH].
Qed.

Lemma get_setdefault_other cid vid k m :
  k <> cid -> get_group k (setdefault_append cid vid m) = get_group k m.
Proof.
  intros Hk. induction m as [|[k' vs] m IH]; simpl.
  - destruct (decide (cid = k)); [congruence | reflexivity].
  - destruct (decide (k' = cid)); simpl.
    + subst k'. destruct (decide (cid = k)); [congruence | reflexivity].
    + destruct (decide (k' = k)); [reflexivity | exact IH].
Qed.

Lemma keys_setdefault cid vid m :
  map fst (setdefault_append cid vid m)
  = if bool_decide (cid ∈ map fst m) then map fst m else map fst m ++ [cid].
Proof.
  induction m as [|[k vs] m IH]; simpl; [reflexivity|].
  destruct (decide (k = cid)) as [->|Hk]; simpl.
  - rewrite bool_decide_eq_true_2 by (left). reflexivity.
  - rewrite IH. destruct (bool_decide (cid ∈ map fst m)) eqn:E.
    + apply bool_decide_eq_true_1 in E.
      rewrite bool_decide_eq_true_2 by (right; exact E). reflexivity.
    + apply bool_decide_eq_false_1 in E.
      rewrite bool_decide_eq_false_2; [reflexivity|].
      intros H. apply elem_of_cons in H as [H|H]; [congruence | auto].
Qed.

Lemma keys_setdefault_nodup cid vid m :
  NoDup (map fst m) -> NoDup (map fst (setdefault_append cid vid m)).
Proof.
  intros H. rewrite keys_setdefault.
  destruct (bool_decide (cid ∈ map fst m)) eqn:E; [exact H|].
  apply bool_decide_eq_false_1 in E.
  apply NoDup_app. split; [exact H|]. split.
  - intros x Hx Hx'. apply list_elem_of_singleton in Hx'. subst x. auto.
  - apply NoDup_singleton.
Qed.

Lemma group_chunks_snoc fetched vid v :
  group_chunks (fetched ++ [(vid, v)])
  = setdefault_append (candidate_id_of vid v) vid (group_chunks fetched).
Proof. unfold group_chunks. rewrite fold_left_app. reflexivity. Qed.

Lemma vids_of_snoc cid fetched vid v :
  vids_of cid (fetched ++ [(vid, v)])
  = vids_of cid fetched
    ++ (if bool_decide (candidate_id_of vid v = cid) then [vid] else []).
Proof.
  unfold vids_of. rewrite List.filter_app, map_app. simpl.
  destruct (bool_decide (candidate_id_of vid v = cid)); reflexivity.
Qed.

(** Each group holds the identifiers of its candidate, in the order met. *)
Lemma get_group_chunks cid fetched :
  get_group cid (group_chunks fetched)
  = match vids_of cid fetched with [] => None | vids => Some vids end.
Proof.
  induction fetched as [|[vid v] fetched IH] using rev_ind; [reflexivity|].
  rewrite group_chunks_snoc, vids_of_snoc.
  destruct (decide (candidate_id_of vid v = cid)) as [E|E].
  - rewrite bool_decide_eq_true_2 by exact E. rewrite E, get_setdefault_same, IH.
    destruct (vids_of cid fetched); reflexivity.
  - rewrite bool_decide_eq_false_2 by exact E.
    rewrite get_setdefault_other by congruence.
    rewrite app_nil_r. exact IH.
Qed.

Lemma group_chunks_nodup fetched : NoDup (map fst (group_chunks fetched)).
Proof.
  induction fetched as [|[vid v] fetched IH] using rev_ind.
  - apply NoDup_nil_2.
  - rewrite group_chunks_snoc. apply keys_setdefault_nodup. exact IH.
Qed.

Lemma get_group_elem_of cid vids m :
  NoDup (map fst m) -> ((cid, vids) ∈ m <-> get_group cid m = Some vids).
Proof.
  induction m as [|[k vs] m IH]; simpl; intros Hnd.
  - split; [intros H; inversion H | discriminate].
  - apply NoDup_cons in Hnd as [Hk Hnd]. rewrite elem_of_cons.
    destruct (decide (k = cid)) as [->|Hne].
    + split.
      * intros [H|H]; [congruence|]. exfalso. apply Hk.
        apply list_elem_of_fmap. exists (cid, vids). split; [reflexivity | exact H].
      * intros H. left. congruence.
    + rewrite <- (IH Hnd). split; [intros [H|H]; [congruence | exact H] | tauto].
Qed.

Lemma insert_by_count_perm x l : insert_by_count x l ≡ₚ x :: l.
Proof.
  induction l as [|y l IH]; simpl; [reflexivity|].
  destruct (length (snd x) <? length (snd y))%nat; [|reflexivity].
  rewrite IH. apply Permutation_swap.
Qed.

Lemma sorted_by_count_perm m : sorted_by_count m ≡ₚ m.
Proof.
  induction m as [|x m IH]; simpl; [reflexivity|].
  rewrite insert_by_count_perm, IH. reflexivity.
Qed.

Lemma insert_by_count_hdrel a x l :
  count_ge a x -> HdRel count_ge a l -> HdRel count_ge a (insert_by_count x l).
Proof.
  intros Hax Hal. destruct l as [|y l]; simpl; [constructor; exact Hax|].
  destruct (length (snd x) <? length (snd y))%nat; constructor;
    [inversion Hal; assumption | exact Hax].
Qed.

Lemma insert_by_count_sorted x l :
  Sorted count_ge l -> Sorted count_ge (insert_by_count x l).
Proof.
  induction 1 as [|y l Hs IH Hhd]; simpl; [repeat constructor|].
  destruct (Nat.ltb_spec (length (snd x)) (length (snd y))).
  - constructor; [exact IH|]. apply insert_by_count_hdrel; [|exact Hhd].
    unfold count_ge. lia.
  - constructor; [constructor; assumption|]. constructor. unfold count_ge. lia.
Qed.

Lemma sorted_by_count_sorted m : Sorted count_ge (sorted_by_count m).
Proof.
  induction m as [|x m IH]; simpl; [constructor|].
  apply insert_by_count_sorted. exact IH.
Qed.

(** The sort is stable: [x] only overtakes items of a larger count. *)
Lemma insert_by_count_stable n x l :
  List.filter (count_is n) (insert_by_count x l)
  = List.filter (count_is n) (x :: l).
Proof.
  induction l as [|y l IH]; [reflexivity|].
  cbn [insert_by_count].
  destruct (Nat.ltb_spec (length (snd x)) (length (snd y))); [|reflexivity].
  cbn [List.filter] in *. rewrite IH. unfold count_is.
  destruct (Nat.eqb_spec (length (snd x)) n), (Nat.eqb_spec (length (snd y)) n);
    try reflexivity. lia.
Qed.

Lemma sorted_by_count_stable n m :
  List.filter (count_is n) (sorted_by_count m) = List.filter (count_is n) m.
Proof.
  induction m as [|x m IH]; [reflexivity|].
  cbn [sorted_by_count fold_right]. rewrite insert_by_count_stable.
  cbn [List.filter]. fold (sorted_by_count m). rewrite IH. reflexivity.
Qed.

Lemma candidate_id_of_metadata vid m c :
  m !! str "candidate_id" = Some c -> c <> [] ->
  candidate_id_of vid {| metadata := Some m |} = c.
Proof.
  intros Hm Hc. unfold candidate_id_of. cbn [metadata].
  change (default ∅ (Some m)) with m. rewrite Hm.
  destruct c; [congruence | reflexivity].
Qed.

(** A store that answers a batch with the vectors it holds, in the order
    asked. *)
Definition fetch_from (store : gmap (list ascii) vector)
    (ids : list (list ascii)) : list (list ascii * vector) :=
  omap (fun i => (fun v => (i, v)) <$> store !! i) ids.

Definition of_candidate (c : string) : vector :=
  {| metadata := Some {[ str "candidate_id" := str c ]} |}.

(** The three chunks of the specification's scenario. *)
Definition scenario_ids : list (list ascii) :=
  [str "x_chunk1_summary"; str "x_chunk2_skills"; str "y_chunk1_summary"].

Definition scenario_store : gmap (list ascii) vector :=
  <[ str "x_chunk1_summary" := of_candidate "x" ]>
    (<[ str "x_chunk2_skills" := of_candidate "x" ]>
       (<[ str "y_chunk1_summary" := of_candidate "y" ]> ∅)).

(** The groups made of any sequence of fetched items. *)
Lemma groups_of_fetched (fetched : list (list ascii * vector)) :
  (forall cid vids,
     (cid, vids) ∈ sorted_by_count (group_chunks fetched)
     <-> vids <> [] /\ vids = vids_of cid fetched) /\
  NoDup (map fst (sorted_by_count (group_chunks fetched))).
Proof.
  pose proof (sorted_by_count_perm (group_chunks fetched)) as Hperm.
  split; [|rewrite Hperm; apply group_chunks_nodup].
  intros cid vids. rewrite Hperm.
  rewrite (get_group_elem_of _ _ _ (group_chunks_nodup fetched)).
  rewrite get_group_chunks.
  destruct (vids_of cid fetched) as [|v0 vs].
  - split; [discriminate | intros [H1 H2]; congruence].
  - split.
    + intros H. injection H as <-. split; [discriminate | reflexivity].
    + intros [_ ->]. reflexivity.
Qed.

(** C9: the chunks the script fetches are partitioned by candidate id (the
    metadata value, when there is one): the report has one group per
    candidate id met, holding exactly the chunks of that candidate in the
    order in which they were met; the groups stand in descending order of
    chunk count, and groups of equal count keep the order in which they
    were first met.  The chunks x_chunk1_summary, x_chunk2_skills,
    y_chunk1_summary give group x (count 2) followed by group y
    (count 1). *)
Theorem groups_by_descending_count
    (fetch : list (list ascii) -> list (list ascii * vector))
    (pages : list page) :
  let fetched := fetched_items fetch pages in
  let items := summary fetch pages in
  (forall cid vids,
     (cid, vids) ∈ items <-> vids <> [] /\ vids = vids_of cid fetched) /\
  NoDup (map fst items) /\
  Sorted count_ge items /\
  (forall n, List.filter (count_is n) items
             = List.filter (count_is n) (group_chunks fetched)) /\
  (forall vid m c,
     m !! str "candidate_id" = Some c -> c <> [] ->
     candidate_id_of vid {| metadata := Some m |} = c) /\
  summary (fetch_from scenario_store) [PageList (map ItemStr scenario_ids)]
  = [(str "x", [str "x_chunk1_summary"; str "x_chunk2_skills"]);
     (str "y", [str "y_chunk1_summary"])] /\
  map report_line
      (summary (fetch_from scenario_store) [PageList (map ItemStr scenario_ids)])
  = [(str "x", 2%nat, [str "x_chunk1_summary"; str "x_chunk2_skills"]);
     (str "y", 1%nat, [str "y_chunk1_summary"])].
Proof.
  intros fetched items. subst items. unfold summary. fold fetched.
  destruct (groups_of_fetched fetched) as [Hgroups Hnd].
  split; [exact Hgroups|]. split; [exact Hnd|].
  split; [apply sorted_by_count_sorted|].
  split; [intros n; apply sorted_by_count_stable|].
  split; [apply candidate_id_of_metadata|].
  split; vm_compute; reflexivity.
Qed.

Lemma groups_by_descending_count_metadata :
  candidate_id_of (str "x_chunk1_summary") (of_candidate "x") = str "x".
Proof.
  pose proof (groups_by_descending_count (fetch_from scenario_store)
                [PageList (map ItemStr scenario_ids)]) as T.
  cbv zeta in T. destruct T as (_ & _ & _ & _ & H & _).
  apply (H (str "x_chunk1_summary") {[ str "candidate_id" := str "x" ]} (str "x")).
  - apply lookup_singleton_eq.
  - discriminate.
Defined.

End ListCandidateVectorsFacts.

(** ** Properties of the identifiers *)

Module UploadToPineconeFacts.
Import UploadToPinecone.

(** Lower-case letters, digits and the underscore. *)
Definition id_char (c : ascii) : bool :=
  let n := code c in
  ((97 <=? n) && (n <=? 122) || (48 <=? n) && (n <=? 57) || (n =? 95))%N.

(** The same, and the hyphen. *)
Definition slug_char (c : ascii) : bool :=
  id_char c || (code c =? 45)%N.

Definition all_id (s : list ascii) : Prop := Forall (fun c => id_char c = true) s.
Definition all_slug (s : list ascii) : Prop := Forall (fun c => slug_char c = true) s.

Lemma all_id_slug s : all_id s -> all_slug s.
Proof.
  intros Hs. eapply Forall_impl; [exact Hs|].
  intros c H. unfold slug_char. cbv beta in H. rewrite H. reflexivity.
Qed.

Lemma all_slug_app s t : all_slug s -> all_slug t -> all_slug (s ++ t).
Proof. intros Hs Ht. apply Forall_app. split; assumption. Qed.

Lemma all_id_app s t : all_id s -> all_id t -> all_id (s ++ t).
Proof. intros Hs Ht. apply Forall_app. split; assumption. Qed.

Lemma all_id_take n s : all_id s -> all_id (take n s).
Proof. apply Forall_take. Qed.

Lemma all_slug_take n s : all_slug s -> all_slug (take n s).
Proof. apply Forall_take. Qed.

Lemma hex_char_id d : id_char (Sha1.hex_char d) = true.
Proof.
  unfold Sha1.hex_char.
  assert (H : (Z.to_nat (d mod 16) < 16)%nat)
    by (pose proof (Z.mod_pos_bound d 16); lia).
  revert H. generalize (Z.to_nat (d mod 16)). intros n H.
  do 16 (destruct n as [|n]; [reflexivity|]). lia.
Qed.

Lemma hex_digits_id n x : all_id (Sha1.hex_digits n x).
Proof.
  revert x. induction n as [|n IH]; intros x; simpl; [constructor|].
  apply all_id_app; [apply IH|]. repeat constructor. apply hex_char_id.
Qed.

Lemma hex_digits_length n x : length (Sha1.hex_digits n x) = n.
Proof.
  revert x. induction n as [|n IH]; intros x; simpl; [reflexivity|].
  rewrite length_app, IH. simpl. lia.
Qed.

Lemma hexdigest_id s : all_id (Sha1.hexdigest s).
Proof.
  unfold Sha1.hexdigest. generalize (Sha1.digest_words (Sha1.utf8 s)).
  intros ws. induction ws as [|w ws IH]; cbn [flat_map]; [constructor|].
  apply all_id_app; [apply (hex_digits_id 8) | exact IH].
Qed.

Lemma short_hex_id s : all_id (short_hex s).
Proof. apply all_id_take, hexdigest_id. Qed.

Lemma short_hex_length s : (length (short_hex s) <= 6)%nat.
Proof. unfold short_hex. rewrite length_take. lia. Qed.

Lemma uuid_hex12_id u : all_id (uuid_hex12 u).
Proof. apply all_id_take, hex_digits_id. Qed.

Lemma uuid_hex12_length u : length (uuid_hex12 u) = 12%nat.
Proof. unfold uuid_hex12. rewrite length_take, hex_digits_length. reflexivity. Qed.

(** A character that the pattern keeps and that is not white space. *)
Lemma kept_nonspace_slug c : kept c = true -> isspace c = false -> slug_char c = true.
Proof.
  unfold kept, isspace, slug_char, id_char. generalize (code c). intros n.
  rewrite !orb_true_iff, !andb_true_iff, !orb_false_iff, !andb_false_iff,
          !N.leb_le, !N.eqb_eq, !N.leb_gt, !N.eqb_neq.
  intros H1 H2. lia.
Qed.

Lemma split_ws_aux_parts (Q : ascii -> Prop) s cur :
  Forall (fun c => isspace c = false -> Q c) s -> Forall Q cur ->
  Forall (Forall Q) (split_ws_aux s cur).
Proof.
  revert cur. induction s as [|c t IH]; intros cur Hs Hcur; simpl.
  - destruct cur; [constructor|]. repeat constructor. apply Forall_rev. exact Hcur.
  - apply Forall_cons in Hs as [Hc Ht].
    destruct (isspace c) eqn:E.
    + destruct cur as [|c0 cur]; [apply IH; [exact Ht | constructor]|].
      constructor; [apply Forall_rev; exact Hcur|].
      apply IH; [exact Ht | constructor].
    + apply IH; [exact Ht|]. constructor; [apply Hc; reflexivity | exact Hcur].
Qed.

Lemma join_parts (Q : ascii -> Prop) sep parts :
  Forall Q sep -> Forall (Forall Q) parts -> Forall Q (join sep parts).
Proof.
  intros Hsep. induction 1 as [|p parts Hp Hparts IH]; simpl; [constructor|].
  destruct parts as [|q parts]; [exact Hp|].
  apply Forall_app. split; [exact Hp|]. apply Forall_app. split; [exact Hsep | exact IH].
Qed.

Lemma slugify_slug text : all_slug (slugify text).
Proof.
  unfold slugify.
  set (s := map _ (lower (strip text))).
  assert (Hs : Forall (fun c => isspace c = false -> slug_char c = true) s).
  { subst s. apply Forall_fmap, Forall_forall. intros c _. simpl.
    destruct (kept c) eqn:E.
    - intros Hsp. apply kept_nonspace_slug; assumption.
    - intros Hsp. discriminate. }
  assert (Hj : all_slug (take 64 (join (str "_") (split_ws s)))).
  { apply all_slug_take, join_parts; [repeat constructor|].
    apply split_ws_aux_parts; [exact Hs | constructor]. }
  destruct (take 64 (join (str "_") (split_ws s))); [|exact Hj].
  repeat constructor.
Qed.

Lemma slugify_length text : (length (slugify text) <= 64)%nat.
Proof.
  unfold slugify.
  set (r := take 64 _).
  assert (H : (length r <= 64)%nat) by (subst r; rewrite length_take; lia).
  destruct r; [simpl; lia | exact H].
Qed.

Lemma digit_char_slug n : slug_char (digit_char (n mod 10)) = true.
Proof.
  unfold digit_char.
  assert (H : (N.to_nat (n mod 10) < 10)%nat)
    by (pose proof (N.mod_lt n 10); lia).
  rewrite <- (N2Nat.id (n mod 10)).
  revert H. generalize (N.to_nat (n mod 10)). intros k H.
  do 10 (destruct k as [|k]; [reflexivity|]). lia.
Qed.

Lemma digits_aux_slug fuel n acc : all_slug acc -> all_slug (digits_aux fuel n acc).
Proof.
  revert n acc. induction fuel as [|f IH]; intros n acc H; simpl; [exact H|].
  assert (H' : all_slug (digit_char (n mod 10) :: acc))
    by (constructor; [apply digit_char_slug | exact H]).
  destruct (n <? 10)%N; [exact H' | apply IH; exact H'].
Qed.

Lemma str_of_int_slug i : all_slug (str_of_int i).
Proof.
  unfold str_of_int.
  assert (H : all_slug (digits_aux (S (N.to_nat (N.log2 (Z.to_N (Z.abs i)))))
                                   (Z.to_N (Z.abs i)) []))
    by (apply digits_aux_slug; constructor).
  destruct (i <? 0); [constructor; [reflexivity | exact H] | exact H].
Qed.

Lemma build_vector_id_slug cid idx section :
  all_slug cid -> all_slug (build_vector_id cid idx section).
Proof.
  intros H. unfold build_vector_id.
  repeat (apply all_slug_app); auto using str_of_int_slug, slugify_slug;
    repeat constructor.
Qed.

Lemma build_vector_id_length cid idx section :
  (length (build_vector_id cid idx section)
   <= length cid + 7 + length (str_of_int idx) + 64)%nat.
Proof.
  unfold build_vector_id. rewrite !length_app.
  pose proof (slugify_length section). simpl. lia.
Qed.

Lemma resumes_prefix_id : all_id (str "resumes_").
Proof. repeat constructor. Qed.

Lemma underscore_id : all_id (str "_").
Proof. repeat constructor. Qed.

Lemma named_id_slug name key :
  all_slug (str "resumes_" ++ slugify name ++ str "_" ++ short_hex key).
Proof.
  apply all_slug_app; [apply all_id_slug, resumes_prefix_id|].
  apply all_slug_app; [apply slugify_slug|].
  apply all_slug_app; [apply all_id_slug, underscore_id|].
  apply all_id_slug, short_hex_id.
Qed.

Lemma named_id_length name key :
  (length (str "resumes_" ++ slugify name ++ str "_" ++ short_hex key) <= 79)%nat.
Proof.
  rewrite !length_app. pose proof (slugify_length name).
  pose proof (short_hex_length key). simpl. lia.
Qed.

Lemma random_id_id u : all_id (str "resumes_" ++ uuid_hex12 u).
Proof. apply all_id_app; [apply resumes_prefix_id | apply uuid_hex12_id]. Qed.

Lemma random_id_length u : length (str "resumes_" ++ uuid_hex12 u) = 20%nat.
Proof. rewrite length_app, uuid_hex12_length. reflexivity. Qed.

Lemma content_id_id raw : all_id (str "resumes_" ++ short_hex raw).
Proof. apply all_id_app; [apply resumes_prefix_id | apply short_hex_id]. Qed.

Lemma content_id_length raw :
  (length (str "resumes_" ++ short_hex raw) <= 14)%nat.
Proof. rewrite length_app. pose proof (short_hex_length raw). simpl. lia. Qed.

Lemma email_id_slug obj name id :
  email_id obj name = Some id -> all_slug id /\ (length id <= 79)%nat.
Proof.
  unfold email_id. cbv zeta. destruct (or_else _ _); [discriminate|].
  intros H. injection H as <-.
  split; [apply named_id_slug | apply named_id_length].
Qed.

Lemma candidate_id_slug obj method u :
  all_slug (deterministic_candidate_id obj method u)
  /\ (length (deterministic_candidate_id obj method u) <= 79)%nat.
Proof.
  unfold deterministic_candidate_id. cbv zeta.
  assert (Hrandom : all_slug (str "resumes_" ++ uuid_hex12 u)
                    /\ (length (str "resumes_" ++ uuid_hex12 u) <= 79)%nat).
  { split; [apply all_id_slug, random_id_id | rewrite random_id_length; lia]. }
  destruct (String.eqb method "uuid"); [exact Hrandom|].
  destruct (if String.eqb method "email" then _ else None) as [id|] eqn:E.
  - destruct (String.eqb method "email"); [|discriminate].
    exact (email_id_slug _ _ _ E).
  - destruct (String.eqb method "name" && _).
    + split; [apply named_id_slug | apply named_id_length].
    + destruct (String.eqb method "content_hash"); [|exact Hrandom].
      split; [apply all_id_slug, content_id_id|].
      pose proof (content_id_length (or_else (full_text obj) (dumps obj))). lia.
Qed.

Lemma candidate_id_hashed obj method u :
  method = "uuid"%string \/ method = "content_hash"%string ->
  all_id (deterministic_candidate_id obj method u)
  /\ (length (deterministic_candidate_id obj method u) <= 20)%nat.
Proof.
  intros [->| ->]; unfold deterministic_candidate_id; cbv zeta.
  - rewrite String.eqb_refl.
    split; [apply random_id_id | rewrite random_id_length; lia].
  - change (String.eqb "content_hash" "uuid") with false.
    change (String.eqb "content_hash" "email") with false.
    change (String.eqb "content_hash" "name") with false.
    rewrite String.eqb_refl. cbn [andb].
    split; [apply content_id_id|].
    pose proof (content_id_length (or_else (full_text obj) (dumps obj))). lia.
Qed.

(** A candidate with a hyphen in the name, and one whose name has seventy
    letters. *)
Definition picard : seed :=
  {| meta_candidate_name := Some (str "Jean-Luc Picard");
     candidate_name := None; meta_email := None; meta_emails := None;
     full_text := None; dumps := [] |}.

Definition long_named : seed :=
  {| meta_candidate_name := Some (repeat "a"%char 70);
     candidate_name := None; meta_email := None; meta_emails := None;
     full_text := None; dumps := [] |}.

(** C4, as the specification words it, fails twice: the hyphen of a name is
    kept in the identifier, and a long name gives an identifier of 79
    characters, the hash being taken of the whole name. *)
Lemma hyphen_kept_and_length_79 :
  deterministic_candidate_id picard "name" 0
  = str "resumes_jean-luc_picard_efa38c" /\
  forallb id_char (deterministic_candidate_id picard "name" 0) = false /\
  length (deterministic_candidate_id long_named "name" 0) = 79%nat /\
  short_hex (repeat "a"%char 70) <> short_hex (repeat "a"%char 64).
Proof.
  split; [vm_compute; reflexivity|]. split; [vm_compute; reflexivity|].
  split; [vm_compute; reflexivity|]. vm_compute. discriminate.
Qed.

(** C4 (amended): under every strategy and for every input object the
    candidate identifier consists only of lower-case letters, digits,
    underscores and hyphens, and has at most 79 characters: the slug of the
    name is cut at 64 characters (the hash is taken of the uncut name); the
    random and content-hash identifiers have no hyphen and at most 20
    characters.  The chunk identifier built from a candidate identifier has
    the same characters and adds the marker, the decimal chunk index, an
    underscore and a slug of at most 64 characters. *)
Theorem identifier_charset_and_length (obj : seed) (method : string)
    (uuid4 : Z) :
  let cid := deterministic_candidate_id obj method uuid4 in
  all_slug cid /\
  (length cid <= 79)%nat /\
  (method = "uuid"%string \/ method = "content_hash"%string ->
   all_id cid /\ (length cid <= 20)%nat) /\
  (forall chunk_index section,
     all_slug (build_vector_id cid chunk_index section) /\
     (length (build_vector_id cid chunk_index section)
      <= length cid + 7 + length (str_of_int chunk_index) + 64)%nat) /\
  (forall text, all_slug (slugify text) /\ (length (slugify text) <= 64)%nat).
Proof.
  intros cid. subst cid.
  destruct (candidate_id_slug obj method uuid4) as [Hs Hl].
  split; [exact Hs|]. split; [exact Hl|].
  split; [apply candidate_id_hashed|]. split.
  - intros idx section. split; [apply build_vector_id_slug; exact Hs|].
    apply build_vector_id_length.
  - intros text. split; [apply slugify_slug | apply slugify_length].
Qed.

Lemma identifier_charset_and_length_random :
  all_id (deterministic_candidate_id picard "uuid" 7) /\
  (length (deterministic_candidate_id picard "uuid" 7) <= 20)%nat.
Proof.
  pose proof (identifier_charset_and_length picard "uuid" 7) as T.
  cbv zeta in T. destruct T as (_ & _ & H & _).
  apply H. left. reflexivity.
Defined.

End UploadToPineconeFacts.

(** ** Magnitudes in binary64

    What the rounding of the specification of binary64 ([SpecFloat]) keeps:
    the sign of a sum of squares and, above the smallest exponent, the
    magnitude of a square root and of a product. *)

Module Binary64Facts.
Import SpecFloat.

(** A value that is not below zero: a NaN, plus infinity, a zero or a
    positive number. *)
Definition not_negative (s : spec_float) : Prop :=
  match s with
  | S754_infinity true | S754_finite true _ _ => False
  | _ => True
  end.

Definition is_a_zero (s : spec_float) : Prop :=
  match s with
  | S754_zero _ => True
  | _ => False
  end.

(** A value whose magnitude is at least 2 to the power [k - 1]; NaN and
    the infinities count. *)
Definition at_least (k : Z) (s : spec_float) : Prop :=
  match s with
  | S754_zero _ => False
  | S754_finite _ m e => k <= Zpos (digits2_pos m) + e
  | _ => True
  end.

Lemma digits2_log2 p : Zpos (digits2_pos p) = Z.succ (Z.log2 (Zpos p)).
Proof.
  induction p as [p IH|p IH|]; cbn [digits2_pos]; [| |reflexivity].
  - rewrite Pos2Z.inj_succ, IH. f_equal.
    change (Zpos p~1) with (2 * Zpos p + 1).
    rewrite Z.log2_succ_double by lia. reflexivity.
  - rewrite Pos2Z.inj_succ, IH. f_equal.
    change (Zpos p~0) with (2 * Zpos p).
    rewrite Z.log2_double by lia. reflexivity.
Qed.

Lemma Zdigits2_log2 m : 0 < m -> Zdigits2 m = Z.succ (Z.log2 m).
Proof. destruct m; try lia. intros _. apply digits2_log2. Qed.

Lemma shr_m_of_loc m l : shr_m (shr_record_of_loc m l) = m.
Proof. destruct l as [|[]]; reflexivity. Qed.

Lemma shr_1_div2 mrs : 0 <= shr_m mrs -> shr_m (shr_1 mrs) = Z.div2 (shr_m mrs).
Proof.
  destruct mrs as [m r s]. cbn [shr_m]. intros H.
  destruct m as [|[p|p|]|p]; try reflexivity; lia.
Qed.

Lemma iter_shr_1 p mrs :
  0 <= shr_m mrs ->
  shr_m (iter_pos shr_1 p mrs) = Z.shiftr (shr_m mrs) (Zpos p).
Proof.
  revert mrs. induction p as [p IH|p IH|]; intros mrs H; cbn [iter_pos].
  - assert (H1 : 0 <= shr_m (shr_1 mrs))
      by (rewrite shr_1_div2 by exact H; apply Z.div2_nonneg; exact H).
    assert (H2 : 0 <= shr_m (iter_pos shr_1 p (shr_1 mrs)))
      by (rewrite IH by exact H1; apply Z.shiftr_nonneg; exact H1).
    rewrite IH by exact H2. rewrite IH by exact H1.
    rewrite shr_1_div2 by exact H.
    rewrite Z.div2_spec, !Z.shiftr_shiftr by lia.
    f_equal. lia.
  - assert (H2 : 0 <= shr_m (iter_pos shr_1 p mrs))
      by (rewrite IH by exact H; apply Z.shiftr_nonneg; exact H).
    rewrite IH by exact H2. rewrite IH by exact H.
    rewrite Z.shiftr_shiftr by lia. f_equal. lia.
  - rewrite shr_1_div2 by exact H. apply Z.div2_spec.
Qed.

Lemma fexp_below D : -1074 < D -> fexp prec emax D < D.
Proof. unfold fexp, emin, prec, emax. lia. Qed.

Lemma fexp_floor D : -1074 <= fexp prec emax D.
Proof. unfold fexp, emin, prec, emax. lia. Qed.

Lemma shiftr_positive m p :
  0 < m -> p <= Z.log2 m -> 0 < Z.shiftr m p.
Proof.
  intros Hm Hp.
  assert (H0 : 0 <= Z.shiftr m p) by (apply Z.shiftr_nonneg; lia).
  assert (Hne : Z.shiftr m p <> 0).
  { intros E. apply Z.shiftr_eq_0_iff in E. lia. }
  lia.
Qed.

(** The first step of a rounding keeps a positive mantissa positive and
    the magnitude where it was, above the smallest exponent. *)
Lemma shr_fexp_keeps m e l :
  0 < m -> -1074 < Zdigits2 m + e ->
  0 < shr_m (fst (shr_fexp prec emax m e l)) /\
  Zdigits2 (shr_m (fst (shr_fexp prec emax m e l)))
  + snd (shr_fexp prec emax m e l) = Zdigits2 m + e /\
  -1074 <= snd (shr_fexp prec emax m e l).
Proof.
  intros Hm HD. unfold shr_fexp, shr.
  pose proof (fexp_below _ HD) as Hlt. pose proof (fexp_floor (Zdigits2 m + e)) as Hge.
  destruct (fexp prec emax (Zdigits2 m + e) - e) as [|p|p] eqn:En; cbn [fst snd].
  - rewrite shr_m_of_loc. repeat split; try lia.
  - rewrite iter_shr_1 by (rewrite shr_m_of_loc; lia). rewrite shr_m_of_loc.
    rewrite (Zdigits2_log2 m) in * by exact Hm.
    assert (Hp : Zpos p <= Z.log2 m) by lia.
    pose proof (shiftr_positive m (Zpos p) Hm Hp) as Hpos.
    split; [exact Hpos|].
    rewrite (Zdigits2_log2 (Z.shiftr m (Zpos p))) by exact Hpos.
    rewrite Z.log2_shiftr by exact Hm. lia.
  - rewrite shr_m_of_loc. repeat split; try lia.
Qed.

Lemma round_nearest_even_bounds m l :
  m <= round_nearest_even m l <= m + 1.
Proof.
  unfold round_nearest_even. destruct l as [|[]]; try lia.
  destruct (Z.even m); lia.
Qed.

(** A rounding of a positive mantissa whose magnitude is above 2 to the
    smallest exponent does not give zero and does not lose magnitude. *)
Lemma binary_round_aux_at_least sx m e l k :
  0 < m -> -1074 < k -> k <= Zdigits2 m + e ->
  at_least k (binary_round_aux prec emax sx m e l).
Proof.
  intros Hm Hk HD. unfold binary_round_aux.
  destruct (shr_fexp_keeps m e l Hm ltac:(lia)) as (H1 & H2 & H3).
  destruct (shr_fexp prec emax m e l) as [mrs1 e1]. cbn [fst snd] in *.
  pose proof (round_nearest_even_bounds (shr_m mrs1) (loc_of_shr_record mrs1)) as Hr.
  set (m2 := round_nearest_even (shr_m mrs1) (loc_of_shr_record mrs1)) in *.
  assert (Hm2 : 0 < m2) by lia.
  assert (HD2 : k <= Zdigits2 m2 + e1).
  { rewrite (Zdigits2_log2 m2 Hm2).
    rewrite (Zdigits2_log2 (shr_m mrs1) H1), (Zdigits2_log2 m Hm) in H2.
    rewrite (Zdigits2_log2 m Hm) in HD.
    pose proof (Z.log2_le_mono (shr_m mrs1) m2 ltac:(lia)). lia. }
  destruct (shr_fexp_keeps m2 e1 loc_Exact Hm2 ltac:(lia)) as (H4 & H5 & H6).
  destruct (shr_fexp prec emax m2 e1 loc_Exact) as [mrs2 e2]. cbn [fst snd] in *.
  destruct (shr_m mrs2) as [|p|p]; try lia.
  destruct (e2 <=? emax - prec); [|exact I].
  cbn [at_least]. cbn [Zdigits2] in H5. lia.
Qed.


Lemma binary_round_aux_not_negative m e l :
  not_negative (binary_round_aux prec emax false m e l).
Proof.
  unfold binary_round_aux.
  destruct (shr_fexp prec emax m e l) as [mrs1 e1].
  destruct (shr_fexp prec emax _ e1 loc_Exact) as [mrs2 e2].
  destruct (shr_m mrs2); [exact I| |exact I].
  destruct (e2 <=? emax - prec); exact I.
Qed.

Lemma SFmul_self_not_negative x : not_negative (SFmul prec emax x x).
Proof.
  destruct x as [s|s| |s m e]; cbn [SFmul]; rewrite ?xorb_nilpotent;
    try exact I.
  apply binary_round_aux_not_negative.
Qed.

Lemma SFadd_not_negative x y :
  not_negative x -> not_negative y -> not_negative (SFadd prec emax x y).
Proof.
  destruct x as [[]|[]| |[] mx ex], y as [[]|[]| |[] my ey];
    cbn [not_negative SFadd Bool.eqb]; try tauto.
  intros _ _. cbn [cond_Zopp].
  destruct (shl_align mx ex _) as [m1 e1], (shl_align my ey _) as [m2 e2].
  cbn [fst]. change (Z.pos m1 + Z.pos m2) with (Z.pos (m1 + m2)).
  cbn [binary_normalize]. unfold binary_round.
  destruct (shl_align _ _ _) as [mz ez]. apply binary_round_aux_not_negative.
Qed.

(** The square root of a value that is a float is a zero, or is at least
    2 to the power -537. *)
Lemma sqrt_core_magnitude m e :
  -1074 <= e ->
  0 < fst (fst (SFsqrt_core_binary prec emax (Zpos m) e)) /\
  -536 <= Zdigits2 (fst (fst (SFsqrt_core_binary prec emax (Zpos m) e)))
          + snd (fst (SFsqrt_core_binary prec emax (Zpos m) e)).
Proof.
  intros He. unfold SFsqrt_core_binary.
  set (e' := Z.min _ (Z.div2 e)).
  assert (He' : 2 * e' <= e).
  { apply Z.le_trans with (2 * Z.div2 e).
    - apply Z.mul_le_mono_nonneg_l; [lia|apply Z.le_min_r].
    - rewrite Z.div2_div. apply Z.mul_div_le. lia. }
  set (s := e - 2 * e') in *.
  set (m' := match s with 0 => Zpos m | Zpos _ => Z.shiftl (Zpos m) s
             | Zneg _ => 0 end).
  assert (Em : m' = Zpos m * 2 ^ s).
  { subst m'. destruct s as [|p|p] eqn:Es; [lia| |lia].
    apply Z.shiftl_mul_pow2. lia. }
  assert (Hm' : 0 < m') by (rewrite Em; apply Z.mul_pos_pos; [lia|apply Z.pow_pos_nonneg; lia]).
  pose proof (Z.sqrtrem_spec m' ltac:(lia)) as Hs.
  destruct (Z.sqrtrem m') as [q r]. destruct Hs as [Hs Hr].
  cbn [fst snd].
  assert (Hq : 0 < q) by nia.
  split; [exact Hq|].
  assert (EL : Z.log2 m' = s + Z.log2 (Zpos m))
    by (rewrite Em; apply Z.log2_mul_pow2; lia).
  pose proof (Z.log2_nonneg (Zpos m)) as HL.
  set (h := Z.log2 m' / 2).
  assert (Hh : 0 <= h) by (subst h; apply Z.div_pos; lia).
  assert (Hpow : 2 ^ h * 2 ^ h <= m').
  { rewrite <- Z.pow_add_r by lia.
    apply Z.le_trans with (2 ^ Z.log2 m'); [|apply Z.log2_spec; exact Hm'].
    apply Z.pow_le_mono_r; [lia|]. subst h. Z.div_mod_to_equations. lia. }
  assert (Hle : 2 ^ h <= q).
  { assert (Eq : q = Z.sqrt m') by (symmetry; apply (Z.sqrt_unique' m' q r); lia).
    rewrite Eq. apply Z.sqrt_le_square; [lia|apply Z.pow_nonneg; lia|exact Hpow]. }
  apply Z.log2_le_pow2 in Hle; [|exact Hq].
  rewrite (Zdigits2_log2 q Hq).
  assert (Es : s = e - 2 * e') by reflexivity.
  assert (Eh : h = Z.log2 m' / 2) by reflexivity.
  clearbody h s. clear Hpow Em Hs. Z.div_mod_to_equations. lia.
Qed.

Lemma valid_exponent s m e :
  valid_binary prec emax (S754_finite s m e) = true -> -1074 <= e.
Proof.
  cbn [valid_binary]. unfold bounded, canonical_mantissa.
  intros H. apply andb_prop in H. destruct H as [H _].
  apply Z.eqb_eq in H. rewrite <- H. apply fexp_floor.
Qed.

Lemma SFsqrt_zero_or_large s :
  valid_binary prec emax s = true ->
  is_a_zero (SFsqrt prec emax s) \/ at_least (-536) (SFsqrt prec emax s).
Proof.
  destruct s as [sg|[]| |[] m e]; intros Hv; cbn [SFsqrt];
    try (left; exact I); try (right; exact I).
  right. pose proof (sqrt_core_magnitude m e (valid_exponent _ _ _ Hv)) as H.
  destruct (SFsqrt_core_binary prec emax (Zpos m) e) as [[q e'] l].
  cbn [fst snd] in H. destruct H as [Hq Hd].
  apply binary_round_aux_at_least; [exact Hq|lia|exact Hd].
Qed.

(** The product of two such square roots is not a zero. *)
Lemma SFmul_large x y :
  at_least (-536) x -> at_least (-536) y ->
  at_least (-1073) (SFmul prec emax x y).
Proof.
  destruct x as [sx|sx| |sx mx ex], y as [sy|sy| |sy my ey];
    cbn [at_least SFmul]; try tauto.
  intros Hx Hy. apply binary_round_aux_at_least; [lia|lia|].
  rewrite digits2_log2 in Hx, Hy.
  rewrite (Zdigits2_log2 (Zpos (mx * my))) by lia.
  rewrite Pos2Z.inj_mul.
  pose proof (Z.log2_mul_below (Zpos mx) (Zpos my) ltac:(lia) ltac:(lia)).
  lia.
Qed.

Lemma at_least_not_zero k s :
  at_least k s -> SFeqb s (S754_zero false) = false.
Proof. destruct s as [sg|[]| |[] m e]; cbn; tauto. Qed.

Lemma is_a_zero_eqb s : is_a_zero s -> SFeqb s (S754_zero false) = true.
Proof. destruct s; cbn; tauto. Qed.

Lemma not_negative_ltb s :
  not_negative s -> SFltb s (S754_zero false) = false.
Proof. destruct s as [sg|[]| |[] m e]; cbn; tauto. Qed.

End Binary64Facts.

(** ** Properties of the similarity scorer *)

Module ScorerFacts.
Import MatchCandidatesLlmV2.

Section AnyArithmetic.
Context {F : Type} (A : arith F).



Hypothesis mul_comm : forall x y, mul A x y = mul A y x.






End AnyArithmetic.



(** *** The pure-Python branch in binary64 *)

Lemma float_sum_not_negative (l : list float) (acc : float) :
  Binary64Facts.not_negative (Prim2SF acc) ->
  Forall (fun x => Binary64Facts.not_negative (Prim2SF x)) l ->
  Binary64Facts.not_negative (Prim2SF (fold_left PrimFloat.add l acc)).
Proof.
  revert acc. induction l as [|x l IH]; intros acc Ha Hl; cbn [fold_left];
    [exact Ha|].
  inversion Hl as [|? ? Hx Hl']; subst. apply IH; [|exact Hl'].
  rewrite FloatAxioms.add_spec.
  apply Binary64Facts.SFadd_not_negative; assumption.
Qed.

(** A sum of squares is never below zero, so [math.sqrt] accepts it. *)
Lemma float_sum_squares_not_negative (a : list float) :
  Binary64Facts.not_negative (Prim2SF (sum_squares float_arith a)).
Proof.
  unfold sum_squares, py_sum. cbn [add zero mul float_arith].
  apply float_sum_not_negative; [vm_compute; exact I|].
  induction a as [|x a IH]; cbn [map]; constructor; [|exact IH].
  rewrite FloatAxioms.mul_spec. apply Binary64Facts.SFmul_self_not_negative.
Qed.

Lemma float_math_sqrt_returns (a : list float) :
  math_sqrt float_arith (sum_squares float_arith a)
  = Returns (PrimFloat.sqrt (sum_squares float_arith a)).
Proof.
  unfold math_sqrt. cbn [is_negative sqrt float_arith].
  rewrite FloatAxioms.ltb_spec.
  change (Prim2SF 0%float) with (SpecFloat.S754_zero false).
  rewrite Binary64Facts.not_negative_ltb
    by apply float_sum_squares_not_negative.
  reflexivity.
Qed.

Lemma float_norm_large (x : float) :
  PrimFloat.eqb (PrimFloat.sqrt x) 0%float = false ->
  Binary64Facts.at_least (-536) (Prim2SF (PrimFloat.sqrt x)).
Proof.
  rewrite FloatAxioms.eqb_spec, FloatAxioms.sqrt_spec.
  change (Prim2SF 0%float) with (SpecFloat.S754_zero false). intros H.
  destruct (Binary64Facts.SFsqrt_zero_or_large (Prim2SF x)
              (FloatAxioms.Prim2SF_valid x)) as [Hz|Hl]; [|exact Hl].
  apply Binary64Facts.is_a_zero_eqb in Hz.
  unfold SF64sqrt in H. congruence.
Qed.

(** The product of two norms that are not zero is not zero: the division
    has a divisor. *)
Lemma float_denominator_not_zero (x y : float) :
  PrimFloat.eqb (PrimFloat.sqrt x) 0%float = false ->
  PrimFloat.eqb (PrimFloat.sqrt y) 0%float = false ->
  PrimFloat.eqb (PrimFloat.mul (PrimFloat.sqrt x) (PrimFloat.sqrt y)) 0%float
  = false.
Proof.
  intros Hx Hy. rewrite FloatAxioms.eqb_spec, FloatAxioms.mul_spec.
  change (Prim2SF 0%float) with (SpecFloat.S754_zero false).
  apply (Binary64Facts.at_least_not_zero (-1073)).
  apply Binary64Facts.SFmul_large; apply float_norm_large; assumption.
Qed.

(** In binary64 the pure-Python branch returns for every two vectors: the
    sentinel when a computed norm is zero, the quotient otherwise. *)
Lemma cosine_sim_python_float (a b : list float) :
  cosine_sim_python float_arith a b
  = Returns
      (let norm_a := PrimFloat.sqrt (sum_squares float_arith a) in
       let norm_b := PrimFloat.sqrt (sum_squares float_arith b) in
       if PrimFloat.eqb norm_a 0%float || PrimFloat.eqb norm_b 0%float
       then (-1)%float
       else PrimFloat.div (dot float_arith a b) (PrimFloat.mul norm_a norm_b)).
Proof.
  unfold cosine_sim_python. rewrite !float_math_sqrt_returns.
  cbn [is_zero minus_one mul float_arith]. cbv zeta.
  destruct (PrimFloat.eqb (PrimFloat.sqrt (sum_squares float_arith a)) 0%float)
    eqn:Ea; [reflexivity|].
  destruct (PrimFloat.eqb (PrimFloat.sqrt (sum_squares float_arith b)) 0%float)
    eqn:Eb; [reflexivity|].
  cbn [orb]. unfold py_div. cbn [is_zero div float_arith].
  rewrite (float_denominator_not_zero _ _ Ea Eb). reflexivity.
Qed.

(** *** The scorer over the real numbers *)

Section ExactArithmetic.
Local Open Scope R_scope.

Definition Rsum (l : list R) : R := fold_right Rplus 0 l.

Definition squares (a : list R) : list R := map (fun x => x * x) a.

(** [l] followed by zeros up to length [n]. *)
Definition pad (l : list R) (n : nat) : list R := l ++ repeat 0 (n - length l)%nat.


Lemma fold_left_Rplus l acc : fold_left Rplus l acc = acc + Rsum l.
Proof.
  revert acc. induction l as [|x l IH]; intros acc; simpl; [lra|].
  rewrite IH. lra.
Qed.

Lemma py_sum_real l : py_sum real_arith l = Rsum l.
Proof. unfold py_sum. simpl. rewrite fold_left_Rplus. lra. Qed.

Lemma dot_real a b : dot real_arith a b = Rsum (zip_with Rmult a b).
Proof. apply py_sum_real. Qed.

Lemma sum_squares_real a : sum_squares real_arith a = Rsum (squares a).
Proof. apply py_sum_real. Qed.

Lemma real_is_zero x : is_zero real_arith x = true <-> x = 0.
Proof. simpl. destruct (Req_dec_T x 0); split; intros; congruence. Qed.

Lemma real_is_zero_false x : is_zero real_arith x = false <-> x <> 0.
Proof. simpl. destruct (Req_dec_T x 0); split; intros; congruence. Qed.

Lemma Rsum_squares_nonneg a : 0 <= Rsum (squares a).
Proof.
  induction a as [|x a IH]; simpl; [lra|]. pose proof (Rle_0_sqr x) as H.
  unfold Rsqr in H. lra.
Qed.


Lemma math_sqrt_real a :
  math_sqrt real_arith (sum_squares real_arith a)
  = Returns (R_sqrt.sqrt (Rsum (squares a))).
Proof.
  unfold math_sqrt. rewrite sum_squares_real. simpl.
  destruct (Rlt_dec (Rsum (squares a)) 0) as [H|H]; [|reflexivity].
  pose proof (Rsum_squares_nonneg a). lra.
Qed.

Lemma sqrt_zero_iff x : 0 <= x -> (R_sqrt.sqrt x = 0 <-> x = 0).
Proof.
  intros Hx. split; [apply sqrt_eq_0; exact Hx | intros ->; apply sqrt_0].
Qed.

(** One step of the inequality of Cauchy and Schwarz. *)
Lemma cross_term_bound x y s A B :
  0 <= A -> 0 <= B -> s * s <= A * B ->
  2 * (x * y * s) <= x * x * B + A * (y * y).
Proof.
  intros HA HB Hs.
  assert (Hxx : 0 <= x * x) by (pose proof (Rle_0_sqr x) as H; exact H).
  assert (Hyy : 0 <= y * y) by (pose proof (Rle_0_sqr y) as H; exact H).
  assert (Hu : 0 <= x * x * B + A * (y * y)).
  { pose proof (Rmult_le_pos _ _ Hxx HB). pose proof (Rmult_le_pos _ _ HA Hyy).
    lra. }
  set (u := x * x * B + A * (y * y)) in *.
  set (v := 2 * (x * y * s)).
  assert (Hsq : v * v <= u * u).
  { assert (H1 : 0 <= (x * x * B - A * (y * y)) * (x * x * B - A * (y * y)))
      by apply Rle_0_sqr.
    assert (H2 : 0 <= (x * x) * (y * y) * (A * B - s * s)).
    { apply Rmult_le_pos; [apply Rmult_le_pos; assumption | lra]. }
    assert (0 <= u * u - v * v); [|lra].
    replace (u * u - v * v)
      with ((x * x * B - A * (y * y)) * (x * x * B - A * (y * y))
            + 4 * ((x * x) * (y * y) * (A * B - s * s)))
      by (subst u v; ring).
    lra. }
  destruct (Rle_lt_dec v u) as [H|H]; [exact H|].
  exfalso. assert (u * u < v * v); [|lra].
  apply Rmult_le_0_lt_compat; lra.
Qed.

Lemma cauchy_schwarz a b :
  Rsum (zip_with Rmult a b) * Rsum (zip_with Rmult a b)
  <= Rsum (squares a) * Rsum (squares b).
Proof.
  revert b. induction a as [|x a IH]; intros b.
  - simpl. lra.
  - destruct b as [|y b].
    + simpl. pose proof (Rsum_squares_nonneg (x :: a)). simpl in *. lra.
    + simpl. specialize (IH b).
      pose proof (Rsum_squares_nonneg a) as HA.
      pose proof (Rsum_squares_nonneg b) as HB.
      pose proof (cross_term_bound x y _ _ _ HA HB IH).
      nra.
Qed.

(** What the pure-Python branch returns over the reals. *)
Lemma cosine_sim_python_real a b :
  cosine_sim_python real_arith a b
  = Returns (if is_zero real_arith (R_sqrt.sqrt (Rsum (squares a)))
                || is_zero real_arith (R_sqrt.sqrt (Rsum (squares b)))
             then -1
             else Rsum (zip_with Rmult a b)
                  / (R_sqrt.sqrt (Rsum (squares a)) * R_sqrt.sqrt (Rsum (squares b)))).
Proof.
  unfold cosine_sim_python. rewrite !math_sqrt_real, dot_real.
  destruct (is_zero real_arith (R_sqrt.sqrt (Rsum (squares a)))) eqn:Ea;
    [reflexivity|].
  destruct (is_zero real_arith (R_sqrt.sqrt (Rsum (squares b)))) eqn:Eb;
    [reflexivity|].
  cbn [orb]. unfold py_div.
  apply real_is_zero_false in Ea. apply real_is_zero_false in Eb.
  assert (Hp : is_zero real_arith
                 (mul real_arith (R_sqrt.sqrt (Rsum (squares a)))
                                 (R_sqrt.sqrt (Rsum (squares b)))) = false).
  { apply real_is_zero_false. simpl. nra. }
  rewrite Hp. reflexivity.
Qed.

(** On vectors of equal length the branch with numpy returns the same. *)
Lemma cosine_sim_numpy_real a b :
  length a = length b ->
  cosine_sim_numpy real_arith a b = cosine_sim_python real_arith a b.
Proof.
  intros Hlen. rewrite cosine_sim_python_real. unfold cosine_sim_numpy.
  rewrite !sum_squares_real, dot_real, Hlen, Nat.eqb_refl.
  destruct (is_zero real_arith (R_sqrt.sqrt (Rsum (squares a)))) eqn:Ea.
  { apply real_is_zero in Ea. cbn [orb].
    replace (is_zero real_arith _) with true; [reflexivity|].
    symmetry. apply real_is_zero. simpl. rewrite Ea. lra. }
  destruct (is_zero real_arith (R_sqrt.sqrt (Rsum (squares b)))) eqn:Eb.
  { apply real_is_zero in Eb. cbn [orb].
    replace (is_zero real_arith _) with true; [reflexivity|].
    symmetry. apply real_is_zero. simpl. rewrite Eb. lra. }
  apply real_is_zero_false in Ea. apply real_is_zero_false in Eb. cbn [orb].
  replace (is_zero real_arith _) with false; [reflexivity|].
  symmetry. apply real_is_zero_false. simpl. nra.
Qed.

(** The quotient lies between -1 and 1. *)
Lemma square_le_bound d p : 0 < p -> d * d <= p * p -> - p <= d <= p.
Proof.
  intros Hp Hd. split.
  - destruct (Rle_lt_dec (- p) d) as [H|H]; [exact H|]. exfalso.
    assert (p * p < (- d) * (- d)) by (apply Rmult_le_0_lt_compat; lra).
    lra.
  - destruct (Rle_lt_dec d p) as [H|H]; [exact H|]. exfalso.
    assert (p * p < d * d) by (apply Rmult_le_0_lt_compat; lra).
    lra.
Qed.

Lemma quotient_bound d A B :
  0 < A -> 0 < B -> d * d <= A * B ->
  -1 <= d / (R_sqrt.sqrt A * R_sqrt.sqrt B) <= 1.
Proof.
  intros HA HB Hd.
  pose proof (sqrt_lt_R0 A HA) as Ha. pose proof (sqrt_lt_R0 B HB) as Hb.
  assert (Hp : 0 < R_sqrt.sqrt A * R_sqrt.sqrt B)
    by (apply Rmult_lt_0_compat; assumption).
  assert (Hpp : (R_sqrt.sqrt A * R_sqrt.sqrt B) * (R_sqrt.sqrt A * R_sqrt.sqrt B)
                = A * B).
  { replace ((R_sqrt.sqrt A * R_sqrt.sqrt B) * (R_sqrt.sqrt A * R_sqrt.sqrt B))
      with ((R_sqrt.sqrt A * R_sqrt.sqrt A) * (R_sqrt.sqrt B * R_sqrt.sqrt B))
      by ring.
    rewrite !sqrt_sqrt by lra. reflexivity. }
  set (p := R_sqrt.sqrt A * R_sqrt.sqrt B) in *.
  destruct (square_le_bound d p Hp) as [Hlo Hhi]; [rewrite Hpp; exact Hd|].
  split.
  - apply (Rmult_le_reg_r p); [exact Hp|].
    replace (d / p * p) with d by (field; lra). lra.
  - apply (Rmult_le_reg_r p); [exact Hp|].
    replace (d / p * p) with d by (field; lra). lra.
Qed.

Lemma cosine_sim_python_bound a b :
  exists v, cosine_sim_python real_arith a b = Returns v /\ -1 <= v <= 1.
Proof.
  rewrite cosine_sim_python_real. eexists. split; [reflexivity|].
  destruct (is_zero real_arith (R_sqrt.sqrt (Rsum (squares a)))) eqn:Ea;
    [simpl; lra|].
  destruct (is_zero real_arith (R_sqrt.sqrt (Rsum (squares b)))) eqn:Eb;
    [simpl; lra|].
  cbn [orb].
  apply real_is_zero_false in Ea. apply real_is_zero_false in Eb.
  pose proof (Rsum_squares_nonneg a) as HA.
  pose proof (Rsum_squares_nonneg b) as HB.
  assert (0 < Rsum (squares a)).
  { destruct (Req_dec (Rsum (squares a)) 0) as [E|E]; [|lra].
    rewrite E, sqrt_0 in Ea. congruence. }
  assert (0 < Rsum (squares b)).
  { destruct (Req_dec (Rsum (squares b)) 0) as [E|E]; [|lra].
    rewrite E, sqrt_0 in Eb. congruence. }
  apply quotient_bound; auto. apply cauchy_schwarz.
Qed.



Lemma Rsum_app l k : Rsum (l ++ k) = Rsum l + Rsum k.
Proof. induction l as [|x l IH]; simpl; [lra | rewrite IH; lra]. Qed.

Lemma Rsum_zeros n : Rsum (repeat 0 n) = 0.
Proof. induction n as [|n IH]; simpl; [reflexivity | rewrite IH; lra]. Qed.

Lemma squares_pad l n : Rsum (squares (pad l n)) = Rsum (squares l).
Proof.
  unfold pad, squares. rewrite map_app, Rsum_app.
  replace (map (fun x => x * x) (repeat 0 (n - length l)))
    with (repeat 0 (n - length l)%nat).
  - rewrite Rsum_zeros. lra.
  - induction (n - length l)%nat as [|k IH]; simpl; [reflexivity|].
    rewrite <- IH. f_equal. lra.
Qed.

Lemma dot_zeros_r a n : Rsum (zip_with Rmult a (repeat 0 n)) = 0.
Proof.
  revert n. induction a as [|x a IH]; intros [|n]; simpl; try reflexivity.
  rewrite IH. lra.
Qed.

Lemma dot_zeros_l b n : Rsum (zip_with Rmult (repeat 0 n) b) = 0.
Proof.
  revert n. induction b as [|y b IH]; intros [|n]; simpl; try reflexivity.
  rewrite IH. lra.
Qed.

Lemma dot_app_zeros a b m n :
  Rsum (zip_with Rmult (a ++ repeat 0 m) (b ++ repeat 0 n))
  = Rsum (zip_with Rmult a b).
Proof.
  revert b. induction a as [|x a IH]; intros b.
  - simpl. apply dot_zeros_l.
  - destruct b as [|y b].
    + simpl. apply (dot_zeros_r (x :: a ++ repeat 0 m)).
    + simpl. rewrite IH. reflexivity.
Qed.

(** Padding either vector with zeros does not change the result. *)
Lemma cosine_sim_python_pad a b m n :
  cosine_sim_python real_arith (pad a m) (pad b n)
  = cosine_sim_python real_arith a b.
Proof.
  rewrite !cosine_sim_python_real, !squares_pad.
  unfold pad. rewrite dot_app_zeros. reflexivity.
Qed.

Lemma pad_length l n : (length l <= n)%nat -> length (pad l n) = n.
Proof.
  intros H. unfold pad. rewrite length_app, repeat_length. lia.
Qed.

Lemma zip_with_common_prefix (a b : list R) :
  zip_with Rmult a b
  = zip_with Rmult (take (Nat.min (length a) (length b)) a)
                   (take (Nat.min (length a) (length b)) b).
Proof.
  revert b. induction a as [|x a IH]; intros [|y b]; simpl; try reflexivity.
  rewrite <- IH. reflexivity.
Qed.

Lemma real_norm_zero a :
  is_zero real_arith (R_sqrt.sqrt (Rsum (squares a))) = true
  <-> Rsum (squares a) = 0.
Proof.
  rewrite real_is_zero. apply sqrt_zero_iff, Rsum_squares_nonneg.
Qed.

(** The value of the pure-Python branch over the reals, case by case. *)
Lemma cosine_sim_python_value a b :
  exists v,
    cosine_sim_python real_arith a b = Returns v /\
    -1 <= v <= 1 /\
    (Rsum (squares a) = 0 \/ Rsum (squares b) = 0 -> v = -1) /\
    (Rsum (squares a) <> 0 -> Rsum (squares b) <> 0 ->
     v = Rsum (zip_with Rmult a b)
         / (R_sqrt.sqrt (Rsum (squares a)) * R_sqrt.sqrt (Rsum (squares b)))).
Proof.
  destruct (cosine_sim_python_bound a b) as (v & Hv & Hb).
  exists v. split; [exact Hv|]. split; [exact Hb|].
  rewrite cosine_sim_python_real in Hv.
  assert (Hveq : v = if is_zero real_arith (R_sqrt.sqrt (Rsum (squares a)))
                        || is_zero real_arith (R_sqrt.sqrt (Rsum (squares b)))
                     then -1
                     else Rsum (zip_with Rmult a b)
                          / (R_sqrt.sqrt (Rsum (squares a))
                             * R_sqrt.sqrt (Rsum (squares b))))
    by congruence.
  clear Hv. split.
  - intros [H|H]; apply real_norm_zero in H; rewrite H in Hveq;
      [exact Hveq | rewrite orb_true_r in Hveq; exact Hveq].
  - intros Ha Hb'.
    destruct (is_zero real_arith (R_sqrt.sqrt (Rsum (squares a)))) eqn:Ea;
      [apply real_norm_zero in Ea; contradiction|].
    destruct (is_zero real_arith (R_sqrt.sqrt (Rsum (squares b)))) eqn:Eb;
      [apply real_norm_zero in Eb; contradiction|].
    exact Hveq.
Qed.

End ExactArithmetic.







(** C10, as it is worded, fails on its last clause: the value returned for
    two vectors of unequal lengths is the cosine similarity of the pair in
    which the shorter vector is padded with zeros. *)
Lemma unequal_lengths_as_zero_padded :
  cosine_sim float_arith false (Some [1; 2]%float) (Some [3]%float)
  = Returns 0.44721359549995793%float /\
  cosine_sim float_arith false (Some [1; 2]%float) (Some [3; 0]%float)
  = Returns 0.44721359549995793%float /\
  cosine_sim float_arith true (Some [1; 2]%float) (Some [3; 0]%float)
  = Returns 0.44721359549995793%float.
Proof. repeat split; vm_compute; reflexivity. Qed.

(** C10 (amended): the pure-Python branch returns a value for every two
    vectors, of equal lengths or not, and never raises, in binary64 as over
    the real numbers: the sentinel -1 when a computed norm is zero, else
    the dot product over the pairs of the common prefix divided by the
    product of the norms of the whole vectors.  Over the real numbers this
    value is the cosine similarity of the two vectors once the shorter is
    padded with zeros; it is not that of the two vectors cut to the common
    prefix. *)
Theorem cosine_sim_python_total :
  (forall a b : list float,
     exists v : float,
       cosine_sim float_arith false (Some a) (Some b) = Returns v /\
       v = (let norm_a := PrimFloat.sqrt (sum_squares float_arith a) in
            let norm_b := PrimFloat.sqrt (sum_squares float_arith b) in
            if PrimFloat.eqb norm_a 0%float || PrimFloat.eqb norm_b 0%float
            then (-1)%float
            else PrimFloat.div (dot float_arith a b)
                               (PrimFloat.mul norm_a norm_b))) /\
  (forall a b : list R,
     exists v : R,
       cosine_sim real_arith false (Some a) (Some b) = Returns v /\
       (Rsum (squares a) = 0%R \/ Rsum (squares b) = 0%R -> v = (-1)%R) /\
       (Rsum (squares a) <> 0%R -> Rsum (squares b) <> 0%R ->
        v = (Rsum (zip_with Rmult (take (Nat.min (length a) (length b)) a)
                                 (take (Nat.min (length a) (length b)) b))
             / (R_sqrt.sqrt (Rsum (squares a))
                * R_sqrt.sqrt (Rsum (squares b))))%R) /\
       (forall n, (length a <= n)%nat -> (length b <= n)%nat ->
          cosine_sim real_arith false (Some (pad a n)) (Some (pad b n))
          = Returns v /\
          cosine_sim real_arith true (Some (pad a n)) (Some (pad b n))
          = Returns v)) /\
  cosine_sim float_arith false (Some [3; 4]%float) (Some [1]%float)
  = Returns 0.6%float /\
  cosine_sim float_arith false (Some [3]%float) (Some [1]%float)
  = Returns 1%float.
Proof.
  split; [intros a b; eexists; split;
          [cbn [cosine_sim]; apply cosine_sim_python_float|reflexivity]|].
  split; [|split; vm_compute; reflexivity].
  intros a b.
  destruct (cosine_sim_python_value a b) as (v & Hv & Hb & Hz & Hq).
  exists v. cbn [cosine_sim]. split; [exact Hv|]. split; [exact Hz|].
  split; [rewrite <- zip_with_common_prefix; exact Hq|].
  intros n Ha Hb'.
  assert (Hp : cosine_sim_python real_arith (pad a n) (pad b n) = Returns v)
    by (rewrite cosine_sim_python_pad; exact Hv).
  split; [exact Hp|].
  rewrite cosine_sim_numpy_real; [exact Hp|].
  rewrite !pad_length by assumption. reflexivity.
Qed.

Lemma cosine_sim_python_total_zero_vector :
  exists v : R,
    cosine_sim real_arith false (Some [0; 0]%R) (Some [1]%R) = Returns v /\
    v = (-1)%R.
Proof.
  destruct cosine_sim_python_total as (_ & H & _).
  destruct (H [0; 0]%R [1]%R) as (v & Hv & Hz & _).
  exists v. split; [exact Hv|].
  apply Hz. left. simpl. lra.
Defined.

End ScorerFacts.

(** ** Batches: [chunks] of unify_resumes.py and [chunked] of
    list_candidate_vectors.py *)

Module BatchFacts.
Import PySeqFacts.

Lemma batches_aux_nth {A : Type} fuel (lst : list A) n k b :
  (0 < n)%nat -> (length lst <= fuel)%nat ->
  PySeq.batches_aux fuel lst n !! k = Some b ->
  b = take n (drop (k * n) lst).
Proof.
  intros Hn. revert lst k.
  induction fuel as [|f IH]; intros lst k Hf H; [destruct lst; discriminate|].
  destruct lst as [|x l]; [discriminate|]. cbn [PySeq.batches_aux] in H.
  destruct k as [|k].
  - injection H as <-. reflexivity.
  - cbn [lookup list_lookup] in H. apply IH in H.
    + rewrite H, drop_drop. f_equal; f_equal; lia.
    + rewrite length_drop. cbn [length] in *. lia.
Qed.

Lemma batches_aux_count {A : Type} fuel (lst : list A) n :
  (0 < n)%nat -> (length lst <= fuel)%nat ->
  length (PySeq.batches_aux fuel lst n) = ((length lst + n - 1) / n)%nat.
Proof.
  intros Hn. revert lst.
  induction fuel as [|f IH]; intros lst Hf.
  - destruct lst; [|cbn [length] in Hf; lia]. cbn.
    symmetry. apply Nat.div_small. lia.
  - destruct lst as [|x l].
    + cbn. symmetry. apply Nat.div_small. lia.
    + cbn [PySeq.batches_aux length]. rewrite IH
        by (rewrite length_drop; cbn [length] in *; lia).
      rewrite length_drop. cbn [length].
      destruct (le_lt_dec n (S (length l))) as [Hge|Hlt].
      * replace (S (length l) + n - 1)%nat
          with ((S (length l) - n + n - 1) + 1 * n)%nat by lia.
        rewrite Nat.div_add by lia. lia.
      * replace (S (length l) - n)%nat with 0%nat by lia.
        rewrite (Nat.div_small (0 + n - 1) n) by lia.
        apply (Nat.div_unique _ _ 1%nat (length l)); lia.
Qed.

(** X1: for a positive batch size the generator cuts the list into
    consecutive slices: the slice of rank [k] is [lst[k*n : k*n + n]], none
    is empty, none is longer than [n], there are [ceil(len(lst) / n)] of
    them and put end to end they give the list back. *)
Theorem chunks_cut_the_list {A : Type} (lst : list A) (n : Z) :
  0 < n ->
  exists bs,
    UnifyRun.chunks lst n = Some bs /\
    ListCandidateVectors.chunked lst (Z.to_nat n) = bs /\
    concat bs = lst /\
    length bs = ((length lst + Z.to_nat n - 1) / Z.to_nat n)%nat /\
    (forall k b, bs !! k = Some b ->
       b = take (Z.to_nat n) (drop (k * Z.to_nat n) lst)) /\
    Forall (fun b => (0 < length b <= Z.to_nat n)%nat) bs.
Proof.
  intros Hn. exists (PySeq.batches lst (Z.to_nat n)).
  unfold UnifyRun.chunks, ListCandidateVectors.chunked.
  destruct (Z.eqb_spec n 0) as [->|_]; [lia|].
  destruct (Z.ltb_spec n 0) as [Hneg|_]; [lia|].
  assert (Hpos : (0 < Z.to_nat n)%nat) by lia.
  split; [reflexivity|]. split; [reflexivity|].
  split; [apply batches_concat; exact Hpos|].
  split; [apply batches_aux_count; [exact Hpos|reflexivity]|].
  split; [|apply batches_aux_sizes; exact Hpos].
  intros k b H. eapply batches_aux_nth; [exact Hpos| |exact H]. reflexivity.
Qed.

Lemma chunks_cut_the_list_of_five :
  exists bs,
    UnifyRun.chunks [1; 2; 3; 4; 5] 2 = Some bs /\
    bs = [[1; 2]; [3; 4]; [5]].
Proof.
  destruct (chunks_cut_the_list [1; 2; 3; 4; 5] 2 ltac:(lia))
    as (bs & H & _).
  exists bs. split; [exact H|].
  vm_compute in H. injection H as <-. reflexivity.
Defined.

End BatchFacts.

(** ** unify_resumes.py: the identifiers processed *)

Module UnifyIdsFacts.
Import UnifyResumes UnifyRun PySeqFacts.

(** X2: the identifiers the tool processes are the listed values that are
    strings and start with the prefix, each once, whatever the number of
    times and of pages it was listed on. *)
Theorem found_ids_are_the_prefixed_ids (a : args) (pages : list page) :
  NoDup (found_ids a pages) /\
  (forall i, i ∈ found_ids a pages <->
     Some i ∈ flat_map page_ids pages /\
     startswith (from_prefix a) i = true) /\
  (forall i, i ∈ found_ids a pages ->
     exists rest, i = from_prefix a ++ rest).
Proof.
  unfold found_ids.
  destruct (unique_spec
    (omap (fun i => match i with
                    | Some s => if startswith (from_prefix a) s
                                then Some s else None
                    | None => None
                    end) (flat_map page_ids pages))) as [Hnd Hin].
  assert (Hiff : forall i,
    i ∈ omap (fun i => match i with
                       | Some s => if startswith (from_prefix a) s
                                   then Some s else None
                       | None => None
                       end) (flat_map page_ids pages) <->
    Some i ∈ flat_map page_ids pages /\ startswith (from_prefix a) i = true).
  { intros i. rewrite list_elem_of_omap. split.
    - intros ([s|] & Hs & Hi); [|discriminate].
      destruct (startswith (from_prefix a) s) eqn:E; [|discriminate].
      injection Hi as ->. split; [exact Hs | exact E].
    - intros [Hs E]. exists (Some i). split; [exact Hs|]. rewrite E. reflexivity. }
  split; [exact Hnd|]. split.
  - intros i. rewrite Hin. apply Hiff.
  - intros i Hi. apply Hin, Hiff in Hi. destruct Hi as [_ E].
    apply PyStrFacts.startswith_true in E. exact E.
Qed.

End UnifyIdsFacts.

(** ** unify_resumes.py: what a run leaves in the store *)

Module UnifyStoreFacts.
Import UnifyResumes UnifyRun PySeqFacts.

Definition record_id (r : record) : list ascii := fst (fst r).

(** The state in which a run starts. *)
Definition start (store0 : gmap (list ascii) vector) : state :=
  {| store := store0; log := []; fetches := 0; upserts := 0; deletes := 0 |}.

(** The same command line without [--delete-old]. *)
Definition keep_old (a : args) : args :=
  {| from_prefix := from_prefix a; to_id := to_id a; delete_old := false;
     batch_size := batch_size a; configured := configured a |}.

(** The record written for the vector [v] held under [old]. *)
Definition rekeyed (a : args) (v : vector) : vector :=
  {| values := values v;
     metadata := Some (<[ str "candidate_id" := MetaStr (to_id a) ]>
                         (default ∅ (metadata v))) |}.

Lemma store_upsert_app r1 r2 s :
  store_upsert (r1 ++ r2) s = store_upsert r2 (store_upsert r1 s).
Proof. unfold store_upsert. apply fold_left_app. Qed.

Lemma store_upsert_other recs s id :
  id ∉ map record_id recs -> store_upsert recs s !! id = s !! id.
Proof.
  revert s. induction recs as [|[[i vals] meta] recs IH]; intros s H;
    [reflexivity|].
  cbn [map record_id fst] in H. apply not_elem_of_cons in H as [Hne H].
  cbn [store_upsert fold_left]. fold (store_upsert recs).
  rewrite (IH _ H). apply lookup_insert_ne. congruence.
Qed.

Lemma store_upsert_lookup recs s id vals meta :
  NoDup (map record_id recs) -> (id, vals, meta) ∈ recs ->
  store_upsert recs s !! id
  = Some {| values := Some vals; metadata := Some meta |}.
Proof.
  revert s. induction recs as [|[[i vs] m] recs IH]; intros s Hnd Hin.
  - apply elem_of_nil in Hin. destruct Hin.
  - cbn [map record_id fst] in Hnd. apply NoDup_cons in Hnd as [Hni Hnd].
    cbn [store_upsert fold_left]. fold (store_upsert recs).
    apply elem_of_cons in Hin as [Heq|Hin].
    + injection Heq as <- <- <-.
      rewrite store_upsert_other by exact Hni. apply lookup_insert_eq.
    + apply IH; assumption.
Qed.

Lemma store_delete_lookup ids s id :
  store_delete ids s !! id = if bool_decide (id ∈ ids) then None else s !! id.
Proof.
  revert s. induction ids as [|i ids IH]; intros s; [reflexivity|].
  cbn [store_delete fold_left]. fold (store_delete ids). rewrite IH.
  destruct (decide (id ∈ ids)) as [Hin|Hni].
  - rewrite !bool_decide_eq_true_2; [reflexivity| |exact Hin].
    apply elem_of_cons. right. exact Hin.
  - rewrite (bool_decide_eq_false_2 (id ∈ ids)) by exact Hni.
    destruct (decide (id = i)) as [->|Hne].
    + rewrite bool_decide_eq_true_2 by (apply elem_of_cons; left; reflexivity).
      apply lookup_delete_eq.
    + rewrite bool_decide_eq_false_2
        by (intros H; apply elem_of_cons in H as [H|H]; tauto).
      apply lookup_delete_ne. congruence.
Qed.

Lemma rekey_some a s old r :
  rekey a s old = Some r ->
  exists v vals,
    s !! old = Some v /\ values v = Some vals /\ vals <> [] /\
    r = (new_id (from_prefix a) (to_id a) old, vals,
         <[ str "candidate_id" := MetaStr (to_id a) ]>
           (default ∅ (metadata v))).
Proof.
  unfold rekey. destruct (s !! old) as [v|]; [|discriminate].
  destruct (values v) as [[|x vals]|] eqn:E; try discriminate.
  intros H. injection H as <-. exists v, (x :: vals).
  repeat split; [exact E | discriminate].
Qed.

Lemma rekey_values a s old v vals :
  s !! old = Some v -> values v = Some vals -> vals <> [] ->
  rekey a s old
  = Some (new_id (from_prefix a) (to_id a) old, vals,
          <[ str "candidate_id" := MetaStr (to_id a) ]>
            (default ∅ (metadata v))).
Proof.
  intros Hs Hv Hne. unfold rekey. rewrite Hs, Hv.
  destruct vals; [congruence | reflexivity].
Qed.

Lemma rekey_agree a s s' old :
  s !! old = s' !! old -> rekey a s old = rekey a s' old.
Proof. intros H. unfold rekey. rewrite H. reflexivity. Qed.

Lemma omap_rekey_agree a s s' (batch : list (list ascii)) :
  (forall old, old ∈ batch -> s !! old = s' !! old) ->
  omap (rekey a s) batch = omap (rekey a s') batch.
Proof.
  induction batch as [|old batch IH]; intros H; [reflexivity|].
  cbn [omap list_omap].
  rewrite (rekey_agree a s s' old)
    by (apply H, elem_of_cons; left; reflexivity).
  rewrite IH; [reflexivity|].
  intros o Ho. apply H, elem_of_cons. right. exact Ho.
Qed.

Lemma omap_rekey_ids a s (batch : list (list ascii)) id :
  id ∈ map record_id (omap (rekey a s) batch) ->
  exists old, old ∈ batch /\ id = new_id (from_prefix a) (to_id a) old.
Proof.
  intros H. apply list_elem_of_fmap in H as (r & -> & Hr).
  apply list_elem_of_omap in Hr as (old & Hold & Hr).
  apply rekey_some in Hr as (v & vals & _ & _ & _ & ->).
  exists old. split; [exact Hold | reflexivity].
Qed.

(** Without a failing call the loop of upserts amounts to one upsert of
    the records made from the store as it was found, as long as no new
    identifier is one of the identifiers still to be processed. *)
Lemma upsert_batches_closed a w batches st s0 :
  (forall k, fetch_fails w k = false) ->
  (forall k, upsert_fails w k = false) ->
  (forall old, old ∈ concat batches ->
     new_id (from_prefix a) (to_id a) old ∉ concat batches) ->
  (forall old, old ∈ concat batches -> store st !! old = s0 !! old) ->
  exists st',
    upsert_batches a w batches st = (st', None) /\
    store st' = store_upsert (omap (rekey a s0) (concat batches)) (store st) /\
    deletes st' = deletes st.
Proof.
  intros Hf Hu. revert st.
  induction batches as [|batch rest IH]; intros st Hsep Hag.
  - exists st. repeat split.
  - cbn [upsert_batches]. rewrite Hf.
    cbn [concat] in Hsep, Hag.
    assert (Eb : omap (rekey a (store st)) batch = omap (rekey a s0) batch).
    { apply omap_rekey_agree. intros old Ho. apply Hag, elem_of_app.
      left. exact Ho. }
    assert (Hrest : forall old, old ∈ concat rest ->
              new_id (from_prefix a) (to_id a) old ∉ concat rest).
    { intros old Ho Hn.
      apply (Hsep old); apply elem_of_app; right; assumption. }
    cbn [concat]. rewrite omap_app, store_upsert_app, Eb.
    destruct (omap (rekey a s0) batch) as [|rec recs] eqn:E.
    + destruct (IH {| store := store st; log := log st;
                      fetches := S (fetches st); upserts := upserts st;
                      deletes := deletes st |} Hrest) as (st' & H1 & H2 & H3).
      { intros old Ho. cbn [store]. apply Hag, elem_of_app. right. exact Ho. }
      exists st'. cbn [store deletes] in *. repeat split; assumption.
    + rewrite Hu.
      destruct (IH {| store := store_upsert (rec :: recs) (store st);
                      log := log st ++ [Upserted (rec :: recs)];
                      fetches := S (fetches st); upserts := S (upserts st);
                      deletes := deletes st |} Hrest) as (st' & H1 & H2 & H3).
      { intros old Ho. cbn [store].
        rewrite store_upsert_other.
        - apply Hag, elem_of_app. right. exact Ho.
        - intros Hin. rewrite <- E in Hin.
          apply omap_rekey_ids in Hin as (o & Hob & ->).
          apply (Hsep o); apply elem_of_app; [left|right]; assumption. }
      exists st'. cbn [store deletes] in *. repeat split; assumption.
Qed.

Lemma upsert_batches_keep_old a w batches st :
  upsert_batches (keep_old a) w batches st = upsert_batches a w batches st.
Proof.
  revert st. induction batches as [|batch rest IH]; intros st; [reflexivity|].
  cbn [upsert_batches]. change (rekey (keep_old a)) with (rekey a).
  destruct (fetch_fails w (fetches st)); [reflexivity|].
  destruct (omap (rekey a (store st)) batch); [apply IH|].
  destruct (upsert_fails w (upserts st)); [reflexivity | apply IH].
Qed.

(** The loop of deletions, call by call: a batch whose call succeeds is
    removed, the others stay. *)
Lemma delete_batches_absent w batches st id :
  store st !! id = None -> store (delete_batches w batches st) !! id = None.
Proof.
  revert st. induction batches as [|b rest IH]; intros st H; [exact H|].
  cbn [delete_batches]. destruct (delete_fails w (deletes st)); apply IH;
    cbn [store]; [exact H|].
  rewrite store_delete_lookup. destruct (bool_decide (id ∈ b)); auto.
Qed.

Lemma delete_batches_removed w batches st k b id :
  batches !! k = Some b -> id ∈ b ->
  delete_fails w (deletes st + k) = false ->
  store (delete_batches w batches st) !! id = None.
Proof.
  revert st k. induction batches as [|b0 rest IH]; intros st k Hk Hin Hf;
    [rewrite lookup_nil in Hk; discriminate|].
  cbn [delete_batches]. destruct k as [|k].
  - injection Hk as ->. rewrite Nat.add_0_r in Hf. rewrite Hf.
    apply delete_batches_absent. cbn [store]. rewrite store_delete_lookup.
    rewrite bool_decide_eq_true_2 by exact Hin. reflexivity.
  - cbn [lookup list_lookup] in Hk.
    destruct (delete_fails w (deletes st)); apply (IH _ k Hk Hin);
      cbn [deletes]; rewrite <- Hf; f_equal; lia.
Qed.

Lemma delete_batches_kept w batches st id :
  (forall k b, batches !! k = Some b -> id ∈ b ->
     delete_fails w (deletes st + k) = true) ->
  store (delete_batches w batches st) !! id = store st !! id.
Proof.
  revert st. induction batches as [|b0 rest IH]; intros st H; [reflexivity|].
  cbn [delete_batches].
  assert (Hrest : forall s', deletes s' = S (deletes st) ->
            forall k b, rest !! k = Some b -> id ∈ b ->
              delete_fails w (deletes s' + k) = true).
  { intros s' Hs' k b Hk Hin. rewrite <- (H (S k) b Hk Hin). f_equal. lia. }
  destruct (delete_fails w (deletes st)) eqn:Ef.
  - rewrite IH by (apply Hrest; reflexivity). reflexivity.
  - rewrite IH by (apply Hrest; reflexivity). cbn [store].
    rewrite store_delete_lookup.
    destruct (decide (id ∈ b0)) as [Hin|Hni].
    + specialize (H 0%nat b0 eq_refl Hin). rewrite Nat.add_0_r in H. congruence.
    + rewrite bool_decide_eq_false_2 by exact Hni. reflexivity.
Qed.

Lemma upsert_batches_deletes a w batches st st' r :
  upsert_batches a w batches st = (st', r) -> deletes st' = deletes st.
Proof.
  revert st. induction batches as [|batch rest IH]; intros st H;
    cbn [upsert_batches] in H.
  - injection H as <- _. reflexivity.
  - destruct (fetch_fails w (fetches st)); [injection H as <- _; reflexivity|].
    destruct (omap (rekey a (store st)) batch);
      [apply IH in H; exact H|].
    destruct (upsert_fails w (upserts st));
      [injection H as <- _; reflexivity|].
    apply IH in H. exact H.
Qed.

(** A record written by the tool: the re-keyed copy of a vector that has
    values, with the canonical candidate in its metadata. *)
Definition written (a : args) (ids : list (list ascii)) (id : list ascii)
    (v : vector) : Prop :=
  exists old vals meta,
    old ∈ ids /\ id = new_id (from_prefix a) (to_id a) old /\ vals <> [] /\
    v = {| values := Some vals; metadata := Some meta |} /\
    meta !! str "candidate_id" = Some (MetaStr (to_id a)).

Lemma store_upsert_inv recs s id v :
  store_upsert recs s !! id = Some v ->
  s !! id = Some v \/
  exists vals meta,
    (id, vals, meta) ∈ recs /\
    v = {| values := Some vals; metadata := Some meta |}.
Proof.
  revert s. induction recs as [|[[i vals] meta] recs IH]; intros s H;
    [left; exact H|].
  cbn [store_upsert fold_left] in H. fold (store_upsert recs) in H.
  apply IH in H as [H|(vs & m & Hin & ->)].
  - destruct (decide (i = id)) as [->|Hne].
    + rewrite lookup_insert_eq in H. injection H as <-.
      right. exists vals, meta. split; [apply elem_of_cons; left|]; reflexivity.
    + rewrite lookup_insert_ne in H by exact Hne. left. exact H.
  - right. exists vs, m. split; [apply elem_of_cons; right; exact Hin|reflexivity].
Qed.

Lemma omap_rekey_written a s (batch : list (list ascii)) id vals meta :
  (id, vals, meta) ∈ omap (rekey a s) batch ->
  written a batch id {| values := Some vals; metadata := Some meta |}.
Proof.
  intros H. apply list_elem_of_omap in H as (old & Hold & Hr).
  apply rekey_some in Hr as (v & vs & _ & _ & Hne & Heq).
  injection Heq as -> -> ->.
  exists old, vs, (<[ str "candidate_id" := MetaStr (to_id a) ]>
                     (default ∅ (metadata v))).
  repeat split; try assumption. apply lookup_insert_eq.
Qed.

Lemma written_more a ids ids' id v :
  (forall old, old ∈ ids -> old ∈ ids') ->
  written a ids id v -> written a ids' id v.
Proof.
  intros Hsub (old & vals & meta & Hin & H). exists old, vals, meta.
  split; [apply Hsub, Hin | exact H].
Qed.

Lemma upsert_batches_inv a w batches st st' r id v :
  upsert_batches a w batches st = (st', r) ->
  store st' !! id = Some v ->
  store st !! id = Some v \/ written a (concat batches) id v.
Proof.
  revert st. induction batches as [|batch rest IH]; intros st H Hl;
    cbn [upsert_batches] in H.
  - injection H as <- _. left. exact Hl.
  - destruct (fetch_fails w (fetches st));
      [injection H as <- _; left; exact Hl|].
    destruct (omap (rekey a (store st)) batch) as [|rec recs] eqn:E.
    { destruct (IH _ H Hl) as [H1|H1]; [left; exact H1|].
      right. revert H1. apply written_more. intros old Ho.
      cbn [concat]. apply elem_of_app. right. exact Ho. }
    destruct (upsert_fails w (upserts st));
      [injection H as <- _; left; exact Hl|].
    destruct (IH _ H Hl) as [H1|H1].
    + cbn [store] in H1. apply store_upsert_inv in H1 as [H1|(vs & m & Hin & ->)];
        [left; exact H1|].
      right. rewrite <- E in Hin. apply omap_rekey_written in Hin.
      revert Hin. apply written_more. intros old Ho.
      cbn [concat]. apply elem_of_app. left. exact Ho.
    + right. revert H1. apply written_more. intros old Ho.
      cbn [concat]. apply elem_of_app. right. exact Ho.
Qed.

Lemma delete_batches_inv w batches st id v :
  store (delete_batches w batches st) !! id = Some v ->
  store st !! id = Some v.
Proof.
  intros H. destruct (store st !! id) as [v0|] eqn:E.
  - revert st H E. induction batches as [|b rest IH]; intros st H E;
      [cbn [delete_batches] in H; congruence|].
    cbn [delete_batches] in H.
    destruct (delete_fails w (deletes st)).
    + apply (IH _ H). exact E.
    + destruct (store_delete b (store st) !! id) as [v1|] eqn:E1.
      * assert (v1 = v0).
        { rewrite store_delete_lookup in E1.
          destruct (bool_decide (id ∈ b)); congruence. }
        subst v1. apply (IH _ H). exact E1.
      * rewrite delete_batches_absent in H by exact E1. discriminate.
  - rewrite delete_batches_absent in H by exact E. discriminate.
Qed.

Lemma chunks_concat (ids : list (list ascii)) n batches :
  chunks ids n = Some batches ->
  forall old, old ∈ concat batches -> old ∈ ids.
Proof.
  unfold chunks. destruct (Z.eqb_spec n 0) as [|Hn0]; [discriminate|].
  destruct (Z.ltb_spec n 0) as [Hlt|Hge]; intros H; injection H as <-.
  - intros old Ho. apply elem_of_nil in Ho. destruct Ho.
  - rewrite batches_concat by lia. auto.
Qed.

Lemma found_ids_nodup a pages : NoDup (found_ids a pages).
Proof. unfold found_ids. apply unique_spec. Qed.

(** A scenario: two chunks of one candidate, fetched one per batch. *)
Definition chunk_a : list ascii := str "cand1_chunk1_skills".
Definition chunk_b : list ascii := str "cand1_chunk2_summary".

Definition two_chunk_store : gmap (list ascii) vector :=
  <[ chunk_a := {| values := Some [1%float; 0%float]; metadata := None |} ]>
    (<[ chunk_b := {| values := Some [0%float; 1%float];
                      metadata := Some {[ str "candidate_id"
                                          := MetaStr (str "cand1") ]} |} ]> ∅).

Definition two_chunk_world : world :=
  {| listing := Some [PageList [ItemStr chunk_a; ItemStr chunk_b];
                      PageStr chunk_a];
     fetch_fails := fun _ => false; upsert_fails := fun _ => false;
     delete_fails := fun _ => false; confirm := str "DELETE" |}.

Definition unify_args (delete : bool) (size : Z) : args :=
  {| from_prefix := str "cand1"; to_id := str "cand_final";
     delete_old := delete; batch_size := size; configured := true |}.

(** X3: a batch size that is not positive makes the tool do nothing: with 0
    the run dies of the error of [range] before any call of the store; with
    a negative size it ends normally, no upsert and no deletion being
    made, whatever the operator answers. *)
Theorem nonpositive_batch_size_does_nothing (a : args) (w : world)
    (store0 : gmap (list ascii) vector) (pages : list page) :
  configured a = true -> listing w = Some pages ->
  found_ids a pages <> [] -> batch_size a <= 0 ->
  run a w store0
  = (if batch_size a =? 0 then Uncaught else Completed, start store0).
Proof.
  intros Hc Hl Hne Hn. unfold run. rewrite Hc, Hl. cbn [negb].
  destruct (found_ids a pages) as [|i ids]; [congruence|].
  unfold chunks. destruct (Z.eqb_spec (batch_size a) 0); [reflexivity|].
  destruct (Z.ltb_spec (batch_size a) 0); [|lia].
  cbn [upsert_batches delete_batches].
  destruct (delete_old a); [|reflexivity].
  destruct (bool_decide _); reflexivity.
Qed.

Lemma nonpositive_batch_size_does_nothing_minus_5 :
  run (unify_args true (-5)) two_chunk_world two_chunk_store
  = (Completed, start two_chunk_store).
Proof.
  apply (nonpositive_batch_size_does_nothing (unify_args true (-5))
           two_chunk_world two_chunk_store
           [PageList [ItemStr chunk_a; ItemStr chunk_b]; PageStr chunk_a]).
  - reflexivity.
  - reflexivity.
  - vm_compute. discriminate.
  - simpl. lia.
Defined.

(** X4: whatever fails and whatever is answered, a run changes the store
    only by writing re-keyed records and by deleting: a vector found in
    the store afterwards is the one the store held under that identifier
    before, or a record whose identifier is the new identifier of a
    processed one, with values and with the canonical candidate in its
    metadata. *)
Theorem run_writes_only_rekeyed_records (a : args) (w : world)
    (store0 : gmap (list ascii) vector) (id : list ascii) (v : vector) :
  store (snd (run a w store0)) !! id = Some v ->
  store0 !! id = Some v \/
  exists pages, listing w = Some pages /\ written a (found_ids a pages) id v.
Proof.
  unfold run. destruct (configured a); cbn [negb fst snd];
    [|intros H; left; exact H].
  destruct (listing w) as [pages|]; [|intros H; left; exact H].
  destruct (found_ids a pages) as [|i ids] eqn:Ei; [intros H; left; exact H|].
  destruct (chunks (i :: ids) (batch_size a)) as [batches|] eqn:Ec;
    [|intros H; left; exact H].
  destruct (upsert_batches a w batches _) as [st1 r] eqn:E.
  assert (Hst1 : forall v', store st1 !! id = Some v' ->
            store0 !! id = Some v' \/
            exists pages0, Some pages = Some pages0 /\
              written a (found_ids a pages0) id v').
  { intros v' Hv. destruct (upsert_batches_inv _ _ _ _ _ _ _ _ E Hv) as [H|H];
      [left; exact H|].
    right. exists pages. split; [reflexivity|]. rewrite Ei.
    revert H. apply written_more. apply (chunks_concat _ _ _ Ec). }
  destruct r as [s|]; [exact (Hst1 v)|].
  destruct (delete_old a); [|exact (Hst1 v)].
  destruct (bool_decide _); [|exact (Hst1 v)].
  cbn [snd]. intros H. apply delete_batches_inv in H. exact (Hst1 v H).
Qed.

Lemma run_writes_only_rekeyed_records_example :
  exists pages,
    listing two_chunk_world = Some pages /\
    written (unify_args false 1) (found_ids (unify_args false 1) pages)
      (str "cand_final_chunk2_summary")
      {| values := Some [0%float; 1%float];
         metadata := Some {[ str "candidate_id" := MetaStr (str "cand_final") ]} |}.
Proof.
  destruct (run_writes_only_rekeyed_records (unify_args false 1)
              two_chunk_world two_chunk_store
              (str "cand_final_chunk2_summary")
              {| values := Some [0%float; 1%float];
                 metadata := Some {[ str "candidate_id"
                                     := MetaStr (str "cand_final") ]} |})
    as [H|H].
  - vm_compute. reflexivity.
  - vm_compute in H. discriminate.
  - exact H.
Defined.

Lemma omap_rekey_nodup a s (ids : list (list ascii)) :
  NoDup ids ->
  (forall o1 o2, o1 ∈ ids -> o2 ∈ ids ->
     new_id (from_prefix a) (to_id a) o1 = new_id (from_prefix a) (to_id a) o2 ->
     o1 = o2) ->
  NoDup (map record_id (omap (rekey a s) ids)).
Proof.
  induction ids as [|old ids IH]; intros Hnd Hinj; [constructor|].
  apply NoDup_cons in Hnd as [Hni Hnd]. cbn [omap list_omap].
  assert (Htl : NoDup (map record_id (omap (rekey a s) ids))).
  { apply IH; [exact Hnd|]. intros o1 o2 H1 H2. apply Hinj; apply elem_of_cons;
      right; assumption. }
  destruct (rekey a s old) as [r|] eqn:E; [|exact Htl].
  cbn [map]. apply NoDup_cons. split; [|exact Htl].
  intros Hin. apply omap_rekey_ids in Hin as (o & Ho & Heq).
  apply rekey_some in E as (v & vals & _ & _ & _ & ->).
  cbn [record_id fst] in Heq.
  assert (old = o).
  { apply Hinj; [apply elem_of_cons; left; reflexivity
                |apply elem_of_cons; right; exact Ho|exact Heq]. }
  subst o. contradiction.
Qed.

(** X5: when no call fails and no new identifier is itself a processed
    identifier, a run without deletion amounts to one upsert of the
    re-keyed copies made from the store as it was found, however the
    identifiers are cut into batches: the old records stay as they were,
    identifiers that are no new identifier are untouched, and, the new
    identifiers being pairwise distinct, every processed vector that has
    values is found under its new identifier with the same values and its
    metadata, the candidate replaced. *)
Theorem unification_copies_every_vector (a : args) (w : world)
    (store0 : gmap (list ascii) vector) (pages : list page) :
  configured a = true -> listing w = Some pages -> 0 < batch_size a ->
  (forall k, fetch_fails w k = false) ->
  (forall k, upsert_fails w k = false) ->
  delete_old a = false ->
  (forall old, old ∈ found_ids a pages ->
     new_id (from_prefix a) (to_id a) old ∉ found_ids a pages) ->
  let ids := found_ids a pages in
  let final := store (snd (run a w store0)) in
  fst (run a w store0) = match ids with [] => Exit 0 | _ => Completed end /\
  final = store_upsert (omap (rekey a store0) ids) store0 /\
  (forall old, old ∈ ids -> final !! old = store0 !! old) /\
  (forall id,
     (forall old, old ∈ ids -> id <> new_id (from_prefix a) (to_id a) old) ->
     final !! id = store0 !! id) /\
  ((forall o1 o2, o1 ∈ ids -> o2 ∈ ids ->
      new_id (from_prefix a) (to_id a) o1 = new_id (from_prefix a) (to_id a) o2 ->
      o1 = o2) ->
   forall old v vals,
     old ∈ ids -> store0 !! old = Some v -> values v = Some vals ->
     vals <> [] ->
     final !! new_id (from_prefix a) (to_id a) old = Some (rekeyed a v)).
Proof.
  intros Hc Hl Hn Hf Hu Hd Hsep ids final.
  assert (Hrun : fst (run a w store0)
                 = match ids with [] => Exit 0 | _ => Completed end /\
                 final = store_upsert (omap (rekey a store0) ids) store0).
  { subst final. unfold run. rewrite Hc, Hl, Hd. cbn [negb]. fold ids.
    destruct ids as [|i rest] eqn:Ei; [split; reflexivity|].
    unfold chunks. destruct (Z.eqb_spec (batch_size a) 0) as [|_]; [lia|].
    destruct (Z.ltb_spec (batch_size a) 0) as [|_]; [lia|].
    assert (Econ : concat (PySeq.batches (i :: rest) (Z.to_nat (batch_size a)))
                   = i :: rest) by (apply batches_concat; lia).
    destruct (upsert_batches_closed a w
                (PySeq.batches (i :: rest) (Z.to_nat (batch_size a)))
                (start store0) store0 Hf Hu) as (st' & E & Hs & _).
    - rewrite Econ, <- Ei. exact Hsep.
    - reflexivity.
    - unfold start in E. rewrite E. cbn [fst snd]. rewrite Hs, Econ.
      split; reflexivity. }
  destruct Hrun as [Hstatus Hfinal].
  split; [exact Hstatus|]. split; [exact Hfinal|].
  assert (Hother : forall id,
            (forall old, old ∈ ids -> id <> new_id (from_prefix a) (to_id a) old) ->
            final !! id = store0 !! id).
  { intros id Hid. rewrite Hfinal. apply store_upsert_other.
    intros Hin. apply omap_rekey_ids in Hin as (o & Ho & ->).
    exact (Hid o Ho eq_refl). }
  split; [|split; [exact Hother|]].
  - intros old Ho. apply Hother. intros o Hoin ->. exact (Hsep o Hoin Ho).
  - intros Hinj old v vals Ho Hv Hvals Hne. rewrite Hfinal.
    unfold rekeyed. rewrite Hvals.
    apply store_upsert_lookup.
    + apply omap_rekey_nodup; [|exact Hinj].
      apply found_ids_nodup.
    + apply list_elem_of_omap. exists old. split; [exact Ho|].
      apply rekey_values; assumption.
Qed.

Lemma unification_copies_every_vector_two_chunks :
  store (snd (run (unify_args false 1) two_chunk_world two_chunk_store))
    !! str "cand_final_chunk1_skills"
  = Some {| values := Some [1%float; 0%float];
            metadata := Some {[ str "candidate_id"
                                := MetaStr (str "cand_final") ]} |} /\
  store (snd (run (unify_args false 1) two_chunk_world two_chunk_store))
    !! chunk_a
  = two_chunk_store !! chunk_a.
Proof.
  destruct (unification_copies_every_vector (unify_args false 1)
              two_chunk_world two_chunk_store
              [PageList [ItemStr chunk_a; ItemStr chunk_b]; PageStr chunk_a])
    as (_ & _ & Hold & _ & Hnew).
  - reflexivity.
  - reflexivity.
  - simpl. lia.
  - intros k. reflexivity.
  - intros k. reflexivity.
  - reflexivity.
  - apply Forall_forall. apply (bool_decide_unpack _). vm_compute. exact I.
  - split.
    + apply (Hnew ltac:(intros o1 o2 H1 H2;
                        vm_compute in H1; vm_compute in H2;
                        repeat (apply elem_of_cons in H1 as [->|H1]);
                        try (apply elem_of_nil in H1; destruct H1);
                        repeat (apply elem_of_cons in H2 as [->|H2]);
                        try (apply elem_of_nil in H2; destruct H2);
                        vm_compute; intros E; try reflexivity; discriminate E)
              chunk_a
              {| values := Some [1%float; 0%float]; metadata := None |}
              [1%float; 0%float]).
      * apply (bool_decide_unpack _). vm_compute. exact I.
      * vm_compute. reflexivity.
      * reflexivity.
      * discriminate.
    + apply Hold. apply (bool_decide_unpack _). vm_compute. exact I.
Defined.

(** X6: once the loop of upserts has ended normally, a confirmed deletion
    removes the processed identifiers batch by batch and nothing else: the
    identifiers of a batch whose call succeeds are no longer in the store,
    a failed call leaves its batch and does not stop the loop, and what is
    no processed identifier stays as the upserts left it.  When no call
    fails no processed identifier is left, a re-keyed record whose new
    identifier is itself a processed identifier included. *)
Theorem deletion_removes_the_processed_ids (a : args) (w : world)
    (store0 : gmap (list ascii) vector) (pages : list page) :
  configured a = true -> listing w = Some pages -> 0 < batch_size a ->
  fst (run (keep_old a) w store0) = Completed ->
  delete_old a = true -> strip (confirm w) = str "DELETE" ->
  let ids := found_ids a pages in
  let batches := PySeq.batches ids (Z.to_nat (batch_size a)) in
  let before := store (snd (run (keep_old a) w store0)) in
  let final := store (snd (run a w store0)) in
  fst (run a w store0) = Completed /\
  (forall k b id, batches !! k = Some b -> id ∈ b ->
     delete_fails w k = false -> final !! id = None) /\
  (forall id,
     (forall k b, batches !! k = Some b -> id ∈ b -> delete_fails w k = true) ->
     final !! id = before !! id) /\
  (forall id, id ∉ ids -> final !! id = before !! id) /\
  ((forall k, delete_fails w k = false) ->
   forall id, id ∈ ids -> final !! id = None).
Proof.
  intros Hc Hl Hn Hk Hd Hconf ids batches before final.
  subst before final. revert Hk. unfold run.
  cbn [configured keep_old delete_old batch_size].
  rewrite Hc, Hl, Hd. cbn [negb].
  change (found_ids (keep_old a) pages) with ids. fold ids.
  destruct ids as [|i rest] eqn:Ei; [discriminate|].
  unfold chunks. destruct (Z.eqb_spec (batch_size a) 0) as [|_]; [lia|].
  destruct (Z.ltb_spec (batch_size a) 0) as [|_]; [lia|].
  fold batches. rewrite upsert_batches_keep_old.
  destruct (upsert_batches a w batches _) as [st1 r] eqn:E.
  pose proof (upsert_batches_deletes _ _ _ _ _ _ E) as Hdel.
  cbn [deletes] in Hdel.
  destruct r as [s|].
  { cbn [fst]. intros ->.
    destruct (UnifyRunFacts.upsert_batches_log _ _ _ _ _ _ E) as (_ & _ & Hr & _).
    congruence. }
  intros _. rewrite bool_decide_eq_true_2 by exact Hconf. cbn [fst snd].
  assert (Hcat : concat batches = i :: rest)
    by (apply batches_concat; lia).
  assert (Hin_batch : forall id, id ∈ i :: rest ->
            exists k b, batches !! k = Some b /\ id ∈ b).
  { intros id Hid. rewrite <- Hcat in Hid. clear -Hid.
    induction batches as [|b bs IH]; [apply elem_of_nil in Hid; destruct Hid|].
    cbn [concat] in Hid. apply elem_of_app in Hid as [Hid|Hid].
    - exists 0%nat, b. split; [reflexivity | exact Hid].
    - destruct (IH Hid) as (k & b' & Hk & Hb). exists (S k), b'. auto. }
  assert (Hbatch_in : forall k b id, batches !! k = Some b -> id ∈ b ->
            id ∈ i :: rest).
  { intros k b id Hkb Hid. rewrite <- Hcat. clear -Hkb Hid.
    revert k Hkb. induction batches as [|b0 bs IH]; intros k Hkb;
      [rewrite lookup_nil in Hkb; discriminate|].
    cbn [concat]. apply elem_of_app. destruct k as [|k].
    - injection Hkb as ->. left. exact Hid.
    - right. apply (IH k). exact Hkb. }
  split; [reflexivity|].
  split; [|split; [|split]].
  - intros k b id Hkb Hid Hfail.
    apply (delete_batches_removed w batches st1 k b id Hkb Hid).
    rewrite Hdel. exact Hfail.
  - intros id Hall. apply delete_batches_kept. intros k b Hkb Hid.
    rewrite Hdel. apply (Hall k b Hkb Hid).
  - intros id Hni. apply delete_batches_kept. intros k b Hkb Hid.
    exfalso. apply Hni. apply (Hbatch_in k b id Hkb Hid).
  - intros Hnofail id Hid. destruct (Hin_batch id Hid) as (k & b & Hkb & Hb).
    apply (delete_batches_removed w batches st1 k b id Hkb Hb).
    rewrite Hdel. apply Hnofail.
Qed.

Lemma deletion_removes_the_processed_ids_two_chunks :
  fst (run (unify_args true 1) two_chunk_world two_chunk_store) = Completed /\
  store (snd (run (unify_args true 1) two_chunk_world two_chunk_store))
    !! chunk_b = None.
Proof.
  destruct (deletion_removes_the_processed_ids (unify_args true 1)
              two_chunk_world two_chunk_store
              [PageList [ItemStr chunk_a; ItemStr chunk_b]; PageStr chunk_a])
    as (Hs & _ & _ & _ & Hall).
  - reflexivity.
  - reflexivity.
  - simpl. lia.
  - vm_compute. reflexivity.
  - reflexivity.
  - vm_compute. reflexivity.
  - split; [exact Hs|]. apply Hall; [intros k; reflexivity|].
    apply (bool_decide_unpack _). vm_compute. exact I.
Defined.

End UnifyStoreFacts.

(** ** list_candidate_vectors.py: what the report counts *)

Module ReportCountFacts.
Import ListCandidateVectors ListCandidateVectorsFacts PySeqFacts.

Lemma concat_nodup {A : Type} (bs : list (list A)) :
  NoDup (concat bs) -> Forall NoDup bs.
Proof.
  induction bs as [|b bs IH]; intros H; [constructor|].
  cbn [concat] in H. apply NoDup_app in H as (Hb & _ & Hbs).
  constructor; [exact Hb | apply IH, Hbs].
Qed.

Lemma fetch_from_app store (l1 l2 : list (list ascii)) :
  fetch_from store (l1 ++ l2) = fetch_from store l1 ++ fetch_from store l2.
Proof. unfold fetch_from. apply omap_app. Qed.

Lemma fetch_from_concat store (bs : list (list (list ascii))) :
  flat_map (fetch_from store) bs = fetch_from store (concat bs).
Proof.
  induction bs as [|b bs IH]; [reflexivity|].
  cbn [flat_map concat]. rewrite fetch_from_app, IH. reflexivity.
Qed.

Lemma fetch_from_elem store (ids : list (list ascii)) vid v :
  (vid, v) ∈ fetch_from store ids <-> vid ∈ ids /\ store !! vid = Some v.
Proof.
  unfold fetch_from. rewrite list_elem_of_omap. split.
  - intros (i & Hi & H). destruct (store !! i) as [v0|] eqn:E; [|discriminate].
    cbn in H. injection H as <- <-. split; assumption.
  - intros [Hi Hs]. exists vid. split; [exact Hi|]. rewrite Hs. reflexivity.
Qed.

Lemma fetch_from_nodup store (ids : list (list ascii)) :
  NoDup ids -> NoDup (map fst (fetch_from store ids)).
Proof.
  induction ids as [|i ids IH]; intros H; [constructor|].
  apply NoDup_cons in H as [Hni Hnd]. unfold fetch_from. cbn [omap list_omap].
  fold (fetch_from store ids).
  destruct (store !! i) as [v|]; cbn; [|apply IH, Hnd].
  apply NoDup_cons. split; [|apply IH, Hnd].
  intros Hin. apply list_elem_of_fmap in Hin as ([vid v'] & Heq & Hin).
  cbn in Heq. subst vid. apply fetch_from_elem in Hin as [Hin _]. contradiction.
Qed.

Lemma filter_fst_nodup {A B : Type} (P : A * B -> bool) (l : list (A * B)) :
  NoDup (map fst l) -> NoDup (map fst (List.filter P l)).
Proof.
  induction l as [|x l IH]; intros H; [constructor|].
  cbn [map] in H. apply NoDup_cons in H as [Hni Hnd]. cbn [List.filter].
  destruct (P x); [|apply IH, Hnd].
  cbn [map]. apply NoDup_cons. split; [|apply IH, Hnd].
  intros Hin. apply Hni. apply list_elem_of_fmap in Hin as (y & Hy & Hin).
  apply list_elem_of_fmap. exists y. split; [exact Hy|].
  apply list_elem_of_In. apply list_elem_of_In in Hin.
  apply filter_In in Hin. tauto.
Qed.

Lemma fetched_by_batches store
    (fetch : list (list ascii) -> list (list ascii * vector))
    (bs : list (list (list ascii))) :
  (forall ids, NoDup ids -> fetch ids ≡ₚ fetch_from store ids) ->
  Forall NoDup bs ->
  flat_map fetch bs ≡ₚ fetch_from store (concat bs).
Proof.
  intros Hfetch Hbs. rewrite <- fetch_from_concat.
  induction Hbs as [|b bs Hb _ IH]; [reflexivity|].
  cbn [flat_map]. rewrite (Hfetch b Hb), IH. reflexivity.
Qed.

Definition count_sum (items : list group) : nat :=
  list_sum (map (fun g => length (snd g)) items).

Lemma count_sum_cons g m : count_sum (g :: m) = (length (snd g) + count_sum m)%nat.
Proof. reflexivity. Qed.

Lemma count_sum_setdefault cid vid m :
  count_sum (setdefault_append cid vid m) = S (count_sum m).
Proof.
  induction m as [|[k vids] m IH]; [reflexivity|].
  cbn [setdefault_append]. destruct (decide (k = cid)).
  - rewrite !count_sum_cons. cbn [snd]. rewrite length_app. cbn [length]. lia.
  - rewrite !count_sum_cons, IH. lia.
Qed.

Lemma count_sum_group_chunks fetched :
  count_sum (group_chunks fetched) = length fetched.
Proof.
  induction fetched as [|[vid v] fetched IH] using rev_ind; [reflexivity|].
  rewrite group_chunks_snoc, count_sum_setdefault, IH, length_app. cbn. lia.
Qed.

(** The identifiers scanned: the listed strings that are not empty, each
    once. *)
Definition scanned (pages : list page) : list (list ascii) :=
  PySeq.unique (List.filter nonempty (flat_map page_ids pages)).

Lemma scanned_spec pages :
  NoDup (scanned pages) /\
  forall i, i ∈ scanned pages <-> i <> [] /\ i ∈ flat_map page_ids pages.
Proof.
  unfold scanned.
  destruct (unique_spec (List.filter nonempty (flat_map page_ids pages)))
    as [Hnd Hin].
  split; [exact Hnd|]. intros i. rewrite Hin, !list_elem_of_In, filter_In.
  destruct i; cbn; split; intros [H1 H2]; split; auto; congruence.
Qed.

(** X7: the counts of the report are exact.  The sizes of the groups add up
    to the number of fetched items; and when the store answers a batch
    with the vectors it holds among those asked, a group holds each
    identifier once, and holds exactly the identifiers that are listed, not
    empty, stored, and of that candidate, on however many pages and
    however many times an identifier was listed. *)
Theorem report_counts_each_chunk_once (store : gmap (list ascii) vector)
    (fetch : list (list ascii) -> list (list ascii * vector))
    (pages : list page) :
  (forall ids, NoDup ids -> fetch ids ≡ₚ fetch_from store ids) ->
  let items := summary fetch pages in
  count_sum items = length (fetched_items fetch pages) /\
  fetched_items fetch pages ≡ₚ fetch_from store (scanned pages) /\
  forall cid vids, (cid, vids) ∈ items ->
    NoDup vids /\
    forall vid, vid ∈ vids <->
      vid <> [] /\ vid ∈ flat_map page_ids pages /\
      exists v, store !! vid = Some v /\ candidate_id_of vid v = cid.
Proof.
  intros Hfetch items. subst items. unfold summary.
  assert (Hsum : count_sum (sorted_by_count (group_chunks (fetched_items fetch pages)))
                 = length (fetched_items fetch pages)).
  { rewrite <- count_sum_group_chunks. unfold count_sum.
    rewrite (sorted_by_count_perm (group_chunks (fetched_items fetch pages))).
    reflexivity. }
  destruct (scanned_spec pages) as [Hnd Hin].
  assert (Hperm : fetched_items fetch pages ≡ₚ fetch_from store (scanned pages)).
  { unfold fetched_items, chunked. fold (scanned pages).
    rewrite <- (batches_concat (scanned pages) 100) at 2 by lia.
    apply fetched_by_batches; [exact Hfetch|].
    apply concat_nodup. rewrite batches_concat by lia. exact Hnd. }
  split; [exact Hsum|]. split; [exact Hperm|].
  intros cid vids Hg.
  apply (proj1 (groups_of_fetched (fetched_items fetch pages))) in Hg
    as [_ ->].
  split.
  - unfold vids_of. apply filter_fst_nodup. rewrite Hperm.
    apply fetch_from_nodup, Hnd.
  - intros vid. unfold vids_of. rewrite list_elem_of_fmap. split.
    + intros ([vid' v] & -> & Hf). apply list_elem_of_In, filter_In in Hf.
      destruct Hf as [Hf Hc]. cbn [fst snd] in *.
      apply bool_decide_eq_true_1 in Hc.
      apply list_elem_of_In in Hf. rewrite Hperm in Hf.
      apply fetch_from_elem in Hf as [Hs Hv]. apply Hin in Hs as [Hne Hl].
      split; [exact Hne|]. split; [exact Hl|]. exists v. auto.
    + intros (Hne & Hl & v & Hv & Hc). exists (vid, v). split; [reflexivity|].
      apply list_elem_of_In, filter_In. split.
      * apply list_elem_of_In. rewrite Hperm. apply fetch_from_elem.
        split; [apply Hin; auto | exact Hv].
      * cbn [fst snd]. apply bool_decide_eq_true_2. exact Hc.
Qed.

Lemma report_counts_each_chunk_once_scenario :
  count_sum (summary (fetch_from scenario_store)
               [PageList (map ItemStr scenario_ids); PageStr (str "x_chunk1_summary")])
  = 3%nat.
Proof.
  destruct (report_counts_each_chunk_once scenario_store
              (fetch_from scenario_store)
              [PageList (map ItemStr scenario_ids); PageStr (str "x_chunk1_summary")])
    as (H & _).
  - intros ids _. reflexivity.
  - rewrite H. vm_compute. reflexivity.
Defined.

End ReportCountFacts.

(** ** Chunk identifiers across the scripts: built by upload_to_pinecone.py,
    split by list_candidate_vectors.py, re-keyed by unify_resumes.py *)

Module ChunkIdFacts.
Import PyStrFacts UnifyResumes UploadToPinecone.

Lemma marker_chars :
  chunk_marker = ["_"; "c"; "h"; "u"; "n"; "k"]%char.
Proof. reflexivity. Qed.

(** The marker does not overlap itself: an occurrence that starts in a text
    without the marker, once the marker is appended, would lie in the
    text. *)
Lemma marker_not_before cid rest j :
  (forall k, ~ occurs_at chunk_marker cid k) ->
  (j < length cid)%nat ->
  ~ occurs_at chunk_marker (cid ++ chunk_marker ++ rest) j.
Proof.
  intros Hno Hj (pre & post & Heq & Hlen).
  assert (Hsplit : cid = pre ++ drop j cid /\
                   drop j cid ++ chunk_marker ++ rest = chunk_marker ++ post).
  { assert (Hp : pre = take j cid).
    { apply (f_equal (take j)) in Heq.
      rewrite take_app_le in Heq by lia.
      rewrite <- Hlen in Heq at 2. rewrite take_app_length in Heq.
      symmetry. exact Heq. }
    split; [rewrite Hp; symmetry; apply take_drop|].
    apply (f_equal (drop j)) in Heq.
    rewrite drop_app_le in Heq by lia.
    rewrite <- Hlen in Heq at 2. rewrite drop_app_length in Heq. exact Heq. }
  destruct Hsplit as [Hcid Htail].
  assert (Hlong : (0 < length (drop j cid))%nat)
    by (rewrite length_drop; lia).
  rewrite marker_chars in Htail.
  destruct (drop j cid) as [|c1 [|c2 [|c3 [|c4 [|c5 [|c6 tl]]]]]] eqn:Ed;
    cbn [length] in Hlong; [lia| | | | | |];
    cbn [app] in Htail; try (injection Htail; intros; subst; discriminate).
  injection Htail as -> -> -> -> -> -> _.
  apply (Hno j). exists pre, tl. split; [|exact Hlen].
  rewrite Hcid at 1. rewrite marker_chars. reflexivity.
Qed.

Lemma contains_false sub s :
  contains sub s = false -> forall k, ~ occurs_at sub s k.
Proof.
  intros H k Hk. assert (Ht : contains sub s = true)
    by (apply contains_iff; exists k; exact Hk).
  congruence.
Qed.

Lemma marker_first cid rest :
  contains chunk_marker cid = false ->
  find chunk_marker (cid ++ chunk_marker ++ rest) = Z.of_nat (length cid).
Proof.
  intros H. apply find_first_at. split.
  - exists cid, rest. split; reflexivity.
  - intros j Hj. apply marker_not_before; [|exact Hj].
    apply contains_false, H.
Qed.

Lemma build_vector_id_marker cid idx section :
  build_vector_id cid idx section
  = cid ++ chunk_marker ++ (str_of_int idx ++ str "_" ++ slugify section).
Proof. reflexivity. Qed.

Lemma split_head_chunk_id cid idx section :
  contains chunk_marker cid = false ->
  split_head chunk_marker (build_vector_id cid idx section) = cid.
Proof.
  intros H. rewrite build_vector_id_marker. unfold split_head.
  rewrite (marker_first cid _ H).
  destruct (Z.eqb_spec (Z.of_nat (length cid)) (-1)) as [E|_]; [lia|].
  rewrite Nat2Z.id. apply take_app_length.
Qed.

Lemma new_id_chunk_id from_pref to cid idx section :
  contains chunk_marker cid = false ->
  new_id from_pref to (build_vector_id cid idx section)
  = build_vector_id to idx section.
Proof.
  intros H. rewrite !build_vector_id_marker.
  apply (UnifyResumesFacts.new_id_marker from_pref to _ cid
           (str_of_int idx ++ str "_" ++ slugify section) eq_refl).
  intros j Hj. apply marker_not_before; [|exact Hj].
  apply contains_false, H.
Qed.

(** The letter h is in no hashed identifier, and is in the marker. *)
Lemma hex_char_not_h d : Sha1.hex_char d <> "h"%char.
Proof.
  unfold Sha1.hex_char.
  assert (H : (Z.to_nat (d mod 16) < 16)%nat)
    by (pose proof (Z.mod_pos_bound d 16); lia).
  revert H. generalize (Z.to_nat (d mod 16)). intros n H.
  do 16 (destruct n as [|n]; [discriminate|]). lia.
Qed.

Lemma hex_digits_no_h n x : "h"%char ∉ Sha1.hex_digits n x.
Proof.
  revert x. induction n as [|n IH]; intros x; cbn [Sha1.hex_digits].
  - apply not_elem_of_nil.
  - apply not_elem_of_app. split; [apply IH|].
    intros H. apply list_elem_of_singleton in H.
    symmetry in H. exact (hex_char_not_h x H).
Qed.

Lemma hexdigest_no_h s : "h"%char ∉ Sha1.hexdigest s.
Proof.
  unfold Sha1.hexdigest. generalize (Sha1.digest_words (Sha1.utf8 s)).
  intros ws. induction ws as [|w ws IH]; cbn [flat_map].
  - apply not_elem_of_nil.
  - apply not_elem_of_app. split; [apply hex_digits_no_h | exact IH].
Qed.

Lemma take_notin {A : Type} (x : A) n (l : list A) : x ∉ l -> x ∉ take n l.
Proof.
  intros H Hin. apply H. rewrite <- (take_drop n l).
  apply elem_of_app. left. exact Hin.
Qed.

Lemma no_h_no_marker s : "h"%char ∉ s -> contains chunk_marker s = false.
Proof.
  intros H. destruct (contains chunk_marker s) eqn:E; [|reflexivity].
  apply contains_iff in E as (k & pre & post & -> & _).
  exfalso. apply H. rewrite marker_chars.
  apply elem_of_app. right. cbn [app].
  do 2 (apply elem_of_cons; right). apply elem_of_cons. left. reflexivity.
Qed.

Lemma hashed_id_no_marker obj method u :
  method = "uuid"%string \/ method = "content_hash"%string ->
  contains chunk_marker (deterministic_candidate_id obj method u) = false.
Proof.
  intros Hm. apply no_h_no_marker.
  assert (Hpre : "h"%char ∉ str "resumes_").
  { apply (bool_decide_unpack _). vm_compute. exact I. }
  destruct Hm as [->| ->]; unfold deterministic_candidate_id; cbv zeta.
  - rewrite String.eqb_refl. apply not_elem_of_app. split; [exact Hpre|].
    apply take_notin, hex_digits_no_h.
  - change (String.eqb "content_hash" "uuid") with false.
    change (String.eqb "content_hash" "email") with false.
    change (String.eqb "content_hash" "name") with false.
    rewrite String.eqb_refl. cbn [andb].
    apply not_elem_of_app. split; [exact Hpre|].
    apply take_notin, hexdigest_no_h.
Qed.

(** A candidate whose name, once slugged, holds the marker. *)
Definition al_chunk : seed :=
  {| meta_candidate_name := Some (str "Al Chunk");
     candidate_name := None; meta_email := None; meta_emails := None;
     full_text := None; dumps := [] |}.

(** X8: the candidate of a chunk can be read back from its identifier.
    When the candidate identifier does not hold the marker [_chunk], the
    part of the chunk identifier before the first marker, which is what
    the listing script falls back on when the metadata names no candidate,
    is the candidate identifier.  Identifiers made by the [uuid] and
    [content_hash] strategies never hold the marker; one made from a name
    can, and the fallback then cuts it short. *)
Theorem fallback_candidate_of_a_chunk_id (cid : list ascii) (idx : Z)
    (section : list ascii) (v : ListCandidateVectors.vector) :
  contains chunk_marker cid = false ->
  default ∅ (ListCandidateVectors.metadata v) !! str "candidate_id" = None \/
  default ∅ (ListCandidateVectors.metadata v) !! str "candidate_id" = Some [] ->
  ListCandidateVectors.candidate_id_of (build_vector_id cid idx section) v
  = cid /\
  (forall obj method u,
     method = "uuid"%string \/ method = "content_hash"%string ->
     ListCandidateVectors.candidate_id_of
       (build_vector_id (deterministic_candidate_id obj method u) idx section) v
     = deterministic_candidate_id obj method u) /\
  ListCandidateVectors.candidate_id_of
    (build_vector_id (deterministic_candidate_id al_chunk "name" 0) idx section) v
  = str "resumes_al".
Proof.
  intros Hc Hv.
  assert (Hfall : forall vid,
            ListCandidateVectors.candidate_id_of vid v
            = split_head chunk_marker vid).
  { intros vid. unfold ListCandidateVectors.candidate_id_of.
    destruct Hv as [-> | ->]; reflexivity. }
  rewrite !Hfall. split; [apply split_head_chunk_id, Hc|]. split.
  - intros obj method u Hm. rewrite Hfall.
    apply split_head_chunk_id, hashed_id_no_marker, Hm.
  - assert (E : deterministic_candidate_id al_chunk "name" 0
                = str "resumes_al" ++ chunk_marker ++ str "_2028c4")
      by (vm_compute; reflexivity).
    rewrite E, build_vector_id_marker, <- !app_assoc.
    unfold split_head. rewrite marker_first by (vm_compute; reflexivity).
    destruct (Z.eqb_spec (Z.of_nat (length (str "resumes_al"))) (-1)) as [E1|_];
      [discriminate E1|].
    rewrite Nat2Z.id. apply take_app_length.
Qed.

Lemma fallback_candidate_of_a_chunk_id_example :
  ListCandidateVectors.candidate_id_of
    (build_vector_id (str "resumes_ab12cd") 3 (str "Work Experience"))
    {| ListCandidateVectors.metadata := None |}
  = str "resumes_ab12cd".
Proof.
  apply (fallback_candidate_of_a_chunk_id (str "resumes_ab12cd") 3
           (str "Work Experience") {| ListCandidateVectors.metadata := None |}).
  - vm_compute. reflexivity.
  - left. reflexivity.
Defined.

(** X9: re-keying a chunk identifier built for one candidate gives the
    chunk identifier built for the target with the same chunk index and
    section, when the old candidate identifier does not hold the marker;
    this is so for every identifier of the [uuid] and [content_hash]
    strategies. *)
Theorem rekeyed_chunk_id_is_the_targets (from_pref to cid : list ascii)
    (idx : Z) (section : list ascii) :
  contains chunk_marker cid = false ->
  new_id from_pref to (build_vector_id cid idx section)
  = build_vector_id to idx section /\
  (forall obj method u,
     method = "uuid"%string \/ method = "content_hash"%string ->
     new_id from_pref to
       (build_vector_id (deterministic_candidate_id obj method u) idx section)
     = build_vector_id to idx section).
Proof.
  intros Hc. split; [apply new_id_chunk_id, Hc|].
  intros obj method u Hm. apply new_id_chunk_id, hashed_id_no_marker, Hm.
Qed.

Lemma rekeyed_chunk_id_is_the_targets_example :
  new_id (str "sumeet_adhav_001") (str "resumes_sumeet_adhav_5a07e6")
    (build_vector_id (str "sumeet_adhav_001") 2 (str "Skills"))
  = build_vector_id (str "resumes_sumeet_adhav_5a07e6") 2 (str "Skills").
Proof.
  apply (rekeyed_chunk_id_is_the_targets (str "sumeet_adhav_001")
           (str "resumes_sumeet_adhav_5a07e6") (str "sumeet_adhav_001") 2
           (str "Skills")).
  vm_compute. reflexivity.
Defined.

End ChunkIdFacts.

(** ** upload_to_pinecone.py: slugs and chunk identifiers *)

Module SlugFacts.
Import PyStrFacts PyStrCharFacts UploadToPinecone UploadToPineconeFacts.

Lemma slug_char_plain c :
  slug_char c = true ->
  isspace c = false /\ lower_char c = c /\ kept c = true.
Proof.
  unfold slug_char, id_char, isspace, lower_char, kept.
  destruct c as [b0 b1 b2 b3 b4 b5 b6 b7].
  destruct b0, b1, b2, b3, b4, b5, b6, b7; vm_compute; intros H;
    try discriminate H; repeat split.
Qed.

Lemma lstrip_nonspace s :
  Forall (fun c => isspace c = false) s -> lstrip s = s.
Proof. intros H. destruct H as [|c t Hc _]; [reflexivity|]. cbn. rewrite Hc. reflexivity. Qed.

Lemma strip_nonspace s :
  Forall (fun c => isspace c = false) s -> strip s = s.
Proof.
  intros H. unfold strip, rstrip. rewrite (lstrip_nonspace s H).
  rewrite lstrip_nonspace by (apply Forall_rev, H). apply rev_involutive.
Qed.

Lemma split_ws_aux_nonspace s cur :
  Forall (fun c => isspace c = false) s ->
  split_ws_aux s cur = match rev cur ++ s with [] => [] | w => [w] end.
Proof.
  revert cur. induction s as [|c t IH]; intros cur H; cbn [split_ws_aux].
  - rewrite app_nil_r. destruct cur as [|c0 cur]; [reflexivity|].
    destruct (rev (c0 :: cur)) eqn:E; [|reflexivity].
    apply (f_equal (@length ascii)) in E. rewrite length_rev in E. discriminate.
  - apply Forall_cons in H as [Hc Ht]. rewrite Hc, (IH _ Ht).
    cbn [rev]. rewrite <- app_assoc. reflexivity.
Qed.

Lemma split_ws_aux_spaces s :
  Forall (fun c => isspace c = true) s -> split_ws_aux s [] = [].
Proof.
  induction 1 as [|c t Hc _ IH]; [reflexivity|].
  cbn [split_ws_aux]. rewrite Hc. exact IH.
Qed.

Lemma slugify_of_slug r :
  all_slug r -> r <> [] -> (length r <= 64)%nat -> slugify r = r.
Proof.
  intros Hr Hne Hlen. unfold slugify.
  assert (Hns : Forall (fun c => isspace c = false) r).
  { eapply Forall_impl; [exact Hr|]. intros c Hc. apply slug_char_plain, Hc. }
  rewrite (strip_nonspace r Hns).
  assert (Hlow : lower r = r).
  { unfold lower. clear -Hr. induction Hr as [|c t Hc _ IH]; [reflexivity|].
    cbn [map]. rewrite IH. f_equal. apply slug_char_plain, Hc. }
  rewrite Hlow.
  assert (Hmap : map (fun c => if kept c then c else " "%char) r = r).
  { clear -Hr. induction Hr as [|c t Hc _ IH]; [reflexivity|].
    cbn [map]. rewrite IH. destruct (slug_char_plain c Hc) as (_ & _ & ->).
    reflexivity. }
  rewrite Hmap. unfold split_ws. rewrite (split_ws_aux_nonspace r [] Hns).
  cbn [rev app]. destruct r as [|c t]; [congruence|].
  cbn [join]. rewrite take_ge by exact Hlen. reflexivity.
Qed.

(** X10: a slug is never empty and is stable: the slug of a slug is the slug
    itself, so that an identifier part made by [slugify] can be slugged
    again without change; and a text in which no letter, digit, underscore
    or hyphen is left after lower-casing gets the slug [section]. *)
Theorem slugify_is_stable (text : list ascii) :
  slugify text <> [] /\
  slugify (slugify text) = slugify text /\
  (Forall (fun c => kept (lower_char c) = false \/ isspace (lower_char c) = true)
          text ->
   slugify text = str "section").
Proof.
  assert (Hne : slugify text <> []).
  { unfold slugify. destruct (take 64 _); discriminate. }
  split; [exact Hne|]. split.
  - apply slugify_of_slug; [apply slugify_slug | exact Hne | apply slugify_length].
  - intros H. unfold slugify.
    assert (Hsub : Forall (fun c => kept (lower_char c) = false
                                    \/ isspace (lower_char c) = true)
                          (strip text)).
    { destruct (lstrip_suffix text) as (ws1 & E1 & _).
      destruct (rstrip_prefix (lstrip text)) as (ws2 & E2 & _).
      rewrite E1, E2 in H. apply Forall_app in H as [_ H].
      apply Forall_app in H as [H _]. exact H. }
    unfold split_ws. rewrite split_ws_aux_spaces; [reflexivity|].
    unfold lower. rewrite map_map. apply Forall_fmap.
    eapply Forall_impl; [exact Hsub|]. intros c [Hc|Hc]; cbn.
    + rewrite Hc. reflexivity.
    + destruct (kept (lower_char c)); [exact Hc | reflexivity].
Qed.

End SlugFacts.

(** ** upload_to_pinecone.py: chunk identifiers told apart *)

Module VectorIdFacts.
Import PyStrFacts PySeqFacts UploadToPinecone UploadToPineconeFacts.

Definition is_digit (c : ascii) : bool :=
  let n := code c in ((48 <=? n) && (n <=? 57))%N.

Lemma digit_char_is_digit n : is_digit (digit_char (n mod 10)) = true.
Proof.
  unfold digit_char.
  assert (H : (N.to_nat (n mod 10) < 10)%nat)
    by (pose proof (N.mod_lt n 10); lia).
  rewrite <- (N2Nat.id (n mod 10)).
  revert H. generalize (N.to_nat (n mod 10)). intros k H.
  do 10 (destruct k as [|k]; [reflexivity|]). lia.
Qed.

Lemma digits_aux_digits fuel n acc :
  Forall (fun c => is_digit c = true) acc ->
  Forall (fun c => is_digit c = true) (digits_aux fuel n acc).
Proof.
  revert n acc. induction fuel as [|f IH]; intros n acc H; cbn [digits_aux];
    [exact H|].
  assert (H' : Forall (fun c => is_digit c = true)
                      (digit_char (n mod 10) :: acc))
    by (constructor; [apply digit_char_is_digit | exact H]).
  destruct (n <? 10)%N; [exact H' | apply IH; exact H'].
Qed.

Lemma digits_aux_nonempty fuel n : digits_aux (S fuel) n [] <> [].
Proof.
  cbn [digits_aux]. destruct (n <? 10)%N; [discriminate|].
  rewrite digits_aux_app. destruct (digits_aux fuel (n / 10) []); discriminate.
Qed.

(** The decimal text of a number that is not negative: digits, at least
    one. *)
Lemma str_of_int_digits i :
  0 <= i ->
  Forall (fun c => is_digit c = true) (str_of_int i) /\ str_of_int i <> [].
Proof.
  intros Hi. unfold str_of_int. destruct (Z.ltb_spec i 0) as [|_]; [lia|].
  split; [apply digits_aux_digits; constructor | apply digits_aux_nonempty].
Qed.

Lemma parse_digits_to_Z i j :
  0 <= i -> 0 <= j -> str_of_int i = str_of_int j -> i = j.
Proof.
  intros Hi Hj E. apply (f_equal parse_digits) in E.
  rewrite !str_of_int_nonneg in E by assumption. lia.
Qed.

Lemma str_of_int_inj i j : str_of_int i = str_of_int j -> i = j.
Proof.
  intros E. destruct (Z.ltb_spec i 0) as [Hi|Hi], (Z.ltb_spec j 0) as [Hj|Hj].
  - rewrite (str_of_int_negative i Hi), (str_of_int_negative j Hj) in E.
    injection E as E. apply parse_digits_to_Z in E; lia.
  - rewrite (str_of_int_negative i Hi) in E.
    destruct (str_of_int_digits j Hj) as [Hd Hne].
    destruct (str_of_int j) as [|c t]; [discriminate|].
    injection E as <- _. apply Forall_cons in Hd as [Hd _]. discriminate.
  - rewrite (str_of_int_negative j Hj) in E.
    destruct (str_of_int_digits i Hi) as [Hd Hne].
    destruct (str_of_int i) as [|c t]; [discriminate|].
    injection E as -> _. apply Forall_cons in Hd as [Hd _]. discriminate.
  - apply parse_digits_to_Z; assumption.
Qed.

Lemma str_of_int_no_underscore i : "_"%char ∉ str_of_int i.
Proof.
  assert (Hd : forall k, 0 <= k -> "_"%char ∉ str_of_int k).
  { intros k Hk Hin. destruct (str_of_int_digits k Hk) as [Hd _].
    rewrite Forall_forall in Hd. specialize (Hd _ Hin). discriminate. }
  destruct (Z.ltb_spec i 0) as [Hi|Hi]; [|apply Hd, Hi].
  rewrite (str_of_int_negative i Hi). apply not_elem_of_cons.
  split; [discriminate | apply Hd; lia].
Qed.

(** Two texts cut at their first underscore. *)
Lemma cut_at_first (c : ascii) x y a b :
  c ∉ x -> c ∉ y -> x ++ c :: a = y ++ c :: b -> x = y /\ a = b.
Proof.
  revert y. induction x as [|x0 x IH]; intros y Hx Hy E.
  - destruct y as [|y0 y]; [injection E as ->; auto|].
    injection E as <- _. exfalso. apply Hy, elem_of_cons. left. reflexivity.
  - destruct y as [|y0 y].
    + injection E as -> _. exfalso. apply Hx, elem_of_cons. left. reflexivity.
    + injection E as -> E. apply not_elem_of_cons in Hx as [_ Hx].
      apply not_elem_of_cons in Hy as [_ Hy].
      destruct (IH y Hx Hy E) as [-> ->]. auto.
Qed.

Lemma build_vector_id_index cid i j s t :
  build_vector_id cid i s = build_vector_id cid j t ->
  i = j /\ slugify s = slugify t.
Proof.
  unfold build_vector_id. intros E.
  apply app_inv_head in E. apply app_inv_head in E.
  change (str "_" ++ slugify s) with ("_"%char :: slugify s) in E.
  change (str "_" ++ slugify t) with ("_"%char :: slugify t) in E.
  apply cut_at_first in E as [Ei Es];
    [|apply str_of_int_no_underscore|apply str_of_int_no_underscore].
  split; [apply str_of_int_inj, Ei | exact Es].
Qed.

(** X11: two chunk identifiers of one candidate are the same exactly when
    the chunk indexes are the same and the sections have the same slug: the
    index and the slug can be read back from the identifier. *)
Theorem build_vector_id_collides_only_on_slugs (cid : list ascii) (i j : Z)
    (s t : list ascii) :
  build_vector_id cid i s = build_vector_id cid j t
  <-> i = j /\ slugify s = slugify t.
Proof.
  split; [apply build_vector_id_index|].
  intros [-> E]. unfold build_vector_id. rewrite E. reflexivity.
Qed.

End VectorIdFacts.

(** ** upload_to_pinecone.py: derived and drawn identifiers *)

Module CandidateIdFacts.
Import PyStrFacts UploadToPinecone UploadToPineconeFacts.

(** [meta.get("candidate_name") or obj.get("candidate_name") or ""] *)
Definition seed_name (obj : seed) : list ascii :=
  or_else (meta_candidate_name obj) (or_else (candidate_name obj) []).

(** The address the [email] strategy finds, empty when it finds none. *)
Definition seed_email (obj : seed) : list ascii :=
  or_else (meta_email obj)
          (match meta_emails obj with
           | Some (e :: _) => e
           | _ => []
           end).

(** The cases in which the identifier is derived from the object. *)
Definition derived (obj : seed) (method : string) : Prop :=
  method = "content_hash"%string \/
  (method = "name"%string /\ seed_name obj <> []) \/
  (method = "email"%string /\ seed_email obj <> []).

Lemma two_draws_differ :
  str "resumes_" ++ uuid_hex12 0 <> str "resumes_" ++ uuid_hex12 (2 ^ 127).
Proof. vm_compute. discriminate. Qed.

Lemma candidate_id_cases (obj : seed) (method : string) :
  (derived obj method /\
   exists id, forall u, deterministic_candidate_id obj method u = id) \/
  (~ derived obj method /\
   forall u, deterministic_candidate_id obj method u
             = str "resumes_" ++ uuid_hex12 u).
Proof.
  unfold deterministic_candidate_id, derived. cbv zeta.
  fold (seed_name obj).
  destruct (String.eqb_spec method "uuid") as [->|Hu].
  { right. split; [|reflexivity].
    intros [H|[[H _]|[H _]]]; discriminate H. }
  destruct (String.eqb_spec method "email") as [->|He].
  { unfold email_id. cbv zeta. fold (seed_email obj).
    destruct (seed_email obj) as [|c email] eqn:E.
    - right. split; [|reflexivity].
      intros [H|[[H _]|[_ H]]]; try discriminate H. congruence.
    - left. split; [right; right; split; [reflexivity|discriminate]|].
      eexists. intros u. reflexivity. }
  destruct (String.eqb_spec method "name") as [->|Hn].
  { destruct (seed_name obj) as [|c name] eqn:E.
    - right. split; [|reflexivity].
      intros [H|[[_ H]|[H _]]]; try discriminate H. congruence.
    - left. split; [right; left; split; [reflexivity|discriminate]|].
      rewrite bool_decide_eq_false_2 by discriminate. cbn [andb negb].
      eexists. intros u. reflexivity. }
  cbn [andb].
  destruct (String.eqb_spec method "content_hash") as [->|Hc].
  { left. split; [left; reflexivity|]. eexists. intros u. reflexivity. }
  right. split; [|reflexivity].
  intros [H|[[H _]|[H _]]]; congruence.
Qed.

(** X12: the identifier of a candidate is independent of the random draw
    exactly when the strategy is [content_hash], or [name] with a name
    that is not empty, or [email] with an address found; in every other
    case, the [email] strategy without an address and the [name] strategy
    without a name included, it is the random identifier, whatever else
    the object holds. *)
Theorem candidate_id_is_derived_or_drawn (obj : seed) (method : string) :
  ((forall u1 u2, deterministic_candidate_id obj method u1
                  = deterministic_candidate_id obj method u2)
   <-> derived obj method) /\
  (~ derived obj method ->
   forall u, deterministic_candidate_id obj method u
             = str "resumes_" ++ uuid_hex12 u) /\
  (method = "content_hash"%string ->
   forall u, deterministic_candidate_id obj method u
             = str "resumes_" ++ short_hex (or_else (full_text obj) (dumps obj))).
Proof.
  destruct (candidate_id_cases obj method) as [[Hd (id & Hid)]|[Hnd Hr]].
  - split; [|split].
    + split; [intros _; exact Hd|]. intros _ u1 u2. rewrite !Hid. reflexivity.
    + intros H. contradiction.
    + intros -> u. reflexivity.
  - split; [|split].
    + split; [|intros H; contradiction].
      intros H. exfalso. apply two_draws_differ.
      rewrite <- !Hr. apply H.
    + intros _. exact Hr.
    + intros ->. exfalso. apply Hnd. left. reflexivity.
Qed.

End CandidateIdFacts.

(** ** Properties of the cleaning of the metadata *)

Module UploadMetaFacts.
Import PyStrFacts PyStrCharFacts InspectJdJson UploadMeta.

Lemma lstrip_head s :
  lstrip s = [] \/ exists c t, lstrip s = c :: t /\ isspace c = false.
Proof.
  induction s as [|c t IH]; [left; reflexivity|].
  cbn [lstrip]. destruct (isspace c) eqn:E; [exact IH|].
  right. exists c, t. auto.
Qed.

Lemma lstrip_lstrip s : lstrip (lstrip s) = lstrip s.
Proof.
  destruct (lstrip_head s) as [->|(c & t & -> & Hc)]; [reflexivity|].
  cbn [lstrip]. rewrite Hc. reflexivity.
Qed.

Lemma rstrip_rstrip s : rstrip (rstrip s) = rstrip s.
Proof. unfold rstrip. rewrite rev_involutive, lstrip_lstrip. reflexivity. Qed.

Lemma lstrip_rstrip_lstrip s : lstrip (rstrip (lstrip s)) = rstrip (lstrip s).
Proof.
  destruct (rstrip_prefix (lstrip s)) as (ws & E & _).
  destruct (rstrip (lstrip s)) as [|c t] eqn:Er; [reflexivity|].
  destruct (lstrip_head s) as [H|(c0 & t0 & H & Hc)]; rewrite H in E.
  - discriminate.
  - injection E as -> _. cbn [lstrip]. rewrite Hc. reflexivity.
Qed.

(** [strip] leaves a stripped text as it is. *)
Lemma strip_strip s : strip (strip s) = strip s.
Proof.
  unfold strip. rewrite lstrip_rstrip_lstrip. apply rstrip_rstrip.
Qed.

Definition no_control (s : list ascii) : Prop :=
  Forall (fun c => is_control c = false) s.

Lemma space_not_control : is_control " "%char = false.
Proof. reflexivity. Qed.

Lemma replaced_no_control v :
  no_control (map (fun c => if is_control c then " "%char else c) v).
Proof.
  apply Forall_fmap, Forall_forall. intros c _. cbn.
  destruct (is_control c) eqn:E; [reflexivity | exact E].
Qed.

Lemma strip_sublist (P : ascii -> Prop) s : Forall P s -> Forall P (strip s).
Proof.
  intros H. destruct (lstrip_suffix s) as (ws1 & E1 & _).
  destruct (rstrip_prefix (lstrip s)) as (ws2 & E2 & _).
  rewrite E1, E2 in H. apply Forall_app in H as [_ H].
  apply Forall_app in H as [H _]. exact H.
Qed.

Lemma clean_text_no_control v : no_control (clean_text v).
Proof. apply strip_sublist, replaced_no_control. Qed.

Lemma clean_text_clean v : no_control v -> strip v = v -> clean_text v = v.
Proof.
  intros Hc Hs. unfold clean_text.
  assert (E : map (fun c => if is_control c then " "%char else c) v = v).
  { clear Hs. induction Hc as [|c t Hc _ IH]; [reflexivity|].
    cbn [map]. rewrite Hc, IH. reflexivity. }
  rewrite E. exact Hs.
Qed.

Lemma clean_text_strip v : strip (clean_text v) = clean_text v.
Proof. apply strip_strip. Qed.

Lemma clean_text_idempotent v : clean_text (clean_text v) = clean_text v.
Proof. apply clean_text_clean; [apply clean_text_no_control | apply clean_text_strip]. Qed.

(** A value as [sanitize_meta] leaves it: a string, or a string of a list,
    has no control character and no white space at its ends. *)
Definition clean_string (v : json) : Prop :=
  match v with
  | JStr s => no_control s /\ strip s = s
  | _ => True
  end.

Definition clean_value (v : json) : Prop :=
  match v with
  | JStr s => no_control s /\ strip s = s
  | JList items => Forall clean_string items
  | _ => True
  end.

Lemma sanitize_value_clean v : clean_value (sanitize_value v).
Proof.
  destruct v as [| | | |s|items|d]; cbn; try exact I.
  - split; [apply clean_text_no_control | apply clean_text_strip].
  - apply Forall_fmap, Forall_forall. intros x _. cbn.
    destruct x; cbn; try exact I.
    split; [apply clean_text_no_control | apply clean_text_strip].
Qed.

Lemma sanitize_value_fixed v : clean_value v -> sanitize_value v = v.
Proof.
  destruct v as [| | | |s|items|d]; cbn; try reflexivity.
  - intros [Hc Hs]. rewrite clean_text_clean by assumption. reflexivity.
  - intros H. f_equal. induction H as [|x t Hx _ IH]; [reflexivity|].
    cbn [map]. rewrite IH. f_equal. destruct x; try reflexivity.
    destruct Hx as [Hc Hs]. rewrite clean_text_clean by assumption. reflexivity.
Qed.

(** X13: [sanitize_meta] keeps the keys, in their order, and the values that
    are neither strings nor lists; in what it returns no string value and
    no string of a list value holds a control character or starts or ends
    with white space; it does not look into nested lists or dicts; and
    applied to its own result it changes nothing. *)
Theorem sanitize_meta_cleans_the_strings
    (meta : option (list (list ascii * json))) :
  map fst (sanitize_meta meta) = map fst (default [] meta) /\
  Forall (fun kv => clean_value (snd kv)) (sanitize_meta meta) /\
  (forall k v, (k, v) ∈ default [] meta ->
     (forall s, v <> JStr s) -> (forall l, v <> JList l) ->
     (k, v) ∈ sanitize_meta meta) /\
  (forall k l, (k, JList l) ∈ default [] meta ->
     Forall (fun x => forall s, x <> JStr s) l ->
     (k, JList l) ∈ sanitize_meta meta) /\
  sanitize_meta (Some (sanitize_meta meta)) = sanitize_meta meta /\
  sanitize_meta None = [].
Proof.
  unfold sanitize_meta. generalize (default [] meta). intros d.
  split; [rewrite map_map; reflexivity|].
  split; [apply Forall_fmap, Forall_forall; intros kv _; cbn;
          apply sanitize_value_clean|].
  split; [|split; [|split; [|reflexivity]]].
  - intros k v Hin Hs Hl. apply list_elem_of_fmap. exists (k, v).
    split; [|exact Hin]. cbn [fst snd].
    destruct v as [| | | |s|items|d0]; try reflexivity.
    + exfalso. apply (Hs s). reflexivity.
    + exfalso. apply (Hl items). reflexivity.
  - intros k l Hin Hl. apply list_elem_of_fmap. exists (k, JList l).
    split; [|exact Hin]. cbn [fst snd sanitize_value].
    assert (E : map (fun x => match x with
                              | JStr s => JStr (clean_text s)
                              | _ => x
                              end) l = l).
    { clear Hin. induction Hl as [|x t Hx _ IH]; [reflexivity|].
      cbn [map]. rewrite IH. f_equal.
      destruct x as [| | | |s|items|d0]; try reflexivity.
      exfalso. apply (Hx s). reflexivity. }
    rewrite E. reflexivity.
  - set (f := fun kv : list ascii * json => (fst kv, sanitize_value (snd kv))).
    change (default [] (Some (map f d))) with (map f d).
    rewrite map_map. apply map_ext. intros [k v]. subst f. cbn [fst snd].
    rewrite sanitize_value_fixed by apply sanitize_value_clean. reflexivity.
Qed.

End UploadMetaFacts.

(** ** Properties of the normalisation of the chunk objects *)

Module UploadNormalizeFacts.
Import PyStrFacts InspectJdJson InspectJdReport UploadToPinecone UploadNormalize.

Lemma get_dict_set_same key value d : get (dict_set key value d) key = value.
Proof.
  induction d as [|[k v] d IH]; cbn [dict_set get].
  - rewrite decide_True by reflexivity. reflexivity.
  - destruct (decide (k = key)) as [->|Hne]; cbn [get].
    + rewrite decide_True by reflexivity. reflexivity.
    + rewrite decide_False by exact Hne. exact IH.
Qed.

Lemma get_dict_set_other key key' value d :
  key' <> key -> get (dict_set key' value d) key = get d key.
Proof.
  intros Hne. induction d as [|[k v] d IH]; cbn [dict_set get].
  - rewrite decide_False by exact Hne. reflexivity.
  - destruct (decide (k = key')) as [->|Hk]; cbn [get].
    + rewrite !decide_False by exact Hne. reflexivity.
    + destruct (decide (k = key)); [reflexivity | exact IH].
Qed.

(** The chunk indexes the loop uses, from position [i] on. *)
Fixpoint indexes_from (i : Z) (raw : list chunk) : list Z :=
  match raw with
  | [] => []
  | obj :: rest => index_of obj i :: indexes_from (i + 1) rest
  end.

(** What the loop guarantees of an item it keeps. *)
Definition well_made (env : setting) (j : Z) (it : item) : Prop :=
  (exists sec, id it = build_vector_id (candidate_id env) j sec) /\
  item_text it <> [] /\
  strip (item_text it) = item_text it /\
  get (item_metadata it) (str "candidate_id") = JStr (candidate_id env).

Lemma normalize_one_kept env i obj it :
  normalize_one env i obj = Kept it -> well_made env (index_of obj i) it.
Proof.
  unfold normalize_one. cbv zeta.
  destruct (por (section obj) _) as [| | | |sec| |]; try discriminate.
  destruct (por (chunk_text obj) _) as [| | | |t| |]; try discriminate.
  destruct (strip t) as [|c t'] eqn:Et; [discriminate|].
  intros H. injection H as <-. unfold well_made. cbn [id item_text item_metadata].
  split; [exists sec; reflexivity|]. split; [discriminate|].
  split; [rewrite <- Et; apply UploadMetaFacts.strip_strip|].
  rewrite !get_dict_set_other by (intros E; discriminate E).
  apply get_dict_set_same.
Qed.

Lemma normalize_from_items env i raw items :
  normalize_from env i raw = Some items ->
  (length items <= length raw)%nat /\
  Forall (fun it => exists j, j ∈ indexes_from i raw /\ well_made env j it) items /\
  (NoDup (indexes_from i raw) -> NoDup (map id items)).
Proof.
  revert i items. induction raw as [|obj rest IH]; intros i items H.
  - injection H as <-. split; [reflexivity|]. split; constructor.
  - cbn [normalize_from] in H. cbn [indexes_from length].
    destruct (normalize_one env i obj) as [| |it] eqn:E; [discriminate| |].
    + destruct (IH _ _ H) as (H1 & H2 & H3).
      split; [lia|]. split.
      * eapply Forall_impl; [exact H2|]. intros it (j & Hj & Hw).
        exists j. split; [apply elem_of_cons; right; exact Hj | exact Hw].
      * intros Hnd. apply NoDup_cons in Hnd as [_ Hnd]. apply H3, Hnd.
    + destruct (normalize_from env (i + 1) rest) as [items'|] eqn:E';
        [|discriminate].
      injection H as <-. destruct (IH _ _ E') as (H1 & H2 & H3).
      pose proof (normalize_one_kept _ _ _ _ E) as Hw.
      split; [cbn [length]; lia|]. split.
      * constructor.
        -- exists (index_of obj i). split; [apply elem_of_cons; left; reflexivity|exact Hw].
        -- eapply Forall_impl; [exact H2|]. intros it' (j & Hj & Hw').
           exists j. split; [apply elem_of_cons; right; exact Hj | exact Hw'].
      * intros Hnd. apply NoDup_cons in Hnd as [Hni Hnd]. cbn [map].
        apply NoDup_cons. split; [|apply H3, Hnd].
        intros Hin. apply list_elem_of_fmap in Hin as (it' & Heq & Hin).
        rewrite Forall_forall in H2. destruct (H2 _ Hin) as (j & Hj & (sec' & Hid') & _).
        destruct Hw as ((sec & Hid) & _).
        rewrite Hid, Hid' in Heq.
        apply VectorIdFacts.build_vector_id_index in Heq as [Heq _].
        apply Hni. rewrite Heq. exact Hj.
Qed.

Lemma indexes_without_index i raw :
  Forall (fun obj => chunk_index obj = None \/ chunk_index obj = Some 0) raw ->
  indexes_from i raw = map (fun k => i + Z.of_nat k) (seq 0 (length raw)).
Proof.
  revert i. induction raw as [|obj rest IH]; intros i H; [reflexivity|].
  apply Forall_cons in H as [Ho Hr]. cbn [indexes_from length seq map].
  f_equal.
  - unfold index_of. destruct Ho as [-> | ->]; cbn; lia.
  - rewrite (IH _ Hr), <- seq_shift, map_map. apply map_ext. intros k. lia.
Qed.

Lemma positions_nodup i n :
  NoDup (map (fun k => i + Z.of_nat k) (seq 0 n)).
Proof.
  apply NoDup_fmap_2; [|apply NoDup_ListNoDup, seq_NoDup].
  intros x y H. lia.
Qed.

(** Chunks of one section, with or without an index of their own. *)
Definition plain_chunk (index : option Z) (body : string) : chunk :=
  {| section := JStr (str "Skills"); chunk_index := index;
     chunk_text := JStr (str body); text := JNull; full_text := JNull;
     metadata := None |}.

Definition plain_setting : setting :=
  {| candidate_id := str "resumes_ab12cd"; file_name := str "cv.json";
     now := fun _ => str "2025-01-01T00:00:00";
     first_name := JStr []; first_email := JStr [] |}.

(** X14: the chunks kept by the normalisation can be told apart and traced
    back.  When the loop does not die, it keeps at most one item per
    object, each with a text that is not empty and is trimmed, with the
    candidate identifier in its metadata, and with the chunk identifier
    built from the candidate, the chunk index used and a section; the
    identifiers of the items are pairwise distinct when the chunk indexes
    used are, which is the case when no object carries an index (the
    position is then used) and need not be when only some do. *)
Theorem normalized_chunks_are_distinct (env : setting) (raw : list chunk)
    (items : list item) :
  normalize env raw = Some items ->
  (length items <= length raw)%nat /\
  Forall (fun it => exists j, j ∈ indexes_from 1 raw /\ well_made env j it)
         items /\
  (NoDup (indexes_from 1 raw) -> NoDup (map id items)) /\
  (Forall (fun obj => chunk_index obj = None \/ chunk_index obj = Some 0) raw ->
   NoDup (map id items)) /\
  option_map (map id)
    (normalize plain_setting
       [plain_chunk None "python"; plain_chunk (Some 1) "sql"])
  = Some [str "resumes_ab12cd_chunk1_skills";
          str "resumes_ab12cd_chunk1_skills"].
Proof.
  intros H. destruct (normalize_from_items env 1 raw items H) as (H1 & H2 & H3).
  split; [exact H1|]. split; [exact H2|]. split; [exact H3|].
  split; [|vm_compute; reflexivity].
  intros Hno. apply H3. rewrite (indexes_without_index 1 raw Hno).
  apply positions_nodup.
Qed.

Lemma normalized_chunks_are_distinct_example :
  exists items,
    normalize plain_setting [plain_chunk None "python"; plain_chunk None "sql"]
    = Some items /\
    map id items = [str "resumes_ab12cd_chunk1_skills";
                    str "resumes_ab12cd_chunk2_skills"] /\
    NoDup (map id items).
Proof.
  destruct (normalize plain_setting
              [plain_chunk None "python"; plain_chunk None "sql"])
    as [items|] eqn:E; [|vm_compute in E; discriminate E].
  exists items. split; [reflexivity|].
  destruct (normalized_chunks_are_distinct plain_setting _ items E)
    as (_ & _ & _ & H & _).
  split.
  - vm_compute in E. injection E as <-. reflexivity.
  - apply H. repeat constructor.
Defined.

End UploadNormalizeFacts.

(** ** Properties of the report of the evaluations *)

Module InspectJdReportFacts.
Import InspectJdJson InspectJdReport.

Definition is_dict (v : json) : Prop :=
  match v with JDict _ => True | _ => False end.

(** A number or a boolean. *)
Definition is_scalar (v : json) : Prop :=
  match v with JBool _ | JInt _ | JFloat _ => True | _ => False end.

(** The items before the first one that is not a dict. *)
Fixpoint leading_dicts (items : list json) : list json :=
  match items with
  | JDict d :: rest => JDict d :: leading_dicts rest
  | _ => []
  end.

Definition rows_of (v : json) : list row := fst (fst (report v)).
Definition error_of (v : json) : option error := snd (fst (report v)).
Definition saved (v : json) : bool := snd (report v).

Lemma report_items_spec items :
  length (fst (report_items items)) = length (leading_dicts items) /\
  (snd (report_items items) = None <-> Forall is_dict items) /\
  snd (report_items items) <> Some TypeError.
Proof.
  induction items as [|item rest (IH1 & IH2 & IH3)].
  - cbn. split; [reflexivity|]. split; [|discriminate].
    split; [constructor | reflexivity].
  - assert (Hbad : ~ is_dict item -> row_of item = None)
      by (destruct item; cbn; tauto).
    destruct item as [| | | |s|l|d]; cbn [report_items leading_dicts];
      try rewrite Hbad by (cbn; tauto); cbn [row_of fst snd length];
      try (split; [reflexivity|]; split; [|discriminate];
           split; [discriminate|]; intros H; apply Forall_cons in H as [H _];
           destruct H).
    destruct (report_items rest) as [rows e]. cbn [fst snd length] in *.
    split; [f_equal; exact IH1|]. split; [|exact IH3].
    rewrite IH2. split.
    + intros H. constructor; [exact I | exact H].
    + intros H. apply Forall_cons in H as [_ H]. exact H.
Qed.

Lemma leading_dicts_all items :
  Forall is_dict items -> leading_dicts items = items.
Proof.
  induction 1 as [|x t Hx _ IH]; [reflexivity|].
  destruct x; try destruct Hx. cbn. f_equal. exact IH.
Qed.

Lemma report_of_list items :
  length (rows_of (JList items)) = length (leading_dicts items) /\
  (error_of (JList items) = None <-> Forall is_dict items) /\
  error_of (JList items) <> Some TypeError /\
  (saved (JList items) = true <-> error_of (JList items) = None).
Proof.
  unfold rows_of, error_of, saved, report. cbn [iterate].
  destruct (report_items_spec items) as (H1 & H2 & H3).
  destruct (report_items items) as [rows e]. cbn [fst snd] in *.
  split; [exact H1|]. split; [exact H2|]. split; [exact H3|].
  destruct e; split; congruence.
Qed.

Lemma report_of_scalar v :
  is_scalar v ->
  rows_of v = [] /\ error_of v = Some TypeError /\ saved v = false.
Proof. destruct v; cbn; try tauto; intros _; repeat split. Qed.

Lemma report_of_text c s :
  rows_of (JStr (c :: s)) = [] /\
  error_of (JStr (c :: s)) = Some AttributeError /\
  saved (JStr (c :: s)) = false.
Proof. repeat split. Qed.

Lemma report_of_object kv d :
  rows_of (JDict (kv :: d)) = [] /\
  error_of (JDict (kv :: d)) = Some AttributeError /\
  saved (JDict (kv :: d)) = false.
Proof. repeat split. Qed.

(** What the shaping of the decoded reply can give: a list, or a value
    that is truthy. *)
Lemma parsed_list_range parsed :
  (exists items, parsed_list parsed = JList items) \/
  is_scalar (parsed_list parsed) \/
  (exists c s, parsed_list parsed = JStr (c :: s)) \/
  (exists kv d, parsed_list parsed = JDict (kv :: d)).
Proof.
  assert (Htruthy : forall v, truthy v = true ->
            (exists items, v = JList items) \/ is_scalar v \/
            (exists c s, v = JStr (c :: s)) \/
            (exists kv d, v = JDict (kv :: d))).
  { intros v. destruct v as [| | | |s|l|d]; cbn; try discriminate;
      try (intros _; right; left; exact I).
    - destruct s as [|c s]; [discriminate|]. intros _. right. right. left. eauto.
    - intros _. left. eauto.
    - destruct d as [|kv d]; [discriminate|]. intros _. right. right. right. eauto. }
  destruct parsed as [| | | |s|l|d]; cbn [parsed_list]; try (left; eauto; fail).
  destruct (truthy (get d (str "evaluations"))) eqn:E; [apply Htruthy, E|].
  unfold por. rewrite E.
  destruct (truthy (get d (str "results"))) eqn:E2; [apply Htruthy, E2|].
  left. eauto.
Qed.

(** X15: the report of the evaluations ends normally, and the output file
    is written, exactly when the result list is a list whose items are all
    objects; it then shows one row per item.  A result that is a number or
    a boolean, which an object holding such a value under [evaluations] or
    [results] gives, stops the run with a TypeError before any row; a
    string, an object, or a list with an item that is no object stops it
    with an AttributeError, after the rows of the objects that come first
    in the case of the list. *)
Theorem report_needs_a_list_of_objects (parsed : json) :
  let pl := parsed_list parsed in
  (error_of pl = None <->
   exists items, pl = JList items /\ Forall is_dict items) /\
  (saved pl = true <-> error_of pl = None) /\
  (error_of pl = Some TypeError <-> is_scalar pl) /\
  (forall items, pl = JList items ->
     length (rows_of pl) = length (leading_dicts items) /\
     (Forall is_dict items -> length (rows_of pl) = length items)) /\
  ((forall items, pl <> JList items) -> rows_of pl = []).
Proof.
  intros pl.
  destruct (parsed_list_range parsed)
    as [(items & E)|[Hs|[(c & s & E)|(kv & d & E)]]]; fold pl in E || fold pl in Hs.
  - rewrite E. destruct (report_of_list items) as (H1 & H2 & H3 & H4).
    split; [|split; [exact H4|split; [|split]]].
    + rewrite H2. split.
      * intros H. exists items. auto.
      * intros (l & Heq & H). injection Heq as ->. exact H.
    + split; [intros H; contradiction | intros H; destruct H].
    + intros l Heq. injection Heq as <-. split; [exact H1|].
      intros Hd. rewrite H1, leading_dicts_all by exact Hd. reflexivity.
    + intros Hne. exfalso. apply (Hne items). reflexivity.
  - destruct (report_of_scalar pl Hs) as (H1 & H2 & H3).
    rewrite H1, H2, H3.
    split; [|split; [|split; [|split]]].
    + split; [discriminate|]. intros (l & Heq & _). rewrite Heq in Hs. destruct Hs.
    + split; discriminate.
    + split; auto.
    + intros l Heq. rewrite Heq in Hs. destruct Hs.
    + reflexivity.
  - rewrite E. destruct (report_of_text c s) as (H1 & H2 & H3).
    rewrite H1, H2, H3.
    split; [|split; [|split; [|split]]].
    + split; [discriminate|]. intros (l & Heq & _). discriminate.
    + split; discriminate.
    + split; [discriminate | intros H; destruct H].
    + intros l Heq. discriminate.
    + reflexivity.
  - rewrite E. destruct (report_of_object kv d) as (H1 & H2 & H3).
    rewrite H1, H2, H3.
    split; [|split; [|split; [|split]]].
    + split; [discriminate|]. intros (l & Heq & _). discriminate.
    + split; discriminate.
    + split; [discriminate | intros H; destruct H].
    + intros l Heq. discriminate.
    + reflexivity.
Qed.

End InspectJdReportFacts.

(** ** inspect_jd.py: the cleaned text and the reply *)

Module CleanReplyFacts.
Import PyStrFacts PyStrCharFacts InspectJd.

(** [x] is a contiguous part of [y]. *)
Definition part_of (x y : list ascii) : Prop :=
  exists pre post, y = pre ++ x ++ post.

Lemma part_of_refl x : part_of x x.
Proof. exists [], []. rewrite app_nil_r. reflexivity. Qed.

Lemma part_of_trans x y z : part_of x y -> part_of y z -> part_of x z.
Proof.
  intros (p1 & q1 & ->) (p2 & q2 & ->). exists (p2 ++ p1), (q1 ++ q2).
  rewrite <- !app_assoc. reflexivity.
Qed.

Lemma part_of_nil y : part_of [] y.
Proof. exists [], y. reflexivity. Qed.

Lemma part_of_take n x : part_of (take n x) x.
Proof. exists [], (drop n x). cbn. symmetry. apply take_drop. Qed.

Lemma part_of_drop n x : part_of (drop n x) x.
Proof. exists (take n x), []. rewrite app_nil_r. symmetry. apply take_drop. Qed.

Lemma part_of_lstrip x : part_of (lstrip x) x.
Proof.
  destruct (lstrip_suffix x) as (ws & E & _). exists ws, [].
  rewrite app_nil_r. exact E.
Qed.

Lemma part_of_rstrip x : part_of (rstrip x) x.
Proof. destruct (rstrip_prefix x) as (ws & E & _). exists [], ws. exact E. Qed.

Lemma part_of_strip x : part_of (strip x) x.
Proof.
  unfold strip. eapply part_of_trans; [apply part_of_rstrip | apply part_of_lstrip].
Qed.

Lemma part_of_slice s lo hi : part_of (slice s lo hi) s.
Proof.
  unfold slice. cbv zeta.
  eapply part_of_trans; [apply part_of_take | apply part_of_drop].
Qed.

Lemma part_of_drop_letters x : part_of (drop_letters x) x.
Proof.
  induction x as [|c t IH]; [apply part_of_refl|].
  cbn [drop_letters]. destruct (is_ascii_letter c); [|apply part_of_refl].
  eapply part_of_trans; [exact IH|]. exists [c], []. rewrite app_nil_r. reflexivity.
Qed.

Lemma part_of_drop_one_nl x : part_of (drop_one_nl x) x.
Proof.
  destruct x as [|c t]; [apply part_of_refl|]. cbn [drop_one_nl].
  destruct (ascii_dec c nl); [|apply part_of_refl].
  exists [c], []. rewrite app_nil_r. reflexivity.
Qed.

Lemma part_of_sub_leading_fence x : part_of (sub_leading_fence x) x.
Proof.
  unfold sub_leading_fence. destruct (startswith fence x); [|apply part_of_refl].
  eapply part_of_trans; [apply part_of_drop_one_nl|].
  eapply part_of_trans; [apply part_of_drop_letters | apply part_of_drop].
Qed.

Lemma part_of_cut_final_fence x : part_of (cut_final_fence x) x.
Proof.
  unfold cut_final_fence, drop_end. cbv zeta.
  destruct (endswith [nl] _).
  - eapply part_of_trans; apply part_of_take.
  - apply part_of_take.
Qed.

Lemma rstrip_snoc_space x c : isspace c = true -> rstrip (x ++ [c]) = rstrip x.
Proof.
  intros Hc. unfold rstrip. rewrite rev_app_distr. cbn [rev app lstrip].
  rewrite Hc. reflexivity.
Qed.

Lemma lstrip_snoc x c :
  lstrip (x ++ [c]) = lstrip x ++ [c] \/ lstrip (x ++ [c]) = [].
Proof.
  induction x as [|a t IH]; cbn [app lstrip].
  - destruct (isspace c); [right|left]; reflexivity.
  - destruct (isspace a); [exact IH | left; reflexivity].
Qed.

(** Trimming does not bring back a final white space. *)
Lemma part_of_strip_snoc x c : isspace c = true -> part_of (strip (x ++ [c])) x.
Proof.
  intros Hc. unfold strip. destruct (lstrip_snoc x c) as [-> | ->].
  - rewrite rstrip_snoc_space by exact Hc. apply (part_of_strip x).
  - apply part_of_nil.
Qed.

Lemma nl_is_space : isspace nl = true.
Proof. reflexivity. Qed.

(** X16: cleaning a reply never makes up text: whatever the reply, fenced or
    not, the text handed to the JSON decoder is a contiguous part of the
    reply. *)
Theorem clean_gpt_response_is_part_of_the_reply (raw : list ascii) :
  exists pre post, raw = pre ++ clean_gpt_response raw ++ post.
Proof.
  change (part_of (clean_gpt_response raw) raw).
  apply part_of_trans with (strip raw); [|apply part_of_strip].
  unfold clean_gpt_response. cbv zeta.
  destruct (startswith fence (strip raw)).
  - apply part_of_trans with (sub_leading_fence (strip raw));
      [|apply part_of_sub_leading_fence].
    generalize (sub_leading_fence (strip raw)). intros y.
    unfold sub_trailing_fence.
    destruct (endswith fence y).
    + eapply part_of_trans; [apply part_of_strip | apply part_of_cut_final_fence].
    + destruct (endswith (fence ++ [nl]) y); [|apply part_of_strip].
      eapply part_of_trans; [apply part_of_strip_snoc, nl_is_space|].
      eapply part_of_trans; [apply part_of_cut_final_fence|].
      unfold drop_end. apply part_of_take.
  - destruct (_ =? -1); [apply part_of_refl|].
    destruct (_ =? -1); [apply part_of_refl | apply part_of_slice].
Qed.

End CleanReplyFacts.

(** ** match_candidates.py: the bucket follows the score *)

Module BucketOrderFacts.
Import MatchCandidates.

Lemma SFleb_trans x y z :
  SpecFloat.SFleb x y = true -> SpecFloat.SFleb y z = true ->
  SpecFloat.SFleb x z = true.
Proof.
  destruct x as [[]|[]| |[] m1 e1], y as [[]|[]| |[] m2 e2],
           z as [[]|[]| |[] m3 e3];
    cbn [SpecFloat.SFleb SpecFloat.SFcompare]; try congruence; try reflexivity;
    change (PosDef.Pos.compare_cont Eq ?a ?b) with (Pos.compare a b);
    repeat match goal with
    | |- context [Z.compare ?a ?b] => destruct (Z.compare_spec a b); subst
    | |- context [Pos.compare ?a ?b] => destruct (Pos.compare_spec a b); subst
    end; cbn [CompOpp]; try congruence; try reflexivity; try lia.
Qed.

Lemma le_trans x y z : le x y = true -> le y z = true -> le x z = true.
Proof.
  unfold le. rewrite !FloatAxioms.leb_spec. apply SFleb_trans.
Qed.

Lemma SFleb_nan_l x y :
  SpecFloat.SFeqb x x = false -> SpecFloat.SFleb x y = false /\ SpecFloat.SFleb y x = false.
Proof.
  destruct x as [[]|[]| |[] m1 e1]; cbn [SpecFloat.SFeqb SpecFloat.SFcompare];
    try discriminate;
    try (change (PosDef.Pos.compare_cont Eq ?a ?b) with (Pos.compare a b);
         rewrite Z.compare_refl, Pos.compare_refl; discriminate).
  intros _. destruct y as [[]|[]| |[] m2 e2]; split; reflexivity.
Qed.

(** The buckets in the order of the scores they are given to. *)
Definition rank (b : string) : nat :=
  if String.eqb b "H" then 3
  else if String.eqb b "S" then 2
  else if String.eqb b "N" then 1
  else 0.

(** X17: the bucket follows the score: of two scores the higher one never
    gets a lower bucket, in the order H above S above N above R, whatever
    the three thresholds; and a score that is not a number, which compares
    with nothing, gets N. *)
Theorem bucket_follows_the_score (hired shortlist rejected s1 s2 : float) :
  le s1 s2 = true ->
  (rank (bucket_with hired shortlist rejected s1)
   <= rank (bucket_with hired shortlist rejected s2))%nat /\
  (rank (bucket s1) <= rank (bucket s2))%nat /\
  (forall s, PrimFloat.eqb s s = false ->
     bucket_with hired shortlist rejected s = "N"%string).
Proof.
  intros H12.
  assert (Hmono : forall h sh r,
    (rank (bucket_with h sh r s1) <= rank (bucket_with h sh r s2))%nat).
  { intros h sh r. unfold bucket_with, ge.
    destruct (PrimFloat.leb h s1) eqn:E1.
    { assert (E2 : PrimFloat.leb h s2 = true) by (apply (le_trans h s1 s2); assumption).
      rewrite E2. cbn. lia. }
    destruct (PrimFloat.leb sh s1) eqn:E3.
    { assert (E4 : PrimFloat.leb sh s2 = true) by (apply (le_trans sh s1 s2); assumption).
      rewrite E4. destruct (PrimFloat.leb h s2); cbn; lia. }
    destruct (le s1 r) eqn:E5.
    { destruct (PrimFloat.leb h s2), (PrimFloat.leb sh s2), (le s2 r); cbn; lia. }
    destruct (le s2 r) eqn:E6.
    { assert (E7 : le s1 r = true) by (apply (le_trans s1 s2 r); assumption).
      congruence. }
    destruct (PrimFloat.leb h s2), (PrimFloat.leb sh s2); cbn; lia. }
  split; [apply Hmono|]. split; [apply Hmono|].
  intros s Hs. unfold bucket_with, ge, le.
  rewrite FloatAxioms.eqb_spec in Hs. rewrite !FloatAxioms.leb_spec.
  destruct (SFleb_nan_l (Prim2SF s) (Prim2SF hired) Hs) as [_ ->].
  destruct (SFleb_nan_l (Prim2SF s) (Prim2SF shortlist) Hs) as [_ ->].
  destruct (SFleb_nan_l (Prim2SF s) (Prim2SF rejected) Hs) as [-> _].
  reflexivity.
Qed.

Lemma bucket_follows_the_score_example :
  (rank (bucket 0.4%float) <= rank (bucket 0.6%float))%nat.
Proof.
  apply (bucket_follows_the_score HIRED_THRESHOLD SHORTLIST_THRESHOLD
           REJECTED_THRESHOLD 0.4%float 0.6%float).
  vm_compute. reflexivity.
Defined.

End BucketOrderFacts.

(** ** match_candidates_llm_v2.py: the scorer under scaling *)

Module ScorerScaleFacts.
Import MatchCandidatesLlmV2 ScorerFacts.
Local Open Scope R_scope.











End ScorerScaleFacts.

(** ** Properties of the table of scores *)

Module ScoreTableFacts.
Import MatchCandidatesLlmV2 ScoreTable ScorerFacts.

(** The value the pure-Python branch returns in binary64. *)
Definition float_score (a b : list float) : float :=
  let norm_a := PrimFloat.sqrt (sum_squares float_arith a) in
  let norm_b := PrimFloat.sqrt (sum_squares float_arith b) in
  if PrimFloat.eqb norm_a 0%float || PrimFloat.eqb norm_b 0%float
  then (-1)%float
  else PrimFloat.div (dot float_arith a b) (PrimFloat.mul norm_a norm_b).

(** The entries that have a vector, with it. *)
Definition with_vector (l : list (@entry float))
  : list (list ascii * list float) :=
  omap (fun e => match snd e with
                 | Some (x :: v) => Some (fst e, x :: v)
                 | _ => None
                 end) l.

Lemma score_against_float rid rvec x (jds : list (@entry float)) :
  score_against float_arith false rid (Some (x :: rvec)) jds
  = Returns (map (fun j => (rid, fst j, float_score (x :: rvec) (snd j)))
                 (with_vector jds)).
Proof.
  induction jds as [|[jid [[|y jvec]|]] jds IH];
    cbn [score_against has_vector with_vector omap list_omap fst snd map];
    try exact IH; [reflexivity|].
  cbn [cosine_sim]. rewrite cosine_sim_python_float.
  fold (with_vector jds). rewrite IH. reflexivity.
Qed.

Lemma out_rows_float (resumes jds : list (@entry float)) :
  out_rows float_arith false resumes jds
  = Returns (flat_map (fun r => map (fun j => (fst r, fst j,
                                               float_score (snd r) (snd j)))
                                    (with_vector jds))
                      (with_vector resumes)).
Proof.
  induction resumes as [|[rid [[|x rvec]|]] resumes IH];
    cbn [out_rows has_vector with_vector omap list_omap fst snd flat_map];
    try exact IH; [reflexivity|].
  rewrite score_against_float. fold (with_vector resumes). rewrite IH.
  reflexivity.
Qed.

(** X20: without numpy the table of scores is complete and the scoring
    never dies: in binary64 the loops return one row for every pair of a
    resume and a job description that both have a vector that is not
    empty, in the order of the two maps, whatever the lengths and the
    values of the vectors, so the table has as many rows as the product of
    the two counts. *)
Theorem score_table_is_complete (resumes jds : list (@entry float)) :
  exists rows,
    out_rows float_arith false resumes jds = Returns rows /\
    map (fun row => (fst (fst row), snd (fst row))) rows
    = flat_map (fun r => map (fun j => (fst r, fst j)) (with_vector jds))
               (with_vector resumes) /\
    length rows = (length (with_vector resumes) * length (with_vector jds))%nat /\
    Forall (fun row =>
              exists a b, (fst (fst row), a) ∈ with_vector resumes /\
                          (snd (fst row), b) ∈ with_vector jds /\
                          cosine_sim float_arith false (Some a) (Some b)
                          = Returns (snd row)) rows.
Proof.
  eexists. split; [apply out_rows_float|].
  generalize (with_vector jds). intros js.
  generalize (with_vector resumes). intros rs.
  split; [|split].
  - induction rs as [|r rs IH]; [reflexivity|].
    cbn [flat_map]. rewrite map_app, IH, map_map. reflexivity.
  - induction rs as [|r rs IH]; [reflexivity|].
    cbn [flat_map length]. rewrite length_app, length_map, IH. lia.
  - induction rs as [|r rs IH]; [constructor|].
    cbn [flat_map]. apply Forall_app. split.
    + apply Forall_fmap, Forall_forall. intros [jid b] Hj. cbn.
      exists (snd r), b. split; [|split].
      * apply elem_of_cons. left. destruct r; reflexivity.
      * exact Hj.
      * apply cosine_sim_python_float.
    + eapply Forall_impl; [exact IH|]. intros row (a & b & Ha & Hb & Hs).
      exists a, b. split; [apply elem_of_cons; right; exact Ha|]. auto.
Qed.

End ScoreTableFacts.

(** ** Properties of the extraction of a vector *)

Module ExtractVectorFacts.
Import InspectJdJson ExtractVector.

Section Facts.
Variable float_of_str : list ascii -> option float.

Lemma floats_of_floats xs :
  floats_of float_of_str (map JFloat xs) = Returns xs.
Proof.
  induction xs as [|x xs IH]; [reflexivity|].
  cbn [map floats_of to_float]. rewrite IH. reflexivity.
Qed.

Lemma to_floats_floats xs :
  to_floats float_of_str (JList (map JFloat xs)) = Returns xs.
Proof. unfold to_floats. cbn [InspectJdReport.iterate]. apply floats_of_floats. Qed.

Lemma of_dict_none keys d :
  Forall (fun k => get d k = JNull) keys ->
  of_dict float_of_str keys d = Returns None.
Proof.
  induction 1 as [|k keys Hk _ IH]; [reflexivity|].
  cbn [of_dict]. rewrite Hk. exact IH.
Qed.

(** The result for a dict entry, read off the first of the keys whose
    value is not null. *)
Lemma of_dict_first keys1 k keys2 d v :
  Forall (fun k' => get d k' = JNull) keys1 ->
  get d k = v -> v <> JNull ->
  of_dict float_of_str (keys1 ++ k :: keys2) d
  = match unwrap v with
    | JNull => Returns None
    | v' => match to_floats float_of_str v' with
            | Raises e => Raises e
            | Returns fs => Returns (Some fs)
            end
    end.
Proof.
  intros H1 Hk Hv. induction H1 as [|k1 keys1 Hk1 _ IH].
  - cbn [app of_dict]. rewrite Hk. destruct v; try reflexivity. congruence.
  - cbn [app of_dict]. rewrite Hk1. exact IH.
Qed.

End Facts.

Definition vector_keys : list (list ascii) :=
  [str "values"; str "vector"; str "values_list"; str "values_vector"].

(** X21: [safe_extract_vector] reads a dict entry at the first of the keys
    [values], [vector], [values_list], [values_vector] whose value is not
    null, and at no other key: the later keys and the metadata are never
    used.  A list of floats found there, directly or under [values] of a
    nested dict, comes back unchanged; an entry with none of the four
    keys, or with null under each, gives None.  The two shapes differ on a
    nested null: the dict entry gives None, the object entry dies of a
    TypeError. *)
Theorem safe_extract_vector_reads_the_first_key
    (float_of_str : list ascii -> option float) :
  (forall keys1 k keys2 d v,
     vector_keys = keys1 ++ k :: keys2 ->
     Forall (fun k' => get d k' = JNull) keys1 ->
     get d k = v -> v <> JNull ->
     safe_extract_vector float_of_str (Value (JDict d))
     = match unwrap v with
       | JNull => Returns None
       | v' => match to_floats float_of_str v' with
               | Raises e => Raises e
               | Returns fs => Returns (Some fs)
               end
       end) /\
  (forall d xs,
     get d (str "values") = JList (map JFloat xs) ->
     safe_extract_vector float_of_str (Value (JDict d)) = Returns (Some xs)) /\
  (forall d xs,
     get d (str "values") = JNull ->
     get d (str "vector") = JDict [(str "values", JList (map JFloat xs))] ->
     safe_extract_vector float_of_str (Value (JDict d)) = Returns (Some xs)) /\
  (forall d,
     Forall (fun k => get d k = JNull) vector_keys ->
     safe_extract_vector float_of_str (Value (JDict d)) = Returns None) /\
  (forall xs vector,
     safe_extract_vector float_of_str
       (Object (Some (JList (map JFloat xs))) vector) = Returns (Some xs)) /\
  safe_extract_vector float_of_str
    (Value (JDict [(str "vector", JDict [(str "values", JNull)])]))
  = Returns None /\
  safe_extract_vector float_of_str
    (Object None (Some (JDict [(str "values", JNull)])))
  = Raises TypeError /\
  safe_extract_vector float_of_str
    (Value (JDict [(str "values", JList [JInt 1; JBool true; JFloat 0.5])]))
  = Returns (Some [1%float; 1%float; 0.5%float]).
Proof.
  split; [|split; [|split; [|split; [|split; [|split; [|split]]]]]].
  - intros keys1 k keys2 d v Hkeys H1 Hk Hv.
    cbn [safe_extract_vector]. change [str "values"; str "vector";
      str "values_list"; str "values_vector"] with vector_keys.
    rewrite Hkeys. apply of_dict_first; assumption.
  - intros d xs H. cbn [safe_extract_vector of_dict]. rewrite H.
    cbn [unwrap]. rewrite to_floats_floats. destruct xs; reflexivity.
  - intros d xs H1 H2. cbn [safe_extract_vector of_dict]. rewrite H1, H2.
    assert (E : unwrap (JDict [(str "values", JList (map JFloat xs))])
                = JList (map JFloat xs)) by reflexivity.
    rewrite E. rewrite to_floats_floats. destruct xs; reflexivity.
  - intros d H. apply of_dict_none, H.
  - intros xs vector. cbn [safe_extract_vector of_object unwrap].
    rewrite to_floats_floats. reflexivity.
  - reflexivity.
  - reflexivity.
  - vm_compute. reflexivity.
Qed.

End ExtractVectorFacts.

(** ** match_candidates_llm_v2.py: when the norm is zero, and what a NaN
    does, in binary64 *)

Module Binary64ScoreFacts.
Import SpecFloat Binary64Facts MatchCandidatesLlmV2 ScorerFacts.

Lemma shift_digits mx (d : positive) :
  Zpos (digits2_pos (PosDef.Pos.iter xO mx d)) = Zpos (digits2_pos mx) + Zpos d.
Proof.
  rewrite !digits2_log2.
  change (PosDef.Pos.iter xO mx d) with (shift_pos d mx).
  rewrite shift_pos_correct, Z.pow_pos_fold, Z.mul_comm.
  rewrite Z.log2_mul_pow2 by lia. lia.
Qed.

(** An alignment keeps the magnitude. *)
Lemma shl_align_magnitude mx ex ex' :
  Zpos (digits2_pos (fst (shl_align mx ex ex'))) + snd (shl_align mx ex ex')
  = Zpos (digits2_pos mx) + ex.
Proof.
  unfold shl_align. destruct (ex' - ex) as [|d|d] eqn:E; cbn [fst snd];
    try reflexivity.
  rewrite shift_digits. lia.
Qed.

Lemma shl_align_exponent mx ex ex' :
  ex' <= ex -> snd (shl_align mx ex ex') = ex'.
Proof.
  intros H. unfold shl_align. destruct (ex' - ex) as [|d|d] eqn:E; cbn [snd]; lia.
Qed.

Lemma binary_round_at_least sx m e k :
  -1074 < k -> k <= Zpos (digits2_pos m) + e ->
  at_least k (binary_round prec emax sx m e).
Proof.
  intros Hk Hm. unfold binary_round.
  pose proof (shl_align_magnitude m e (fexp prec emax (Zpos (digits2_pos m) + e))) as H.
  destruct (shl_align m e _) as [mz ez]. cbn [fst snd] in H.
  apply binary_round_aux_at_least; [lia | exact Hk|].
  cbn [Zdigits2]. lia.
Qed.

Lemma digits2_pos_add_l a b :
  Zpos (digits2_pos a) <= Zpos (digits2_pos (a + b)).
Proof.
  rewrite !digits2_log2.
  pose proof (Z.log2_le_mono (Zpos a) (Zpos (a + b)) ltac:(lia)). lia.
Qed.

(** A sum of two values that are not negative is at least as large as the
    first, as far as the magnitude can tell. *)
Lemma SFadd_at_least_l k x y :
  -1074 < k -> not_negative x -> not_negative y -> at_least k x ->
  at_least k (SFadd prec emax x y).
Proof.
  intros Hk.
  destruct x as [[]|[]| |[] mx ex], y as [[]|[]| |[] my ey];
    cbn [not_negative at_least SFadd]; try tauto.
  intros _ _ Hx. cbn [cond_Zopp].
  pose proof (shl_align_magnitude mx ex (Z.min ex ey)) as H1.
  pose proof (shl_align_exponent mx ex (Z.min ex ey) ltac:(lia)) as E1.
  destruct (shl_align mx ex (Z.min ex ey)) as [m1 e1].
  destruct (shl_align my ey (Z.min ex ey)) as [m2 e2].
  cbn [fst snd] in *. subst e1.
  change (Z.pos m1 + Z.pos m2) with (Z.pos (m1 + m2)).
  cbn [binary_normalize]. apply binary_round_at_least; [exact Hk|].
  pose proof (digits2_pos_add_l m1 m2). lia.
Qed.

Lemma SFadd_comm x y : SFadd prec emax x y = SFadd prec emax y x.
Proof.
  destruct x as [[]|[]| |sx mx ex], y as [[]|[]| |sy my ey];
    cbn [SFadd]; try reflexivity.
  rewrite Z.min_comm, Z.add_comm. reflexivity.
Qed.

(** A value that is a float, not negative and not a zero has a magnitude
    above the smallest exponent. *)
Lemma valid_not_zero_at_least s :
  valid_binary prec emax s = true -> not_negative s -> ~ is_a_zero s ->
  at_least (-1073) s.
Proof.
  destruct s as [sg|[]| |[] m e]; cbn [not_negative is_a_zero at_least];
    try tauto.
  intros Hv _ _. pose proof (valid_exponent _ _ _ Hv) as He.
  pose proof (Pos2Z.is_pos (digits2_pos m)). lia.
Qed.

Lemma is_a_zero_iff s : is_a_zero s <-> SFeqb s (S754_zero false) = true.
Proof.
  destruct s as [sg|[]| |[] m e]; cbn; split; try tauto; discriminate.
Qed.

Lemma SFadd_zero_iff x y :
  valid_binary prec emax x = true -> valid_binary prec emax y = true ->
  not_negative x -> not_negative y ->
  (is_a_zero (SFadd prec emax x y) <-> is_a_zero x /\ is_a_zero y).
Proof.
  intros Vx Vy Nx Ny. split.
  - intros Hz.
    assert (Hnot : forall s, at_least (-1073) s -> ~ is_a_zero s)
      by (intros s; destruct s; cbn; tauto).
    split.
    + destruct x as [sg|[]| |[] m e]; cbn [is_a_zero] in *; try exact I;
        exfalso; (apply (Hnot _ (SFadd_at_least_l (-1073) _ y ltac:(lia) Nx Ny
                                   ltac:(cbn; try exact I;
                                         apply (valid_not_zero_at_least _ Vx Nx);
                                         cbn; tauto)));
                  exact Hz).
    + rewrite SFadd_comm in Hz.
      destruct y as [sg|[]| |[] m e]; cbn [is_a_zero] in *; try exact I;
        exfalso; (apply (Hnot _ (SFadd_at_least_l (-1073) _ x ltac:(lia) Ny Nx
                                   ltac:(cbn; try exact I;
                                         apply (valid_not_zero_at_least _ Vy Ny);
                                         cbn; tauto)));
                  exact Hz).
  - intros [Hx Hy]. destruct x as [[]| | |]; try destruct Hx;
      destruct y as [[]| | |]; try destruct Hy; exact I.
Qed.

(** In binary64: [x == 0]. *)
Definition is_zero_float (x : float) : bool := PrimFloat.eqb x 0%float.

Lemma is_zero_float_spec x :
  is_zero_float x = true <-> is_a_zero (Prim2SF x).
Proof.
  unfold is_zero_float. rewrite FloatAxioms.eqb_spec.
  change (Prim2SF 0%float) with (S754_zero false).
  symmetry. apply is_a_zero_iff.
Qed.

Definition not_below_zero (x : float) : Prop := not_negative (Prim2SF x).

Lemma float_add_zero_iff x y :
  not_below_zero x -> not_below_zero y ->
  (is_zero_float (PrimFloat.add x y) = true
   <-> is_zero_float x = true /\ is_zero_float y = true).
Proof.
  intros Nx Ny. rewrite !is_zero_float_spec, FloatAxioms.add_spec.
  apply SFadd_zero_iff; try assumption; apply FloatAxioms.Prim2SF_valid.
Qed.

Lemma float_sum_zero_iff (l : list float) (acc : float) :
  not_below_zero acc -> Forall not_below_zero l ->
  (is_zero_float (fold_left PrimFloat.add l acc) = true
   <-> is_zero_float acc = true /\ Forall (fun x => is_zero_float x = true) l).
Proof.
  revert acc. induction l as [|x l IH]; intros acc Ha Hl; cbn [fold_left].
  - split; [intros H; split; [exact H | constructor] | tauto].
  - apply Forall_cons in Hl as [Hx Hl].
    rewrite IH; [|unfold not_below_zero; rewrite FloatAxioms.add_spec;
                  apply SFadd_not_negative; assumption | exact Hl].
    rewrite (float_add_zero_iff acc x Ha Hx). rewrite Forall_cons. tauto.
Qed.

Lemma square_not_below_zero x : not_below_zero (PrimFloat.mul x x).
Proof.
  unfold not_below_zero. rewrite FloatAxioms.mul_spec.
  apply SFmul_self_not_negative.
Qed.

Lemma sum_squares_zero_iff (a : list float) :
  is_zero_float (sum_squares float_arith a) = true
  <-> Forall (fun x => is_zero_float (PrimFloat.mul x x) = true) a.
Proof.
  unfold sum_squares, py_sum. cbn [add zero mul float_arith].
  rewrite float_sum_zero_iff.
  - rewrite Forall_fmap. split; [tauto|]. intros H. split; [reflexivity | exact H].
  - unfold not_below_zero. vm_compute. exact I.
  - apply Forall_fmap, Forall_forall. intros x _. apply square_not_below_zero.
Qed.

Lemma SFsqrt_zero_iff s :
  valid_binary prec emax s = true -> not_negative s ->
  (is_a_zero (SFsqrt prec emax s) <-> is_a_zero s).
Proof.
  intros Hv Hn.
  destruct s as [sg|[]| |[] m e]; cbn [not_negative is_a_zero SFsqrt] in *;
    try tauto.
  split; [|tauto]. intros Hz. exfalso.
  pose proof (sqrt_core_magnitude m e (valid_exponent _ _ _ Hv)) as H.
  destruct (SFsqrt_core_binary prec emax (Zpos m) e) as [[q e'] l].
  cbn [fst snd] in H. destruct H as [Hq Hd].
  pose proof (binary_round_aux_at_least false q e' l (-536) Hq ltac:(lia) Hd) as Hl.
  destruct (binary_round_aux prec emax false q e' l); cbn in *; tauto.
Qed.

(** The computed norm of a vector is zero exactly when the square of
    every component is zero. *)
Lemma norm_zero_iff (a : list float) :
  is_zero_float (PrimFloat.sqrt (sum_squares float_arith a)) = true
  <-> Forall (fun x => is_zero_float (PrimFloat.mul x x) = true) a.
Proof.
  rewrite <- sum_squares_zero_iff, !is_zero_float_spec, FloatAxioms.sqrt_spec.
  apply SFsqrt_zero_iff; [apply FloatAxioms.Prim2SF_valid|].
  apply float_sum_squares_not_negative.
Qed.

(** Whether the square of every component is zero. *)
Definition squares_vanish (a : list float) : bool :=
  forallb (fun x => is_zero_float (PrimFloat.mul x x)) a.

Lemma squares_vanish_norm a :
  PrimFloat.eqb (PrimFloat.sqrt (sum_squares float_arith a)) 0%float
  = squares_vanish a.
Proof.
  apply eq_true_iff_eq. fold (is_zero_float (PrimFloat.sqrt (sum_squares float_arith a))).
  rewrite norm_zero_iff. unfold squares_vanish.
  rewrite forallb_forall, Forall_forall. split; intros H x Hx; apply H.
  - apply list_elem_of_In, Hx.
  - apply list_elem_of_In, Hx.
Qed.

(** X22: in binary64 the pure-Python scorer answers with the sentinel for a
    zero norm exactly when the square of every component of one of the
    vectors is zero: the components are zeros, or so small that their
    squares underflow.  In every other case it returns the quotient. *)
Theorem sentinel_when_all_squares_vanish (a b : list float) :
  cosine_sim float_arith false (Some a) (Some b)
  = Returns (if squares_vanish a || squares_vanish b
             then (-1)%float
             else PrimFloat.div (dot float_arith a b)
                    (PrimFloat.mul (PrimFloat.sqrt (sum_squares float_arith a))
                                   (PrimFloat.sqrt (sum_squares float_arith b)))) /\
  (squares_vanish a = true
   <-> PrimFloat.eqb (PrimFloat.sqrt (sum_squares float_arith a)) 0%float = true) /\
  (squares_vanish a = true
   <-> Forall (fun x => PrimFloat.eqb (PrimFloat.mul x x) 0%float = true) a) /\
  squares_vanish [0x1p-600%float; 0%float] = true /\
  squares_vanish [0x1p-600%float; 0x1p-500%float] = false.
Proof.
  split; [|split; [|split; [|split; vm_compute; reflexivity]]].
  - cbn [cosine_sim]. rewrite cosine_sim_python_float. cbv zeta.
    rewrite !squares_vanish_norm. reflexivity.
  - rewrite squares_vanish_norm. tauto.
  - rewrite <- squares_vanish_norm.
    fold (is_zero_float (PrimFloat.sqrt (sum_squares float_arith a))).
    apply norm_zero_iff.
Qed.

(** *** A component that is not a number *)

Lemma is_nan_spec x : PrimFloat.is_nan x = true <-> Prim2SF x = S754_nan.
Proof.
  unfold PrimFloat.is_nan. rewrite FloatAxioms.eqb_spec.
  destruct (Prim2SF x) as [[]|[]| |[] m e]; cbn; try (split; discriminate);
    try (split; reflexivity).
  all: unfold SFeqb, SFcompare; rewrite Z.compare_refl, ?Pos.compare_refl,
         ?Pos.compare_cont_refl; cbn; split; discriminate.
Qed.

Lemma add_nan_l x y : PrimFloat.is_nan x = true -> PrimFloat.is_nan (x + y) = true.
Proof.
  rewrite !is_nan_spec, FloatAxioms.add_spec. intros ->. reflexivity.
Qed.

Lemma add_nan_r x y : PrimFloat.is_nan y = true -> PrimFloat.is_nan (x + y) = true.
Proof.
  rewrite !is_nan_spec, FloatAxioms.add_spec. intros ->.
  destruct (Prim2SF x) as [[]|[]| |[] m e]; reflexivity.
Qed.

Lemma mul_nan_l x y : PrimFloat.is_nan x = true -> PrimFloat.is_nan (x * y) = true.
Proof.
  rewrite !is_nan_spec, FloatAxioms.mul_spec. intros ->. reflexivity.
Qed.

Lemma mul_nan_r x y : PrimFloat.is_nan y = true -> PrimFloat.is_nan (x * y) = true.
Proof.
  rewrite !is_nan_spec, FloatAxioms.mul_spec. intros ->.
  destruct (Prim2SF x) as [[]|[]| |[] m e]; reflexivity.
Qed.

Lemma sqrt_nan x : PrimFloat.is_nan x = true -> PrimFloat.is_nan (PrimFloat.sqrt x) = true.
Proof.
  rewrite !is_nan_spec, FloatAxioms.sqrt_spec. intros ->. reflexivity.
Qed.

Lemma div_nan_r x y : PrimFloat.is_nan y = true -> PrimFloat.is_nan (x / y) = true.
Proof.
  rewrite !is_nan_spec, FloatAxioms.div_spec. intros ->.
  destruct (Prim2SF x) as [[]|[]| |[] m e]; reflexivity.
Qed.

Lemma nan_not_zero x : PrimFloat.is_nan x = true -> is_zero_float x = false.
Proof.
  intros H. apply not_true_is_false. rewrite is_zero_float_spec.
  apply is_nan_spec in H. rewrite H. cbn. tauto.
Qed.

Lemma float_sum_nan (l : list float) (acc : float) :
  PrimFloat.is_nan acc = true \/ Exists (fun x => PrimFloat.is_nan x = true) l ->
  PrimFloat.is_nan (fold_left PrimFloat.add l acc) = true.
Proof.
  revert acc. induction l as [|x l IH]; intros acc H; cbn [fold_left].
  - destruct H as [H|H]; [exact H | inversion H].
  - apply IH. destruct H as [H|H].
    + left. apply add_nan_l, H.
    + apply Exists_cons in H as [H|H]; [left; apply add_nan_r, H | right; exact H].
Qed.

Lemma sum_squares_nan (a : list float) :
  Exists (fun x => PrimFloat.is_nan x = true) a ->
  PrimFloat.is_nan (sum_squares float_arith a) = true.
Proof.
  intros H. unfold sum_squares, py_sum. cbn [add zero mul float_arith].
  apply float_sum_nan. right. apply Exists_fmap.
  eapply Exists_impl; [exact H|]. intros x Hx. cbn. apply mul_nan_l, Hx.
Qed.

Lemma nan_never_vanishes (a : list float) :
  Exists (fun x => PrimFloat.is_nan x = true) a -> squares_vanish a = false.
Proof.
  intros H. apply not_true_is_false. unfold squares_vanish.
  rewrite forallb_forall. intros Hall.
  apply Exists_exists in H as (x & Hx & Hn).
  specialize (Hall x (proj1 (list_elem_of_In _ _) Hx)).
  rewrite (nan_not_zero _ (mul_nan_l x x Hn)) in Hall. discriminate.
Qed.

(** X23: a component that is not a number never raises and never makes its
    own vector count as a zero vector: the pure-Python scorer returns a
    score that is not a number, unless the squares of the other vector
    all vanish, in which case it returns the sentinel. *)
Theorem nan_component_gives_nan_score (a b : list float) :
  Exists (fun x => PrimFloat.is_nan x = true) a ->
  squares_vanish a = false /\
  exists v,
    cosine_sim float_arith false (Some a) (Some b) = Returns v /\
    cosine_sim float_arith false (Some b) (Some a) = Returns v /\
    (squares_vanish b = true -> v = (-1)%float) /\
    (squares_vanish b = false -> PrimFloat.is_nan v = true).
Proof.
  intros Hn. pose proof (nan_never_vanishes a Hn) as Ha.
  split; [exact Ha|].
  pose proof (sqrt_nan _ (sum_squares_nan a Hn)) as Hs.
  destruct (squares_vanish b) eqn:Hb.
  - exists (-1)%float.
    cbn [cosine_sim]. rewrite !cosine_sim_python_float. cbv zeta.
    rewrite !squares_vanish_norm, Ha, Hb. cbn [orb].
    split; [reflexivity|]. split; [reflexivity|].
    split; [intros _; reflexivity | discriminate].
  - cbn [cosine_sim]. rewrite !cosine_sim_python_float. cbv zeta.
    rewrite !squares_vanish_norm, Ha, Hb. cbn [orb].
    assert (E : PrimFloat.div (dot float_arith b a)
                  (PrimFloat.mul (PrimFloat.sqrt (sum_squares float_arith b))
                                 (PrimFloat.sqrt (sum_squares float_arith a)))
                = PrimFloat.div (dot float_arith a b)
                    (PrimFloat.mul (PrimFloat.sqrt (sum_squares float_arith a))
                                   (PrimFloat.sqrt (sum_squares float_arith b)))).
    { apply FloatAxioms.Prim2SF_inj.
      pose proof (div_nan_r (dot float_arith b a) _
                    (mul_nan_r (PrimFloat.sqrt (sum_squares float_arith b)) _ Hs)) as H1.
      pose proof (div_nan_r (dot float_arith a b) _
                    (mul_nan_l _ (PrimFloat.sqrt (sum_squares float_arith b)) Hs)) as H2.
      apply is_nan_spec in H1, H2. rewrite H1, H2. reflexivity. }
    eexists. split; [reflexivity|]. split; [rewrite E; reflexivity|].
    split; [discriminate|]. intros _.
    apply div_nan_r, mul_nan_l, Hs.
Qed.

Lemma nan_component_gives_nan_score_example :
  Exists (fun x => PrimFloat.is_nan x = true) [1%float; PrimFloat.nan] /\
  squares_vanish [1%float; PrimFloat.nan] = false /\
  exists v,
    cosine_sim float_arith false (Some [1%float; PrimFloat.nan])
      (Some [2%float; 3%float]) = Returns v /\
    cosine_sim float_arith false (Some [2%float; 3%float])
      (Some [1%float; PrimFloat.nan]) = Returns v /\
    (squares_vanish [2%float; 3%float] = true -> v = (-1)%float) /\
    (squares_vanish [2%float; 3%float] = false -> PrimFloat.is_nan v = true).
Proof.
  assert (H : Exists (fun x => PrimFloat.is_nan x = true) [1%float; PrimFloat.nan]).
  { apply Exists_cons_tl, Exists_cons_hd. vm_compute. reflexivity. }
  split; [exact H|].
  exact (nan_component_gives_nan_score [1%float; PrimFloat.nan] [2%float; 3%float] H).
Defined.

End Binary64ScoreFacts.
